(** * Jabidan: the gesture-driven carousel engine

    A shallow embedding of the per-frame [update] routine of
    [src/components/CircularGallery.tsx] and of the swipe-to-close effect of
    [src/App.tsx], with the properties the specification states about them.

    JavaScript numbers are idealised as real numbers ([R]): rounding is not
    modelled, except for the smoothing step, which [Binary64] also gives in
    IEEE 754 double precision, the arithmetic the program runs in.  The one
    division whose divisor can be zero ([angleStep]) is kept observable
    through [num].  [Date.now()] is an integer number of milliseconds and is
    modelled in [Z]. *)

From Stdlib Require Import Floats.
From Stdlib Require Import Reals Lra Lia ZArith List Bool.
Import ListNotations.

Open Scope R_scope.

(** ** Numbers and [Math] *)

(** The value of a JavaScript division: finite, or one of the three
    non-finite results a zero divisor produces. *)
Inductive num : Type :=
| Finite (r : R)
| Infinity
| NegInfinity
| NaN.

Definition js_div (a b : R) : num :=
  if Req_dec_T b 0 then
    if Rlt_dec 0 a then Infinity
    else if Rlt_dec a 0 then NegInfinity
    else NaN
  else Finite (a / b).

Definition Rgtb (a b : R) : bool := if Rlt_dec b a then true else false.
Definition Rltb (a b : R) : bool := if Rlt_dec a b then true else false.

Infix ">?" := Rgtb (at level 70, no associativity) : R_scope.
Infix "<?" := Rltb (at level 70, no associativity) : R_scope.

Definition Math_PI : R := PI.
Definition Math_sin : R -> R := sin.
Definition Math_cos : R -> R := cos.
Definition Math_abs : R -> R := Rabs.

(** [Math.pow] on a non-negative base with a positive exponent. *)
Definition Math_pow (b e : R) : R :=
  if Rlt_dec 0 b then Rpower b e else 0.

(** [Math.atan2(y, x)]: the angle of the point [(x, y)], in [(-PI, PI]].
    Over the reals [Math_atan2 (Math_sin a) (Math_cos a)] is [a] wrapped,
    exactly; in double precision the round trip can be off in the last
    place, so the outcome of a strict comparison of that angle with a bound
    it meets exactly is a matter of rounding. *)
Definition Math_atan2 (y x : R) : R :=
  if Rlt_dec 0 x then atan (y / x)
  else if Rlt_dec x 0 then
    if Rle_dec 0 y then atan (y / x) + PI else atan (y / x) - PI
  else if Rlt_dec 0 y then PI / 2
  else if Rlt_dec y 0 then - (PI / 2)
  else 0.

(** The inline smoothing step [v += (t - v) * alpha]. *)
Definition lerp (v t alpha : R) : R := v + (t - v) * alpha.

(** [Array.prototype.indexOf]: position of the first occurrence, or -1. *)
Fixpoint indexOf_from (i : Z) (l : list nat) (v : nat) : Z :=
  match l with
  | [] => (-1)%Z
  | a :: l' => if Nat.eqb a v then i else indexOf_from (i + 1)%Z l' v
  end.

Definition indexOf (l : list nat) (v : nat) : Z := indexOf_from 0%Z l v.

(** ** Data model *)

(** [src/types.ts]: one cursor sample. *)
Module HandCursor.
Record t : Type := mk {
  x : R;
  y : R;
  isPinching : bool;
  isVisible : bool
}.
End HandCursor.

(** The fields of [galleryState] that [update] reads or writes
    ([itemWidth], [padding], [totalWidth] and [currentSpeed] are not
    touched by it). *)
Module GalleryState.
Record t : Type := mk {
  scrollCurrent : R;
  scrollTarget : R;
  activeIndex : Z;
  isPinching : bool;
  lastPinchTime : Z
}.
End GalleryState.

(** One entry of [meshStates]. *)
Record MeshState : Type := mkMeshState {
  scale : R;
  zOffset : R
}.

(** The transform and the hover uniform of one carousel mesh. *)
Record Mesh : Type := mkMesh {
  position_x : R;
  position_z : R;
  rotation_y : R;
  mesh_scale : R;
  uHover : R
}.

Record Scene : Type := mkScene {
  rotation_x : R;
  rotation_z : R
}.

Record Ring : Type := mkRing {
  uTime : R;
  uSpeed : R;
  ring_rotation_z : R
}.

(** Everything [update] mutates.  A mesh is identified by its position in
    [meshes] (the order in which [items.forEach] pushed it). *)
Record World : Type := mkWorld {
  galleryState : GalleryState.t;
  meshStates : list MeshState;
  meshes : list Mesh;
  scene : Scene;
  ring : Ring
}.

(** What one animation frame reads from outside: the [requestAnimationFrame]
    timestamp, the cursor sample in [cursorRef.current], [Date.now()], and
    the meshes [raycast.intersectBounds] reports, nearest first. *)
Record Frame : Type := mkFrame {
  t : R;
  cursor : HandCursor.t;
  now : Z;
  hits : list nat
}.

(** What one frame sends out: the argument of [onItemSelect] when it is
    called, whether [playSelectSound] ran, and the argument of
    [updateDrone]. *)
Record Effects : Type := mkEffects {
  onItemSelect : option Z;
  playSelectSound : bool;
  updateDrone : R
}.

(** ** [update], section by section *)

Definition isDetailOpen (selectedIndex : option Z) : bool :=
  match selectedIndex with Some _ => true | None => false end.

(** 1. Scrolling: the speed read from the cursor. *)
Definition targetSpeed (selectedIndex : option Z) (c : HandCursor.t) : R :=
  if negb (isDetailOpen selectedIndex) && HandCursor.isVisible c then
    let x := HandCursor.x c in
    let deadZone := 0.15 in
    let center := 0.5 in
    if x >? center + deadZone then
      let normalized := (x - (center + deadZone)) / (0.5 - deadZone) in
      Math_pow normalized 0.6 * 0.2
    else if x <? center - deadZone then
      let normalized := ((center - deadZone) - x) / (0.5 - deadZone) in
      (- Math_pow normalized 0.6) * 0.2
    else 0
  else 0.

Definition scroll_logic (selectedIndex : option Z) (c : HandCursor.t)
  (scrollTarget : R) : R :=
  if negb (isDetailOpen selectedIndex) && HandCursor.isVisible c then
    scrollTarget + targetSpeed selectedIndex c
  else scrollTarget.

(** 2. Tilt and roll of the scene. *)
Definition tilt_logic (c : HandCursor.t) (s : Scene) : Scene :=
  if HandCursor.isVisible c then
    let targetRotationX := (HandCursor.y c - 0.5) * 1.5 in
    let targetRotationZ := (HandCursor.x c - 0.5) * (-0.5) in
    {| rotation_x := lerp (rotation_x s) targetRotationX 0.05;
       rotation_z := lerp (rotation_z s) targetRotationZ 0.05 |}
  else
    {| rotation_x := lerp (rotation_x s) 0 0.05;
       rotation_z := lerp (rotation_z s) 0 0.05 |}.

(** 4. Raycast hover. *)
Definition hoveredIndex (selectedIndex : option Z) (c : HandCursor.t)
  (meshCount : nat) (hits : list nat) : Z :=
  if HandCursor.isVisible c && negb (isDetailOpen selectedIndex)
     && negb (HandCursor.isPinching c) then
    match hits with
    | h :: _ => indexOf (seq 0 meshCount) h
    | [] => (-1)%Z
    end
  else (-1)%Z.

(** 5. Pinch. *)
Definition isInPinchableArea (c : HandCursor.t) : bool :=
  (HandCursor.x c >? 0.2) && (HandCursor.x c <? 0.8)
  && (HandCursor.y c >? 0.2) && (HandCursor.y c <? 0.8).

Definition actionable (c : HandCursor.t) : bool :=
  HandCursor.isVisible c && isInPinchableArea c && HandCursor.isPinching c.

Definition targetIndex (hovered active : Z) : Z :=
  if negb (hovered =? -1)%Z then hovered else active.

(** The rising edge of the pinch signal: the pinch is actionable in this
    frame and the pinch-held flag left by the previous frame is false. *)
Definition rising_edge (c : HandCursor.t) (g : GalleryState.t) : bool :=
  actionable c && negb (GalleryState.isPinching g).

Definition pinch_logic (c : HandCursor.t) (now : Z) (hovered : Z)
  (g : GalleryState.t) : bool * Z * option Z :=
  if actionable c then
    if negb (GalleryState.isPinching g)
       && (now - GalleryState.lastPinchTime g >? 1000)%Z then
      (true, now, Some (targetIndex hovered (GalleryState.activeIndex g)))
    else (true, GalleryState.lastPinchTime g, None)
  else (false, GalleryState.lastPinchTime g, None).

(** The body of [meshes.forEach], for the mesh at index [i]. *)
Definition place (angleStep : R) (selectedIndex : option Z) (hovered : Z)
  (scrollCurrent : R) (i : nat) (mesh : Mesh) (mState : MeshState)
  (active : Z) : Mesh * MeshState * Z :=
  let isSelected :=
    match selectedIndex with Some s => (s =? Z.of_nat i)%Z | None => false end in
  let isAnySelected := isDetailOpen selectedIndex in
  let isHovered := (Z.of_nat i =? hovered)%Z in
  let targetScale :=
    if isSelected then 1.3 else if isAnySelected then 0.8
    else if isHovered then 1.15 else 1.0 in
  let targetZOffset :=
    if isSelected then 2.5 else if isAnySelected then -1.0
    else if isHovered then 0.5 else 0 in
  let scale' := lerp (scale mState) targetScale 0.1 in
  let zOffset' := lerp (zOffset mState) targetZOffset 0.1 in
  let targetHoverVal := if isHovered then 1.0 else 0.0 in
  let uHover' := lerp (uHover mesh) targetHoverVal 0.1 in
  let radius := 6 in
  let angle := (INR i * angleStep) - scrollCurrent in
  let active' :=
    if negb (isDetailOpen selectedIndex) then
      let normalizedAngle := Math_atan2 (Math_sin angle) (Math_cos angle) in
      if Math_abs normalizedAngle <? angleStep / 2 then Z.of_nat i else active
    else active in
  ({| position_x := Math_sin angle * radius;
      position_z := (Math_cos angle * radius - radius) + zOffset';
      rotation_y := angle;
      mesh_scale := scale';
      uHover := uHover' |},
   {| scale := scale'; zOffset := zOffset' |},
   active').

(** [meshes.forEach]: the meshes and [meshStates] are walked in step from
    index [i].  A mesh without its entry in [meshStates] makes
    [mState.scale] a read of [undefined], which throws: [None].  The body
    is the first reader of [angleStep]; its arithmetic is modelled on a
    finite angle step only, so a non-finite one reaching it is [None] too. *)
Fixpoint forEach (angleStep : num) (selectedIndex : option Z) (hovered : Z)
  (scrollCurrent : R) (i : nat) (ms : list Mesh) (sts : list MeshState)
  (active : Z) : option (list Mesh * list MeshState * Z) :=
  match ms with
  | [] => Some ([], sts, active)
  | mesh :: ms' =>
    match sts, angleStep with
    | mState :: sts', Finite step =>
      let '(mesh', mState', active') :=
        place step selectedIndex hovered scrollCurrent i mesh mState active in
      match forEach angleStep selectedIndex hovered scrollCurrent (S i) ms' sts' active' with
      | Some (ms'', sts'', a) => Some (mesh' :: ms'', mState' :: sts'', a)
      | None => None
      end
    | _, _ => None
    end
  end.

(** [const angleStep = (Math.PI * 2) / count], computed once when the
    effect runs. *)
Definition angleStep (count : nat) : num := js_div (Math_PI * 2) (INR count).

(** One animation frame.  [count] is [items.length] and [selectedIndex] the
    prop, both captured by the closure. *)
Definition update (count : nat) (selectedIndex : option Z) (f : Frame)
  (w : World) : option (World * Effects) :=
  let g := galleryState w in
  let c := cursor f in
  let timeSeconds := t f * 0.001 in
  let speed := targetSpeed selectedIndex c in
  let scrollTarget' := scroll_logic selectedIndex c (GalleryState.scrollTarget g) in
  let scene' := tilt_logic c (scene w) in
  let hovered := hoveredIndex selectedIndex c (length (meshes w)) (hits f) in
  let '(isPinching', lastPinchTime', selected) := pinch_logic c (now f) hovered g in
  let ring' :=
    {| uTime := timeSeconds;
       uSpeed := speed;
       ring_rotation_z := ring_rotation_z (ring w) - speed * 0.5 |} in
  let scrollCurrent' :=
    lerp (GalleryState.scrollCurrent g) scrollTarget' 0.1 in
  match forEach (angleStep count) selectedIndex hovered scrollCurrent' 0
          (meshes w) (meshStates w) (GalleryState.activeIndex g) with
  | Some (meshes', meshStates', activeIndex') =>
    Some ({| galleryState :=
               {| GalleryState.scrollCurrent := scrollCurrent';
                  GalleryState.scrollTarget := scrollTarget';
                  GalleryState.activeIndex := activeIndex';
                  GalleryState.isPinching := isPinching';
                  GalleryState.lastPinchTime := lastPinchTime' |};
             meshStates := meshStates';
             meshes := meshes';
             scene := scene';
             ring := ring' |},
          {| onItemSelect := selected;
             playSelectSound :=
               match selected with Some _ => true | None => false end;
             updateDrone := speed |})
  | None => None
  end.

(** ** The component around [update] *)

(** The state of a mounted [CircularGallery]: the props the running effect
    captured, and the mutable objects. *)
Record Gallery : Type := mkGallery {
  count : nat;
  selectedIndex : option Z;
  world : World
}.

Definition fresh_mesh : Mesh :=
  {| position_x := 0; position_z := 0; rotation_y := 0; mesh_scale := 1;
     uHover := 0 |}.

Definition fresh_meshState : MeshState := {| scale := 1; zOffset := 0 |}.

(** What the main effect builds each time it runs. *)
Definition setup (n : nat) (g : GalleryState.t) (sts : list MeshState) : World :=
  {| galleryState := g;
     meshStates := sts;
     meshes := repeat fresh_mesh n;
     scene := {| rotation_x := 0; rotation_z := 0 |};
     ring := {| uTime := 0; uSpeed := 0; ring_rotation_z := 0 |} |}.

(** First render with [n] items. *)
Definition mount (n : nat) (sel : option Z) : Gallery :=
  {| count := n;
     selectedIndex := sel;
     world :=
       setup n
         {| GalleryState.scrollCurrent := 0;
            GalleryState.scrollTarget := 0;
            GalleryState.activeIndex := 0;
            GalleryState.isPinching := false;
            GalleryState.lastPinchTime := 0 |}
         (repeat fresh_meshState n) |}.

(** The effect on [[items]]: "Reset mesh states when items change". *)
Definition reset_items (g : GalleryState.t) : GalleryState.t :=
  {| GalleryState.scrollCurrent := 0;
     GalleryState.scrollTarget := 0;
     GalleryState.activeIndex := GalleryState.activeIndex g;
     GalleryState.isPinching := GalleryState.isPinching g;
     GalleryState.lastPinchTime := GalleryState.lastPinchTime g |}.

Inductive Event : Type :=
| Tick (f : Frame)
| SetSelected (sel : option Z)
| SetItems (n : nat).

Definition step (e : Event) (s : Gallery) : option (Gallery * option Effects) :=
  match e with
  | Tick f =>
    match update (count s) (selectedIndex s) f (world s) with
    | Some (w, eff) =>
      Some ({| count := count s; selectedIndex := selectedIndex s; world := w |},
            Some eff)
    | None => None
    end
  | SetSelected sel =>
    Some ({| count := count s;
             selectedIndex := sel;
             world := setup (count s) (galleryState (world s))
                        (meshStates (world s)) |},
          None)
  | SetItems n =>
    Some ({| count := n;
             selectedIndex := selectedIndex s;
             world := setup n (reset_items (galleryState (world s)))
                        (repeat fresh_meshState n) |},
          None)
  end.

(** One line of the pinch log: was the frame a rising edge, what was
    passed to [onItemSelect], and when. *)
Record Obs : Type := mkObs {
  edge : bool;
  fired : option Z;
  at_ms : Z
}.

Definition observe (e : Event) (s : Gallery) (eff : option Effects) : list Obs :=
  match e, eff with
  | Tick f, Some eff =>
    [ {| edge := rising_edge (cursor f) (galleryState (world s));
         fired := onItemSelect eff;
         at_ms := now f |} ]
  | _, _ => []
  end.

Fixpoint run (evs : list Event) (s : Gallery) : option (Gallery * list Obs) :=
  match evs with
  | [] => Some (s, [])
  | e :: evs' =>
    match step e s with
    | Some (s', eff) =>
      match run evs' s' with
      | Some (s'', log) => Some (s'', observe e s eff ++ log)
      | None => None
      end
    | None => None
    end
  end.

(** Meshes and mesh states hold one entry per item. *)
Definition wf (s : Gallery) : Prop :=
  length (meshes (world s)) = count s /\ length (meshStates (world s)) = count s.

Definition is_fired (o : Obs) : bool :=
  match fired o with Some _ => true | None => false end.


(** ** [src/App.tsx]: selection toggle and swipe-to-close *)

Module App.

(** [selectedItemIndex] with the two refs of the swipe detector. *)
Record t : Type := mk {
  selectedItemIndex : option Z;
  lastYRef : R;
  swipeCooldownRef : Z
}.

Definition init : t :=
  {| selectedItemIndex := None; lastYRef := 0; swipeCooldownRef := 0 |}.

(** [handleItemSelect]: the updater passed to [setSelectedItemIndex]. *)
Definition handleItemSelect (index : Z) (prev : option Z) : option Z :=
  match prev with
  | Some _ => None
  | None => Some index
  end.

(** The condition under which the swipe effect calls
    [setSelectedItemIndex(null)]. *)
Definition swipe_fires (c : HandCursor.t) (now : Z) (s : t) : bool :=
  match selectedItemIndex s with
  | Some _ =>
    HandCursor.isVisible c
    && (let deltaY := HandCursor.y c - lastYRef s in
        (deltaY >? 0.03) && (now - swipeCooldownRef s >? 800)%Z)
  | None => false
  end.

(** One run of the swipe effect, on a new cursor sample. *)
Definition swipe_effect (c : HandCursor.t) (now : Z) (s : t) : t * bool :=
  let fire := swipe_fires c now s in
  ({| selectedItemIndex := if fire then None else selectedItemIndex s;
      lastYRef := HandCursor.y c;
      swipeCooldownRef := if fire then now else swipeCooldownRef s |},
   fire).

(** The effect over a sequence of samples; the result lists, per sample,
    whether a close request was made. *)
Fixpoint swipe_run (samples : list (HandCursor.t * Z)) (s : t) : t * list bool :=
  match samples with
  | [] => (s, [])
  | (c, now) :: rest =>
    let '(s', b) := swipe_effect c now s in
    let '(s'', bs) := swipe_run rest s' in
    (s'', b :: bs)
  end.

End App.

(** * Vocabulary of the properties *)

(** The condition under which section 5 of [update] calls [onItemSelect]. *)
Definition fire_cond (c : HandCursor.t) (now : Z) (g : GalleryState.t) : bool :=
  rising_edge c g && (now - GalleryState.lastPinchTime g >? 1000)%Z.

(** A log agrees with the trigger rule when every line fired exactly if it
    was a rising edge more than 1000 ms after the fire before it ([last]
    is the time of that fire). *)
Fixpoint consistent (last : Z) (log : list Obs) : Prop :=
  match log with
  | [] => True
  | o :: log' =>
    is_fired o = edge o && (at_ms o - last >? 1000)%Z
    /\ consistent (if is_fired o then at_ms o else last) log'
  end.


(** A pinching and a released cursor at the centre of the screen. *)
Definition pinch_at_centre : HandCursor.t :=
  {| HandCursor.x := 0.5; HandCursor.y := 0.5;
     HandCursor.isPinching := true; HandCursor.isVisible := true |}.

Definition open_at_centre : HandCursor.t :=
  {| HandCursor.x := 0.5; HandCursor.y := 0.5;
     HandCursor.isPinching := false; HandCursor.isVisible := true |}.

Definition frame_at (c : HandCursor.t) (ms : Z) : Frame :=
  {| t := 0; cursor := c; now := ms; hits := [] |}.

(** A ten-item world at rest whose active index is 3. *)
Definition world_active_3 : World :=
  setup 10
    {| GalleryState.scrollCurrent := 0;
       GalleryState.scrollTarget := 0;
       GalleryState.activeIndex := 3;
       GalleryState.isPinching := false;
       GalleryState.lastPinchTime := 0 |}
    (repeat fresh_meshState 10).

(** The sign of a number, as the specification's formula uses it. *)
Definition sign (r : R) : R :=
  if 0 <? r then 1 else if r <? 0 then -1 else 0.

(** The cursor of the specification's scrolling scenario. *)
Definition cursor_09 : HandCursor.t :=
  {| HandCursor.x := 0.9; HandCursor.y := 0.5;
     HandCursor.isPinching := false; HandCursor.isVisible := true |}.

(** [n] smoothing steps toward a target that does not move. *)
Fixpoint smooth (n : nat) (v t alpha : R) : R :=
  match n with
  | O => v
  | S n' => smooth n' (lerp v t alpha) t alpha
  end.

(** The targets a frame smooths toward.  Tilt and roll follow the cursor
    and return to 0 without a hand. *)
Definition targetRotationX (c : HandCursor.t) : R :=
  if HandCursor.isVisible c then (HandCursor.y c - 0.5) * 1.5 else 0.

Definition targetRotationZ (c : HandCursor.t) : R :=
  if HandCursor.isVisible c then (HandCursor.x c - 0.5) * (-0.5) else 0.

(** Scale and depth offset of item [i], in priority order: the selected
    item, any other item while one is selected, the hovered item, an item
    at rest. *)
Definition targetScale (selectedIndex : option Z) (hovered : Z) (i : nat) : R :=
  match selectedIndex with
  | Some s => if (s =? Z.of_nat i)%Z then 1.3 else 0.8
  | None => if (Z.of_nat i =? hovered)%Z then 1.15 else 1.0
  end.

Definition targetZOffset (selectedIndex : option Z) (hovered : Z) (i : nat) : R :=
  match selectedIndex with
  | Some s => if (s =? Z.of_nat i)%Z then 2.5 else -1.0
  | None => if (Z.of_nat i =? hovered)%Z then 0.5 else 0
  end.

(** The hover glow of item [i]. *)
Definition targetHoverVal (hovered : Z) (i : nat) : R :=
  if (Z.of_nat i =? hovered)%Z then 1.0 else 0.0.

(** ** The smoothing step in double precision *)

(** [v += (t - v) * alpha] as the program computes it: every operation
    rounded to the nearest binary64 number. *)
Module Binary64.

#[local] Set Warnings "-inexact-float".

Definition lerp (v t alpha : float) : float :=
  PrimFloat.add v (PrimFloat.mul (PrimFloat.sub t v) alpha).

Fixpoint smooth (n : nat) (v t alpha : float) : float :=
  match n with
  | O => v
  | S n' => smooth n' (lerp v t alpha) t alpha
  end.

(** The scale of an item at rest, the target scale of the selected item
    and the damping factor, as the literals [1.0], [1.3] and [0.1] are
    read: the nearest binary64 numbers, [0x1.4cccccccccccdp+0] for 1.3 and
    [0x1.999999999999ap-4] for 0.1. *)
Definition rest_scale : float := 1.0%float.
Definition selected_scale : float := 1.3%float.
Definition damping : float := 0.1%float.

(** [Number.EPSILON], the gap between 1 and the next number: one unit in
    the last place of every number in [1, 2). *)
Definition epsilon : float := 0x1p-52%float.

(** The scale of an item [n] frames after it was selected at rest. *)
Definition scale_after (n : nat) : float :=
  smooth n rest_scale selected_scale damping.

(** The distance left to the target. *)
Definition gap (v : float) : float := PrimFloat.sub selected_scale v.

(** Whether a step from [v] to [v'] neither moves away from the target
    [t] nor passes it. *)
Definition rises_to (t v v' : float) : bool :=
  PrimFloat.leb v v' && PrimFloat.leb v' t.

(** Whether each of the steps 0 to [n] from [v] satisfies [P]. *)
Fixpoint every_step (P : float -> float -> bool) (n : nat) (v t alpha : float)
  : bool :=
  P v (lerp v t alpha)
  && match n with
     | O => true
     | S n' => every_step P n' (lerp v t alpha) t alpha
     end.

End Binary64.

(** The specification's swipe scenario: detail open on item 2, the cursor
    last seen at height 0.5, no close request before. *)
Definition detail_open : App.t :=
  {| App.selectedItemIndex := Some 2%Z; App.lastYRef := 0.5;
     App.swipeCooldownRef := 0 |}.

Definition cursor_y (y : R) : HandCursor.t :=
  {| HandCursor.x := 0.5; HandCursor.y := y;
     HandCursor.isPinching := false; HandCursor.isVisible := true |}.

(** ** The swipe detector over a session *)

Module SwipeSession.

(** What happens to the detector between two renders: its effect runs on
    the cursor of the render, at [Date.now() = now]; or [selectedItemIndex]
    is set from elsewhere ([handleItemSelect], [handleFileUpload]). *)
Inductive Step : Type :=
| Render (c : HandCursor.t) (now : Z)
| Select (sel : option Z).

(** One line of the swipe log: whether the detail view was open, the cursor
    visible and lower than the stored Y by more than 0.03 when the effect
    ran; whether it asked to close; and when. *)
Record Line : Type := mkLine {
  armed : bool;
  closed : bool;
  at_ms : Z
}.

Definition armed_at (c : HandCursor.t) (s : App.t) : bool :=
  isDetailOpen (App.selectedItemIndex s) && HandCursor.isVisible c
  && (HandCursor.y c - App.lastYRef s >? 0.03).

Fixpoint run (steps : list Step) (s : App.t) : App.t * list Line :=
  match steps with
  | [] => (s, [])
  | Render c now :: rest =>
    let '(s', b) := App.swipe_effect c now s in
    let '(s'', log) := run rest s' in
    (s'', {| armed := armed_at c s; closed := b; at_ms := now |} :: log)
  | Select sel :: rest =>
    run rest {| App.selectedItemIndex := sel;
                App.lastYRef := App.lastYRef s;
                App.swipeCooldownRef := App.swipeCooldownRef s |}
  end.

(** A log agrees with the cooldown rule when every line asked to close
    exactly if it was armed more than 800 ms after the request before it
    ([last] is the time of that request). *)
Fixpoint consistent (last : Z) (log : list Line) : Prop :=
  match log with
  | [] => True
  | l :: log' =>
    closed l = armed l && (at_ms l - last >? 800)%Z
    /\ consistent (if closed l then at_ms l else last) log'
  end.

(** The time of the last close request of a log, [last] when there is
    none. *)
Definition last_close (last : Z) (log : list Line) : Z :=
  fold_left (fun t l => if closed l then at_ms l else t) log last.

End SwipeSession.

Definition normalizedAngle (a : R) : R :=
  Math_atan2 (Math_sin a) (Math_cos a).

(** The test of [place] that makes item [i] the active one. *)
Definition hit (step sc : R) (i : nat) : bool :=
  Math_abs (normalizedAngle (INR i * step - sc)) <? step / 2.

(** The active index after the items [i0 .. i0 + len - 1] were visited
    with no detail view open: the last one that passes the test, [a] when
    none does. *)
Fixpoint scan (step sc : R) (i0 len : nat) (a : Z) : Z :=
  match len with
  | O => a
  | S len' => scan step sc (S i0) len' (if hit step sc i0 then Z.of_nat i0 else a)
  end.

(** A frame with no hand in view. *)
Definition hidden_cursor : HandCursor.t :=
  {| HandCursor.x := 0.5; HandCursor.y := 0.5;
     HandCursor.isPinching := false; HandCursor.isVisible := false |}.

(** An eight-item world whose scroll position puts items 0 and 1 exactly
    half a step either side of the front, with an arbitrary active index
    left by earlier frames. *)
Definition world_on_boundary (a : Z) : World :=
  setup 8
    {| GalleryState.scrollCurrent := PI / 8;
       GalleryState.scrollTarget := PI / 8;
       GalleryState.activeIndex := a;
       GalleryState.isPinching := false;
       GalleryState.lastPinchTime := 0 |}
    (repeat fresh_meshState 8).

Definition valid_activeIndex (s : Gallery) : Prop :=
  (0 <= GalleryState.activeIndex (galleryState (world s)) < Z.of_nat (count s))%Z.

(** The hand held at the left edge of the screen: full speed to the left. *)
Definition cursor_left_edge : HandCursor.t :=
  {| HandCursor.x := 0; HandCursor.y := 0.5;
     HandCursor.isPinching := false; HandCursor.isVisible := true |}.

(** Scroll position and target after [n] frames at full speed to the
    left. *)
Fixpoint scroll_left (n : nat) (c tg : R) : R * R :=
  match n with
  | O => (c, tg)
  | S n' => let tg' := tg + -0.2 in scroll_left n' (lerp c tg' 0.1) tg'
  end.

(** * The code around the engine *)

(** ** [AudioManager] ([src/components/CircularGallery.tsx]) *)

Module AudioManager.

(** Which of [ctx], [osc] and [gain] are non-null, and the
    [isInitialized] flag. *)
Record t : Type := mk {
  ctx : bool;
  osc : bool;
  gain : bool;
  isInitialized : bool
}.

Definition fresh : t :=
  {| ctx := false; osc := false; gain := false; isInitialized := false |}.

(** Where the [try] block of [init] throws, if it does: in the
    [AudioContext] constructor, in [createOscillator], in [createGain], or
    in one of the statements between [createGain] and
    [this.isInitialized = true]. *)
Inductive Throws : Type :=
| Nowhere
| InConstructor
| InCreateOscillator
| InCreateGain
| AfterCreateGain.

Definition init (th : Throws) (a : t) : t :=
  if isInitialized a then a
  else
    match th with
    | InConstructor => a
    | InCreateOscillator =>
      {| ctx := true; osc := osc a; gain := gain a; isInitialized := false |}
    | InCreateGain =>
      {| ctx := true; osc := true; gain := gain a; isInitialized := false |}
    | AfterCreateGain =>
      {| ctx := true; osc := true; gain := true; isInitialized := false |}
    | Nowhere =>
      {| ctx := true; osc := true; gain := true; isInitialized := true |}
    end.

(** [updateDrone]: the targets handed to [setTargetAtTime] for the
    frequency and the gain, [None] when it returns early. *)
Definition updateDrone (speed : R) (a : t) : option (R * R) :=
  if negb (ctx a) || negb (osc a) || negb (gain a) then None
  else
    let absSpeed := Math_abs speed in
    let targetFreq := 60 + absSpeed * 2000 in
    let targetGain := 0.02 + absSpeed * 0.15 in
    Some (targetFreq, targetGain).

(** [playSelectSound]: whether the chirp is started. *)
Definition playSelectSound (a : t) : bool := ctx a.

End AudioManager.

(** ** [useHandTracking]: from landmarks to the cursor *)

Module Tracker.

Record Landmark : Type := mk {
  x : R;
  y : R
}.

(** The initial [cursor] state. *)
Definition initial : HandCursor.t :=
  {| HandCursor.x := 0.5; HandCursor.y := 0.5;
     HandCursor.isPinching := false; HandCursor.isVisible := false |}.

Definition Math_hypot (a b : R) : R := sqrt (a * a + b * b).

(** The cursor [predictWebcam] publishes for one detection result.
    [landmarks] is [detections.landmarks]: one list of landmarks per hand.
    A first hand without landmark 8 or 4 makes [indexTip.x] or
    [thumbTip.x] a read of [undefined], which throws: [None]. *)
Definition predictWebcam (landmarks : list (list Landmark))
  (prev : HandCursor.t) : option HandCursor.t :=
  match landmarks with
  | hand :: _ =>
    match nth_error hand 8, nth_error hand 4 with
    | Some indexTip, Some thumbTip =>
      let distance :=
        Math_hypot (x indexTip - x thumbTip) (y indexTip - y thumbTip) in
      let isPinching := distance <? 0.08 in
      Some {| HandCursor.x := 1.0 - x indexTip;
              HandCursor.y := y indexTip;
              HandCursor.isPinching := isPinching;
              HandCursor.isVisible := true |}
    | _, _ => None
    end
  | [] =>
    Some {| HandCursor.x := HandCursor.x prev;
            HandCursor.y := HandCursor.y prev;
            HandCursor.isPinching := HandCursor.isPinching prev;
            HandCursor.isVisible := false |}
  end.

End Tracker.

(** ** [src/components/HandCursor.tsx]: the cursor overlay *)

Module CursorOverlay.

(** What is rendered: the translation in pixels, the pinched style, and
    the two scroll labels. *)
Record t : Type := mk {
  translate_x : R;
  translate_y : R;
  pinched : bool;
  scrollLeftLabel : bool;
  scrollRightLabel : bool
}.

Definition render (cursor : HandCursor.t) (innerWidth innerHeight : R)
  : option t :=
  if negb (HandCursor.isVisible cursor) then None
  else
    Some {| translate_x := HandCursor.x cursor * innerWidth;
            translate_y := HandCursor.y cursor * innerHeight;
            pinched := HandCursor.isPinching cursor;
            scrollLeftLabel := HandCursor.x cursor <? 0.4;
            scrollRightLabel := HandCursor.x cursor >? 0.6 |}.

End CursorOverlay.

(** ** [src/components/DetailCard.tsx] *)

(** The card is rendered when [isOpen && item] is truthy. *)
Definition DetailCard_shown {A : Type} (isOpen : bool) (item : option A) : bool :=
  isOpen && match item with Some _ => true | None => false end.

(** ** [App]: the components wired together *)

Module Shell.

(** [items.length], the [cursor] state of [useHandTracking], the selection
    with the swipe refs, and the mounted gallery. *)
Record t : Type := mk {
  items : nat;
  cursorState : HandCursor.t;
  ui : App.t;
  gallery : Gallery
}.

(** [items[selectedItemIndex]], an item being named by its index:
    [undefined] outside the array. *)
Definition item_of (n : nat) (sel : option Z) : option nat :=
  match sel with
  | Some i =>
    if (0 <=? i)%Z && (i <? Z.of_nat n)%Z then Some (Z.to_nat i) else None
  | None => None
  end.

(** Whether [DetailCard] shows a card, with the props [App] passes. *)
Definition detail_visible (s : t) : bool :=
  DetailCard_shown (isDetailOpen (App.selectedItemIndex (ui s)))
    (item_of (items s) (App.selectedItemIndex (ui s))).

Definition same_selection (a b : option Z) : bool :=
  match a, b with
  | Some i, Some j => (i =? j)%Z
  | None, None => true
  | _, _ => false
  end.

(** The gallery after its [selectedIndex] prop changed. *)
Definition set_selected (sel : option Z) (g : Gallery) : Gallery :=
  match step (SetSelected sel) g with
  | Some (g', _) => g'
  | None => g
  end.

(** [setSelectedItemIndex] took effect with [sel]: nothing happens when
    the value is the one already held; otherwise the gallery gets the new
    prop and the swipe effect runs again on the current cursor, at time
    [later]. *)
Definition select (sel : option Z) (later : Z) (s : t) : t :=
  if same_selection sel (App.selectedItemIndex (ui s)) then s
  else
    let ui1 :=
      {| App.selectedItemIndex := sel;
         App.lastYRef := App.lastYRef (ui s);
         App.swipeCooldownRef := App.swipeCooldownRef (ui s) |} in
    let '(ui2, fire) := App.swipe_effect (cursorState s) later ui1 in
    let g1 := set_selected sel (gallery s) in
    {| items := items s;
       cursorState := cursorState s;
       ui := ui2;
       gallery := if fire then set_selected None g1 else g1 |}.

(** What reaches [App]: an animation frame of the gallery, a new cursor
    state from the tracker, or a file upload; [later] is [Date.now()] when
    the swipe effect runs again after a change of the selection. *)
Inductive Input : Type :=
| AnimationFrame (f : Frame) (later : Z)
| CursorChange (c : HandCursor.t) (now : Z) (later : Z)
| FileUpload (files : nat) (later : Z).

Definition react (i : Input) (s : t) : option t :=
  match i with
  | AnimationFrame f later =>
    match step (Tick f) (gallery s) with
    | Some (g', eff) =>
      let s1 :=
        {| items := items s; cursorState := cursorState s; ui := ui s;
           gallery := g' |} in
      match eff with
      | Some {| onItemSelect := Some k |} =>
        Some (select (App.handleItemSelect k (App.selectedItemIndex (ui s)))
                later s1)
      | _ => Some s1
      end
    | None => None
    end
  | CursorChange c now later =>
    let '(ui1, fire) := App.swipe_effect c now (ui s) in
    if fire then
      Some {| items := items s;
              cursorState := c;
              ui := fst (App.swipe_effect c later ui1);
              gallery := set_selected None (gallery s) |}
    else
      Some {| items := items s; cursorState := c; ui := ui1;
              gallery := gallery s |}
  | FileUpload files later =>
    if (0 <? files)%nat then
      match step (SetItems files) (gallery s) with
      | Some (g', _) =>
        Some (select None later
                {| items := files; cursorState := cursorState s; ui := ui s;
                   gallery := g' |})
      | None => None
      end
    else Some s
  end.

Fixpoint run (ins : list Input) (s : t) : option t :=
  match ins with
  | [] => Some s
  | i :: ins' =>
    match react i s with
    | Some s' => run ins' s'
    | None => None
    end
  end.

(** The first render: the ten [INITIAL_ITEMS], nothing selected, and the
    swipe effect run once on the initial cursor. *)
Definition init : t :=
  {| items := 10;
     cursorState := Tracker.initial;
     ui := fst (App.swipe_effect Tracker.initial 0 App.init);
     gallery := mount 10 None |}.

End Shell.

(** * Vocabulary of the further properties *)

(** The cursor reflected about the vertical centre line. *)
Definition mirrored (c : HandCursor.t) : HandCursor.t :=
  {| HandCursor.x := 1 - HandCursor.x c;
     HandCursor.y := HandCursor.y c;
     HandCursor.isPinching := HandCursor.isPinching c;
     HandCursor.isVisible := HandCursor.isVisible c |}.

(** The same cursor at another horizontal position. *)
Definition at_x (x : R) (c : HandCursor.t) : HandCursor.t :=
  {| HandCursor.x := x;
     HandCursor.y := HandCursor.y c;
     HandCursor.isPinching := HandCursor.isPinching c;
     HandCursor.isVisible := HandCursor.isVisible c |}.

(** Normalised screen coordinates. *)
Definition in_view (c : HandCursor.t) : Prop :=
  0 <= HandCursor.x c <= 1 /\ 0 <= HandCursor.y c <= 1.

Definition tracked (e : Event) : Prop :=
  match e with
  | Tick f => in_view (cursor f)
  | _ => True
  end.

Definition keeps_items (e : Event) : Prop :=
  match e with
  | SetItems _ => False
  | _ => True
  end.

(** How far the scroll position trails its target. *)
Definition lag (s : Gallery) : R :=
  GalleryState.scrollTarget (galleryState (world s))
  - GalleryState.scrollCurrent (galleryState (world s)).

Definition tilt_bounded (s : Gallery) : Prop :=
  Rabs (rotation_x (scene (world s))) <= 0.75
  /\ Rabs (rotation_z (scene (world s))) <= 0.25.

Definition meshState_bounded (st : MeshState) : Prop :=
  0.8 <= scale st <= 1.3 /\ -1 <= zOffset st <= 2.5.

Definition mesh_bounded (m : Mesh) : Prop :=
  0.8 <= mesh_scale m <= 1.3 /\ 0 <= uHover m <= 1.

Definition items_bounded (s : Gallery) : Prop :=
  Forall meshState_bounded (meshStates (world s))
  /\ Forall mesh_bounded (meshes (world s)).

(** A ten-item world at rest one angle step further along the ring. *)
Definition world_one_step : World :=
  setup 10
    {| GalleryState.scrollCurrent := PI * 2 / INR 10;
       GalleryState.scrollTarget := PI * 2 / INR 10;
       GalleryState.activeIndex := 0;
       GalleryState.isPinching := false;
       GalleryState.lastPinchTime := 0 |}
    (repeat fresh_meshState 10).

(** A hand of 21 landmarks, all at the origin except the index tip (8)
    and the thumb tip (4). *)
Definition hand_with (indexTip thumbTip : Tracker.Landmark)
  : list Tracker.Landmark :=
  let o := {| Tracker.x := 0; Tracker.y := 0 |} in
  [o; o; o; o; thumbTip; o; o; o; indexTip; o; o; o; o; o; o; o; o; o; o; o; o].

Definition shell_selection (s : Shell.t) : option Z :=
  App.selectedItemIndex (Shell.ui s).

(** What every reachable state of the wired application satisfies. *)
Definition shell_ok (s : Shell.t) : Prop :=
  (1 <= Shell.items s)%nat
  /\ count (Shell.gallery s) = Shell.items s
  /\ selectedIndex (Shell.gallery s) = shell_selection s
  /\ wf (Shell.gallery s)
  /\ App.lastYRef (Shell.ui s) = HandCursor.y (Shell.cursorState s).

Definition keeps_files (i : Shell.Input) : Prop :=
  match i with
  | Shell.FileUpload _ _ => False
  | _ => True
  end.

Definition valid_selection (s : Shell.t) : Prop :=
  match shell_selection s with
  | Some i => (0 <= i < Z.of_nat (Shell.items s))%Z
  | None => True
  end.

(** A world whose scroll position and target are both [d] further on. *)
Definition scrolled (d : R) (w : World) : World :=
  {| galleryState :=
       {| GalleryState.scrollCurrent :=
            GalleryState.scrollCurrent (galleryState w) + d;
          GalleryState.scrollTarget :=
            GalleryState.scrollTarget (galleryState w) + d;
          GalleryState.activeIndex := GalleryState.activeIndex (galleryState w);
          GalleryState.isPinching := GalleryState.isPinching (galleryState w);
          GalleryState.lastPinchTime :=
            GalleryState.lastPinchTime (galleryState w) |};
     meshStates := meshStates w;
     meshes := meshes w;
     scene := scene w;
     ring := ring w |}.

(** A mesh facing [d] less, everything else the same. *)
Definition turned (d : R) (m : Mesh) : Mesh :=
  {| position_x := position_x m;
     position_z := position_z m;
     rotation_y := rotation_y m - d;
     mesh_scale := mesh_scale m;
     uHover := uHover m |}.

(** The world [w] scrolled on by [d] with every mesh facing [d] less. *)
Definition turn_world (d : R) (w : World) : World :=
  {| galleryState := galleryState (scrolled d w);
     meshStates := meshStates w;
     meshes := map (turned d) (meshes w);
     scene := scene w;
     ring := ring w |}.

(** * Properties *)

(** ** Comparisons on concrete numbers *)

Lemma Rgtb_true (a b : R) : b < a -> (a >? b) = true.
Proof. intros H. unfold Rgtb. destruct (Rlt_dec b a); [reflexivity | contradiction]. Qed.

Lemma Rgtb_false (a b : R) : a <= b -> (a >? b) = false.
Proof. intros H. unfold Rgtb. destruct (Rlt_dec b a); [lra | reflexivity]. Qed.

Lemma Rltb_true (a b : R) : a < b -> (a <? b) = true.
Proof. intros H. unfold Rltb. destruct (Rlt_dec a b); [reflexivity | contradiction]. Qed.

Lemma Rltb_false (a b : R) : b <= a -> (a <? b) = false.
Proof. intros H. unfold Rltb. destruct (Rlt_dec a b); [lra | reflexivity]. Qed.

Lemma Rgtb_spec (a b : R) : (a >? b) = true <-> b < a.
Proof. unfold Rgtb. destruct (Rlt_dec b a); split; intros; auto; discriminate. Qed.

Lemma Rltb_spec (a b : R) : (a <? b) = true <-> a < b.
Proof. unfold Rltb. destruct (Rlt_dec a b); split; intros; auto; discriminate. Qed.

(** ** The frame always completes on a well-formed component *)

Lemma angleStep_pos (n : nat) :
  (0 < n)%nat -> angleStep n = Finite (PI * 2 / INR n).
Proof.
  intros Hn. unfold angleStep, js_div, Math_PI.
  destruct (Req_dec_T (INR n) 0) as [E | _]; [ | reflexivity].
  apply lt_0_INR in Hn. lra.
Qed.

Lemma angleStep_zero : angleStep 0 = Infinity.
Proof.
  unfold angleStep, js_div, Math_PI. simpl INR.
  destruct (Req_dec_T 0 0) as [_ | N]; [ | contradiction N; reflexivity].
  destruct (Rlt_dec 0 (PI * 2)) as [_ | N]; [reflexivity | ].
  exfalso. apply N. pose proof PI_RGT_0. lra.
Qed.

Lemma forEach_total step sel hov sc :
  forall ms i sts a, length ms = length sts ->
    exists ms' sts' a',
      forEach (Finite step) sel hov sc i ms sts a = Some (ms', sts', a')
      /\ length ms' = length ms /\ length sts' = length sts.
Proof.
  induction ms as [ | m ms IH]; intros i sts a Hlen.
  - exists [], sts, a. simpl. auto.
  - destruct sts as [ | st sts]; [discriminate | ].
    simpl in Hlen. injection Hlen as Hlen.
    cbn [forEach]. destruct (place step sel hov sc i m st a) as [[m' st'] a1].
    destruct (IH (S i) sts a1 Hlen) as (ms' & sts' & a' & E & L1 & L2).
    rewrite E. exists (m' :: ms'), (st' :: sts'), a'. simpl. auto.
Qed.

(** What [update] leaves in the pinch fields and what it reports. *)
Lemma update_pinch n sel f w :
  length (meshes w) = n -> length (meshStates w) = n ->
  exists w' eff,
    update n sel f w = Some (w', eff)
    /\ length (meshes w') = n /\ length (meshStates w') = n
    /\ (GalleryState.isPinching (galleryState w'),
        GalleryState.lastPinchTime (galleryState w'),
        onItemSelect eff)
       = pinch_logic (cursor f) (now f)
           (hoveredIndex sel (cursor f) (length (meshes w)) (hits f))
           (galleryState w).
Proof.
  intros Hm Hs. unfold update.
  destruct (pinch_logic _ _ _ _) as [[p l] o].
  destruct n as [ | n].
  - destruct (meshes w) as [ | m ms]; [ | discriminate].
    eexists; eexists. split; [reflexivity | ]. simpl. auto.
  - rewrite angleStep_pos by lia.
    destruct (forEach_total (PI * 2 / INR (S n)) sel
                (hoveredIndex sel (cursor f) (length (meshes w)) (hits f))
                (lerp (GalleryState.scrollCurrent (galleryState w))
                   (scroll_logic sel (cursor f)
                      (GalleryState.scrollTarget (galleryState w))) 0.1)
                (meshes w) 0%nat (meshStates w)
                (GalleryState.activeIndex (galleryState w)))
      as (ms' & sts' & a' & E & L1 & L2); [congruence | ].
    rewrite E. eexists; eexists. split; [reflexivity | ]. simpl.
    repeat split; congruence.
Qed.

(** ** Pinch: edge trigger and cooldown *)

Lemma pinch_logic_spec c now hov g :
  pinch_logic c now hov g
  = (actionable c,
     if fire_cond c now g then now else GalleryState.lastPinchTime g,
     if fire_cond c now g
     then Some (targetIndex hov (GalleryState.activeIndex g)) else None).
Proof.
  unfold pinch_logic, fire_cond, rising_edge.
  destruct (actionable c); [ | reflexivity].
  destruct (GalleryState.isPinching g); [reflexivity | ].
  cbn [negb andb].
  destruct (now - GalleryState.lastPinchTime g >? 1000)%Z; reflexivity.
Qed.

Lemma step_tick f s :
  wf s ->
  exists s' eff,
    step (Tick f) s = Some (s', Some eff)
    /\ wf s' /\ count s' = count s /\ selectedIndex s' = selectedIndex s
    /\ GalleryState.isPinching (galleryState (world s')) = actionable (cursor f)
    /\ GalleryState.lastPinchTime (galleryState (world s'))
       = (if fire_cond (cursor f) (now f) (galleryState (world s))
          then now f else GalleryState.lastPinchTime (galleryState (world s)))
    /\ onItemSelect eff
       = (if fire_cond (cursor f) (now f) (galleryState (world s))
          then Some (targetIndex
                       (hoveredIndex (selectedIndex s) (cursor f) (count s) (hits f))
                       (GalleryState.activeIndex (galleryState (world s))))
          else None).
Proof.
  intros [Hm Hs].
  destruct (update_pinch (count s) (selectedIndex s) f (world s) Hm Hs)
    as (w' & eff & E & L1 & L2 & P).
  rewrite pinch_logic_spec, Hm in P. injection P as P1 P2 P3.
  exists {| count := count s; selectedIndex := selectedIndex s; world := w' |}, eff.
  unfold step. rewrite E. unfold wf. simpl. auto 10.
Qed.






Lemma actionable_pinch_at_centre : actionable pinch_at_centre = true.
Proof.
  unfold actionable, isInPinchableArea, pinch_at_centre. cbn.
  rewrite !Rgtb_true, !Rltb_true by lra. reflexivity.
Qed.


Lemma wf_mount n sel : wf (mount n sel).
Proof. split; simpl; apply repeat_length. Qed.





(** ** Pinch: which index is reported *)

Lemma indexOf_from_range l v :
  forall i, (0 <= i)%Z -> (-1 <= indexOf_from i l v)%Z.
Proof.
  induction l as [ | a l IH]; intros i Hi; simpl.
  - lia.
  - destruct (Nat.eqb a v); [lia | apply IH; lia].
Qed.

Lemma hoveredIndex_range sel c n hs : (-1 <= hoveredIndex sel c n hs)%Z.
Proof.
  unfold hoveredIndex.
  destruct (HandCursor.isVisible c && negb (isDetailOpen sel)
            && negb (HandCursor.isPinching c)); [ | lia].
  destruct hs as [ | h hs]; [lia | ].
  apply indexOf_from_range. lia.
Qed.

Lemma hoveredIndex_pinching sel c n hs :
  HandCursor.isPinching c = true -> hoveredIndex sel c n hs = (-1)%Z.
Proof.
  intros H. unfold hoveredIndex. rewrite H. cbn [negb].
  rewrite andb_false_r. reflexivity.
Qed.

Lemma fire_cond_pinching c now g :
  fire_cond c now g = true -> HandCursor.isPinching c = true.
Proof.
  unfold fire_cond, rising_edge, actionable. intros H.
  repeat (apply andb_prop in H; destruct H as [H ?]). assumption.
Qed.

Lemma targetIndex_spec h a :
  (-1 <= h)%Z -> targetIndex h a = if (0 <=? h)%Z then h else a.
Proof.
  intros Hh. unfold targetIndex.
  destruct (Z.eqb_spec h (-1)) as [-> | N]; cbn [negb].
  - reflexivity.
  - destruct (Z.leb_spec 0 h); [reflexivity | lia].
Qed.

(** A frame on a well-formed world completes, and its call of
    [onItemSelect] is the one section 5 decides. *)
Lemma update_onItemSelect n sel f w :
  length (meshes w) = n -> length (meshStates w) = n ->
  exists w' eff,
    update n sel f w = Some (w', eff)
    /\ onItemSelect eff
       = (if fire_cond (cursor f) (now f) (galleryState w)
          then Some (targetIndex
                       (hoveredIndex sel (cursor f) (length (meshes w)) (hits f))
                       (GalleryState.activeIndex (galleryState w)))
          else None).
Proof.
  intros Hm Hs.
  destruct (update_pinch n sel f w Hm Hs) as (w' & eff & E & _ & _ & P).
  rewrite pinch_logic_spec in P. injection P as _ _ P.
  exists w', eff. auto.
Qed.

(** C3.  In a frame that calls [onItemSelect], the argument is
    [hoveredIndex] when [hoveredIndex >= 0] and the active index the frame
    started with otherwise; the call happens exactly when the pinch fires.
    So a firing pinch with [hoveredIndex = -1] and [activeIndex = 3]
    reports 3. *)
Theorem select_target_resolution n sel f w :
  length (meshes w) = n -> length (meshStates w) = n ->
  let h := hoveredIndex sel (cursor f) (length (meshes w)) (hits f) in
  let a := GalleryState.activeIndex (galleryState w) in
  exists w' eff,
    update n sel f w = Some (w', eff)
    /\ (-1 <= h)%Z
    /\ onItemSelect eff
       = (if fire_cond (cursor f) (now f) (galleryState w)
          then Some (if (0 <=? h)%Z then h else a)
          else None).
Proof.
  intros Hm Hs h a.
  destruct (update_onItemSelect n sel f w Hm Hs) as (w' & eff & E & O).
  exists w', eff. split; [exact E | ].
  split; [apply hoveredIndex_range | ].
  rewrite O. rewrite targetIndex_spec by apply hoveredIndex_range. reflexivity.
Qed.

Lemma select_target_resolution_witness :
  exists w' eff,
    update 10 None (frame_at pinch_at_centre 5000) world_active_3 = Some (w', eff)
    /\ onItemSelect eff = Some 3%Z.
Proof.
  destruct (select_target_resolution 10 None (frame_at pinch_at_centre 5000)
              world_active_3 eq_refl eq_refl) as (w' & eff & E & _ & O).
  exists w', eff. split; [exact E | ]. rewrite O.
  rewrite hoveredIndex_pinching by reflexivity.
  unfold fire_cond, rising_edge. cbn [frame_at cursor now].
  rewrite actionable_pinch_at_centre. reflexivity.
Defined.

(** C4.  In a frame that calls [onItemSelect] the cursor is pinching, so the
    hover test did not run: [hoveredIndex] is -1 and the argument of the call
    is the active index the frame started with. *)
Theorem fired_frame_has_no_hover n sel f w :
  length (meshes w) = n -> length (meshStates w) = n ->
  exists w' eff,
    update n sel f w = Some (w', eff)
    /\ forall k, onItemSelect eff = Some k ->
         HandCursor.isPinching (cursor f) = true
         /\ hoveredIndex sel (cursor f) (length (meshes w)) (hits f) = (-1)%Z
         /\ k = GalleryState.activeIndex (galleryState w).
Proof.
  intros Hm Hs.
  destruct (update_onItemSelect n sel f w Hm Hs) as (w' & eff & E & O).
  exists w', eff. split; [exact E | ]. intros k Hk.
  rewrite O in Hk.
  destruct (fire_cond (cursor f) (now f) (galleryState w)) eqn:F; [ | discriminate].
  apply fire_cond_pinching in F.
  rewrite (hoveredIndex_pinching _ _ _ _ F) in *.
  repeat split; auto. injection Hk as <-. reflexivity.
Qed.

Lemma fired_frame_has_no_hover_witness :
  exists w' eff,
    update 10 None
      {| t := 0; cursor := pinch_at_centre; now := 5000; hits := [2%nat] |}
      world_active_3 = Some (w', eff)
    /\ forall k, onItemSelect eff = Some k ->
         HandCursor.isPinching pinch_at_centre = true
         /\ hoveredIndex None pinch_at_centre 10 [2%nat] = (-1)%Z
         /\ k = 3%Z.
Proof.
  apply (fired_frame_has_no_hover 10 None
           {| t := 0; cursor := pinch_at_centre; now := 5000; hits := [2%nat] |}
           world_active_3); reflexivity.
Defined.

(** ** Scrolling: the dead zone and the speed curve *)

Lemma targetSpeed_right c :
  HandCursor.isVisible c = true -> 0.65 < HandCursor.x c ->
  targetSpeed None c = Rpower ((HandCursor.x c - 0.65) / 0.35) 0.6 * 0.2.
Proof.
  intros V Hx. unfold targetSpeed. rewrite V. cbn [isDetailOpen negb andb].
  rewrite Rgtb_true by lra.
  unfold Math_pow.
  destruct (Rlt_dec 0 ((HandCursor.x c - (0.5 + 0.15)) / (0.5 - 0.15))) as [_ | N].
  - f_equal. f_equal. lra.
  - exfalso. apply N. apply Rdiv_lt_0_compat; lra.
Qed.

Lemma targetSpeed_left c :
  HandCursor.isVisible c = true -> HandCursor.x c < 0.35 ->
  targetSpeed None c = - Rpower ((0.35 - HandCursor.x c) / 0.35) 0.6 * 0.2.
Proof.
  intros V Hx. unfold targetSpeed. rewrite V. cbn [isDetailOpen negb andb].
  rewrite Rgtb_false, Rltb_true by lra.
  unfold Math_pow.
  destruct (Rlt_dec 0 ((0.5 - 0.15 - HandCursor.x c) / (0.5 - 0.15))) as [_ | N].
  - f_equal. f_equal. f_equal. lra.
  - exfalso. apply N. apply Rdiv_lt_0_compat; lra.
Qed.

Lemma targetSpeed_dead_zone c :
  HandCursor.isVisible c = true -> 0.35 <= HandCursor.x c <= 0.65 ->
  targetSpeed None c = 0.
Proof.
  intros V Hx. unfold targetSpeed. rewrite V. cbn [isDetailOpen negb andb].
  rewrite Rgtb_false, Rltb_false by lra. reflexivity.
Qed.

(** The fifth power of [b ^ 0.6] is the cube of [b]. *)
Lemma Rpower_06_pow5 b : 0 < b -> Rpower b 0.6 ^ 5 = b ^ 3.
Proof.
  intros Hb.
  rewrite <- (Rpower_pow 5) by apply exp_pos.
  rewrite Rpower_mult.
  replace (0.6 * INR 5) with (INR 3) by (simpl; lra).
  apply Rpower_pow. exact Hb.
Qed.

(** [(5/7) ^ 0.6] lies between 0.815 and 0.82. *)
Lemma Rpower_5_7_bounds : 0.815 < Rpower (5 / 7) 0.6 < 0.82.
Proof.
  assert (P : 0 < Rpower (5 / 7) 0.6) by apply exp_pos.
  pose proof (Rpower_06_pow5 (5 / 7) ltac:(lra)) as E.
  split.
  - destruct (Rlt_dec 0.815 (Rpower (5 / 7) 0.6)) as [L | N]; [exact L | exfalso].
    assert (H : Rpower (5 / 7) 0.6 ^ 5 <= 0.815 ^ 5) by (apply pow_incr; lra).
    rewrite E in H. simpl in H. lra.
  - destruct (Rlt_dec (Rpower (5 / 7) 0.6) 0.82) as [L | N]; [exact L | exfalso].
    assert (H : 0.82 ^ 5 <= Rpower (5 / 7) 0.6 ^ 5) by (apply pow_incr; lra).
    rewrite E in H. simpl in H. lra.
Qed.

Lemma targetSpeed_09_bounds : 0.163 < targetSpeed None cursor_09 < 0.164.
Proof.
  rewrite targetSpeed_right by (cbn; auto; lra).
  replace ((HandCursor.x cursor_09 - 0.65) / 0.35) with (5 / 7) by (cbn; lra).
  pose proof Rpower_5_7_bounds. lra.
Qed.

Lemma update_scrollTarget n sel f w w' eff :
  update n sel f w = Some (w', eff) ->
  GalleryState.scrollTarget (galleryState w')
  = scroll_logic sel (cursor f) (GalleryState.scrollTarget (galleryState w))
  /\ GalleryState.scrollCurrent (galleryState w')
     = lerp (GalleryState.scrollCurrent (galleryState w))
         (GalleryState.scrollTarget (galleryState w')) 0.1
  /\ updateDrone eff = targetSpeed sel (cursor f)
  /\ uSpeed (ring w') = targetSpeed sel (cursor f).
Proof.
  unfold update. destruct (pinch_logic _ _ _ _) as [[p l] o].
  match goal with
  | |- match ?P with _ => _ end = _ -> _ => destruct P as [[[ms' sts'] a'] | ]
  end; [ | discriminate].
  intros H. injection H as <- <-. cbn. auto.
Qed.

(** C2, as amended.  With the cursor visible and no detail view open,
    [targetSpeed] is 0 when [|x - 0.5| <= 0.15] and otherwise
    [sign (x - 0.5) * 0.2 * ((|x - 0.5| - 0.15) / 0.35) ^ 0.6]; at
    [x = 0.9] this is [0.2 * (5/7) ^ 0.6], between 0.163 and 0.164, and
    positive; the frame completes and adds [targetSpeed] to [scrollTarget]
    once. *)
Theorem targetSpeed_dead_zone_curve n f w :
  length (meshes w) = n -> length (meshStates w) = n ->
  HandCursor.isVisible (cursor f) = true ->
  let x := HandCursor.x (cursor f) in
  let v := targetSpeed None (cursor f) in
  (Rabs (x - 0.5) <= 0.15 -> v = 0)
  /\ (0.15 < Rabs (x - 0.5) ->
      v = sign (x - 0.5) * 0.2 * Rpower ((Rabs (x - 0.5) - 0.15) / 0.35) 0.6)
  /\ (x = 0.9 -> v = 0.2 * Rpower (5 / 7) 0.6 /\ 0.163 < v < 0.164)
  /\ exists w' eff,
       update n None f w = Some (w', eff)
       /\ GalleryState.scrollTarget (galleryState w')
          = GalleryState.scrollTarget (galleryState w) + v.
Proof.
  intros Hm Hs V x v. subst x v.
  set (x := HandCursor.x (cursor f)).
  split; [ | split; [ | split]].
  - intros H. apply targetSpeed_dead_zone; [exact V | fold x].
    unfold Rabs in H. destruct (Rcase_abs (x - 0.5)); lra.
  - intros H. unfold Rabs in *. unfold sign.
    destruct (Rcase_abs (x - 0.5)) as [Neg | Pos].
    + rewrite Rltb_false, Rltb_true by lra.
      rewrite targetSpeed_left by (auto; fold x; lra). fold x.
      replace (- (x - 0.5) - 0.15) with (0.35 - x) by lra. lra.
    + rewrite Rltb_true by lra.
      rewrite targetSpeed_right by (auto; fold x; lra). fold x.
      replace (x - 0.5 - 0.15) with (x - 0.65) by lra. lra.
  - intros Hx.
    assert (E : targetSpeed None (cursor f) = 0.2 * Rpower (5 / 7) 0.6).
    { rewrite targetSpeed_right by (auto; fold x; lra). fold x.
      replace ((x - 0.65) / 0.35) with (5 / 7) by lra. lra. }
    split; [exact E | ]. rewrite E. pose proof Rpower_5_7_bounds. lra.
  - destruct (update_pinch n None f w Hm Hs) as (w' & eff & E & _).
    exists w', eff. split; [exact E | ].
    apply update_scrollTarget in E. destruct E as [E _]. rewrite E.
    unfold scroll_logic. rewrite V. reflexivity.
Qed.

Lemma targetSpeed_dead_zone_curve_witness :
  0.163 < targetSpeed None cursor_09 < 0.164
  /\ exists w' eff,
       update 10 None (frame_at cursor_09 5000) world_active_3 = Some (w', eff)
       /\ GalleryState.scrollTarget (galleryState w')
          = GalleryState.scrollTarget (galleryState world_active_3)
            + targetSpeed None cursor_09.
Proof.
  destruct (targetSpeed_dead_zone_curve 10 (frame_at cursor_09 5000) world_active_3
              eq_refl eq_refl eq_refl) as (_ & _ & B & S).
  split; [ | exact S].
  apply B. reflexivity.
Defined.

(** C2 as the specification words it fails on its number: at [x = 0.9]
    the speed is above 0.163, not about 0.138. *)
Lemma targetSpeed_09_is_not_0138 :
  HandCursor.isVisible cursor_09 = true
  /\ HandCursor.x cursor_09 = 0.9
  /\ 0.025 < targetSpeed None cursor_09 - 0.138.
Proof.
  split; [reflexivity | ]. split; [reflexivity | ].
  pose proof targetSpeed_09_bounds. lra.
Qed.

(** ** Smoothing *)

Lemma lerp_error v t alpha : lerp v t alpha - t = (1 - alpha) * (v - t).
Proof. unfold lerp. ring. Qed.

Lemma smooth_error n : forall v t alpha,
  smooth n v t alpha - t = (1 - alpha) ^ n * (v - t).
Proof.
  induction n as [ | n IH]; intros v t alpha; simpl.
  - ring.
  - rewrite IH, lerp_error. ring.
Qed.

Lemma smooth_abs_error n v t alpha :
  0 < alpha < 1 ->
  Rabs (smooth n v t alpha - t) = (1 - alpha) ^ n * Rabs (v - t).
Proof.
  intros Ha. rewrite smooth_error, Rabs_mult.
  rewrite (Rabs_pos_eq ((1 - alpha) ^ n)); [reflexivity | ].
  apply pow_le. lra.
Qed.

Lemma update_scene n sel f w w' eff :
  update n sel f w = Some (w', eff) -> scene w' = tilt_logic (cursor f) (scene w).
Proof.
  unfold update. destruct (pinch_logic _ _ _ _) as [[p l] o].
  match goal with
  | |- match ?P with _ => _ end = _ -> _ => destruct P as [[[ms' sts'] a'] | ]
  end; [ | discriminate].
  intros H. injection H as <- <-. reflexivity.
Qed.

(** The item animation of one [forEach] body: each value is smoothed
    toward its target with factor 0.1, and the mesh is drawn at the
    smoothed scale. *)
Lemma place_smoothed step sel hov sc i m st a :
  scale (snd (fst (place step sel hov sc i m st a)))
  = lerp (scale st) (targetScale sel hov i) 0.1
  /\ zOffset (snd (fst (place step sel hov sc i m st a)))
     = lerp (zOffset st) (targetZOffset sel hov i) 0.1
  /\ uHover (fst (fst (place step sel hov sc i m st a)))
     = lerp (uHover m) (targetHoverVal hov i) 0.1
  /\ mesh_scale (fst (fst (place step sel hov sc i m st a)))
     = scale (snd (fst (place step sel hov sc i m st a))).
Proof.
  unfold place, targetScale, targetZOffset, targetHoverVal.
  cbn [fst snd scale zOffset uHover mesh_scale].
  destruct sel as [s | ]; cbn [isDetailOpen];
    [destruct (s =? Z.of_nat i)%Z | ];
    destruct (Z.of_nat i =? hov)%Z; repeat split; reflexivity.
Qed.

Lemma forEach_smoothed stp sel hov sc :
  forall ms i0 sts a ms' sts' a',
    forEach stp sel hov sc i0 ms sts a = Some (ms', sts', a') ->
    forall k m st,
      nth_error ms k = Some m -> nth_error sts k = Some st ->
      exists m' st',
        nth_error ms' k = Some m' /\ nth_error sts' k = Some st'
        /\ scale st' = lerp (scale st) (targetScale sel hov (i0 + k)) 0.1
        /\ zOffset st' = lerp (zOffset st) (targetZOffset sel hov (i0 + k)) 0.1
        /\ uHover m' = lerp (uHover m) (targetHoverVal hov (i0 + k)) 0.1
        /\ mesh_scale m' = scale st'.
Proof.
  induction ms as [ | m0 ms IH]; intros i0 sts a ms' sts' a' H k m st Hm Hs.
  - destruct k; discriminate.
  - destruct sts as [ | st0 sts]; [discriminate | ].
    destruct stp as [step | | | ]; try discriminate.
    cbn [forEach] in H.
    pose proof (place_smoothed step sel hov sc i0 m0 st0 a) as PS.
    destruct (place step sel hov sc i0 m0 st0 a) as [[m1 st1] a1].
    destruct (forEach (Finite step) sel hov sc (S i0) ms sts a1)
      as [[[ms2 sts2] a2] | ] eqn:E; [ | discriminate].
    injection H as <- <- _.
    destruct k as [ | k].
    + cbn in Hm, Hs. injection Hm as <-. injection Hs as <-.
      exists m1, st1. rewrite Nat.add_0_r. cbn [fst snd] in PS.
      split; [reflexivity | ]. split; [reflexivity | ]. exact PS.
    + cbn in Hm, Hs.
      destruct (IH _ _ _ _ _ _ E k m st Hm Hs) as (m' & st' & A & B & C).
      exists m', st'. rewrite Nat.add_succ_r.
      split; [exact A | ]. split; [exact B | ]. exact C.
Qed.

(** What a frame that completes did to every smoothed value. *)
Lemma update_smoothed n sel f w w' eff :
  update n sel f w = Some (w', eff) ->
  GalleryState.scrollTarget (galleryState w')
  = GalleryState.scrollTarget (galleryState w) + targetSpeed sel (cursor f)
  /\ GalleryState.scrollCurrent (galleryState w')
     = lerp (GalleryState.scrollCurrent (galleryState w))
         (GalleryState.scrollTarget (galleryState w')) 0.1
  /\ rotation_x (scene w')
     = lerp (rotation_x (scene w)) (targetRotationX (cursor f)) 0.05
  /\ rotation_z (scene w')
     = lerp (rotation_z (scene w)) (targetRotationZ (cursor f)) 0.05
  /\ forall k m st,
       nth_error (meshes w) k = Some m -> nth_error (meshStates w) k = Some st ->
       exists m' st',
         nth_error (meshes w') k = Some m' /\ nth_error (meshStates w') k = Some st'
         /\ scale st'
            = lerp (scale st)
                (targetScale sel
                   (hoveredIndex sel (cursor f) (length (meshes w)) (hits f)) k) 0.1
         /\ zOffset st'
            = lerp (zOffset st)
                (targetZOffset sel
                   (hoveredIndex sel (cursor f) (length (meshes w)) (hits f)) k) 0.1
         /\ uHover m'
            = lerp (uHover m)
                (targetHoverVal
                   (hoveredIndex sel (cursor f) (length (meshes w)) (hits f)) k) 0.1
         /\ mesh_scale m' = scale st'.
Proof.
  intros E.
  destruct (update_scrollTarget _ _ _ _ _ _ E) as (T & C & _).
  pose proof (update_scene _ _ _ _ _ _ E) as Sc.
  split.
  { rewrite T. unfold scroll_logic, targetSpeed.
    destruct (negb (isDetailOpen sel) && HandCursor.isVisible (cursor f));
      [reflexivity | ring]. }
  split; [exact C | ].
  split.
  { rewrite Sc. unfold tilt_logic, targetRotationX.
    destruct (HandCursor.isVisible (cursor f)); reflexivity. }
  split.
  { rewrite Sc. unfold tilt_logic, targetRotationZ.
    destruct (HandCursor.isVisible (cursor f)); reflexivity. }
  revert E. unfold update. destruct (pinch_logic _ _ _ _) as [[p l] o].
  match goal with
  | |- match ?P with _ => _ end = _ -> _ =>
    destruct P as [[[ms' sts'] a'] | ] eqn:F
  end; [ | discriminate].
  intros H. injection H as <- _. cbn [meshes meshStates].
  intros k m st Hm Hs.
  destruct (forEach_smoothed _ _ _ _ _ _ _ _ _ _ _ F k m st Hm Hs)
    as (m' & st' & A & B & R).
  exists m', st'. split; [exact A | ]. split; [exact B | ]. exact R.
Qed.

(** ** Smoothing in double precision *)

Lemma binary64_smooth_add n :
  forall m v t a,
    Binary64.smooth (n + m) v t a
    = Binary64.smooth m (Binary64.smooth n v t a) t a.
Proof.
  induction n as [ | n IH]; intros m v t a; [reflexivity | ].
  cbn [Nat.add Binary64.smooth]. apply IH.
Qed.

(** A value the step leaves unchanged stays for good. *)
Lemma binary64_smooth_fixed v t a :
  Binary64.lerp v t a = v -> forall n, Binary64.smooth n v t a = v.
Proof.
  intros F. induction n as [ | n IH]; [reflexivity | ].
  cbn [Binary64.smooth]. rewrite F. exact IH.
Qed.

Lemma binary64_every_step P n :
  forall v t a,
    Binary64.every_step P n v t a = true ->
    forall k, (k <= n)%nat ->
      P (Binary64.smooth k v t a) (Binary64.smooth (S k) v t a) = true.
Proof.
  induction n as [ | n IH]; intros v t a H k Hk;
    cbn [Binary64.every_step] in H; apply andb_true_iff in H; destruct H as [H0 H1].
  - replace k with 0%nat by lia. exact H0.
  - destruct k as [ | k]; [exact H0 | ].
    change (P (Binary64.smooth k (Binary64.lerp v t a) t a)
              (Binary64.smooth (S k) (Binary64.lerp v t a) t a) = true).
    apply IH; [exact H1 | lia].
Qed.

(** From frame 314 on the scale of the selected item no longer moves. *)
Lemma scale_after_stalls n :
  (314 <= n)%nat -> Binary64.scale_after n = Binary64.scale_after 314.
Proof.
  intros H. replace n with (314 + (n - 314))%nat by lia.
  unfold Binary64.scale_after. rewrite binary64_smooth_add.
  apply binary64_smooth_fixed. vm_compute. reflexivity.
Qed.

Lemma scale_after_every P :
  Binary64.every_step P 314 Binary64.rest_scale Binary64.selected_scale
    Binary64.damping = true ->
  forall n, P (Binary64.scale_after n) (Binary64.scale_after (S n)) = true.
Proof.
  intros H n. destruct (Nat.le_gt_cases n 314) as [L | G].
  - exact (binary64_every_step P 314 _ _ _ H n L).
  - rewrite (scale_after_stalls n), (scale_after_stalls (S n)) by lia.
    rewrite <- (scale_after_stalls 315) at 2 by lia.
    exact (binary64_every_step P 314 _ _ _ H 314 (le_n _)).
Qed.

(** C8, as amended.  In exact arithmetic one smoothing step with factor
    [alpha] in (0,1) multiplies the error [v - t] by [1 - alpha] and keeps
    its sign; with the target held, after [n] steps the error is
    [(1 - alpha) ^ n * (v - t)], so its absolute value never grows, shrinks
    strictly unless it is already 0, never changes sign (no overshoot) and
    falls below every positive bound.  A frame applies this step with
    factor 0.1 to the scroll position (target: the scroll target of the
    frame), to the scale and depth offset of every item (targets
    1.3 / 0.8 / 1.15 / 1.0 and 2.5 / -1.0 / 0.5 / 0 for the selected item,
    another item while one is selected, the hovered item, an item at rest)
    and to its hover glow (target 1 or 0), and with factor 0.05 to the tilt
    and roll of the scene (targets [(y - 0.5) * 1.5] and
    [(x - 0.5) * (-0.5)], 0 without a hand).  In double precision the value
    need not come within [Number.EPSILON] of the target: the scale of an
    item selected at rest rises toward 1.3 without overshoot, strictly for
    314 frames, and then stays 5 units in the last place below 1.3. *)
Theorem smoothing_contracts_error (v t alpha : R) :
  0 < alpha < 1 ->
  lerp v t alpha - t = (1 - alpha) * (v - t)
  /\ (forall n, smooth n v t alpha - t = (1 - alpha) ^ n * (v - t))
  /\ (forall n, (0 <= v - t -> 0 <= smooth n v t alpha - t)
                /\ (v - t <= 0 -> smooth n v t alpha - t <= 0))
  /\ (forall n, Rabs (smooth (S n) v t alpha - t) <= Rabs (smooth n v t alpha - t))
  /\ (forall n, v <> t ->
        Rabs (smooth (S n) v t alpha - t) < Rabs (smooth n v t alpha - t))
  /\ (forall eps, 0 < eps ->
        exists N, forall n, (N <= n)%nat -> Rabs (smooth n v t alpha - t) < eps)
  /\ (forall n sel f w,
        (length (meshes w) = n -> length (meshStates w) = n ->
         exists w' eff, update n sel f w = Some (w', eff))
        /\ forall w' eff, update n sel f w = Some (w', eff) ->
           let hov := hoveredIndex sel (cursor f) (length (meshes w)) (hits f) in
           GalleryState.scrollTarget (galleryState w')
           = GalleryState.scrollTarget (galleryState w) + targetSpeed sel (cursor f)
           /\ GalleryState.scrollCurrent (galleryState w')
              = lerp (GalleryState.scrollCurrent (galleryState w))
                  (GalleryState.scrollTarget (galleryState w')) 0.1
           /\ rotation_x (scene w')
              = lerp (rotation_x (scene w)) (targetRotationX (cursor f)) 0.05
           /\ rotation_z (scene w')
              = lerp (rotation_z (scene w)) (targetRotationZ (cursor f)) 0.05
           /\ forall k m st,
                nth_error (meshes w) k = Some m ->
                nth_error (meshStates w) k = Some st ->
                exists m' st',
                  nth_error (meshes w') k = Some m'
                  /\ nth_error (meshStates w') k = Some st'
                  /\ scale st' = lerp (scale st) (targetScale sel hov k) 0.1
                  /\ zOffset st' = lerp (zOffset st) (targetZOffset sel hov k) 0.1
                  /\ uHover m' = lerp (uHover m) (targetHoverVal hov k) 0.1
                  /\ mesh_scale m' = scale st')
  /\ (forall n,
        Binary64.rises_to Binary64.selected_scale
          (Binary64.scale_after n) (Binary64.scale_after (S n)) = true)
  /\ (forall n, (n < 314)%nat ->
        PrimFloat.ltb (Binary64.scale_after n) (Binary64.scale_after (S n)) = true)
  /\ (forall n, (314 <= n)%nat ->
        Binary64.scale_after n = Binary64.scale_after 314)
  /\ Binary64.gap (Binary64.scale_after 314)
     = PrimFloat.mul 5%float Binary64.epsilon
  /\ (forall n,
        PrimFloat.ltb Binary64.epsilon (Binary64.gap (Binary64.scale_after n))
        = true).
Proof.
  intros Ha.
  assert (P : forall n, 0 < (1 - alpha) ^ n) by (intros n; apply pow_lt; lra).
  split; [apply lerp_error | ].
  split; [intros n; apply smooth_error | ].
  split.
  { intros n. rewrite smooth_error. specialize (P n).
    set (p := (1 - alpha) ^ n) in *. clearbody p. split; intros H.
    - apply Rmult_le_pos; lra.
    - assert (0 <= p * (t - v)) by (apply Rmult_le_pos; lra). lra. }
  split.
  { intros n. rewrite !smooth_abs_error by exact Ha.
    specialize (P n). pose proof (Rabs_pos (v - t)). simpl.
    set (p := (1 - alpha) ^ n) in *. set (e := Rabs (v - t)) in *.
    clearbody p e.
    assert (0 <= alpha * (p * e))
      by (apply Rmult_le_pos; [lra | apply Rmult_le_pos; lra]).
    lra. }
  split.
  { intros n Hne. rewrite !smooth_abs_error by exact Ha.
    specialize (P n).
    assert (0 < Rabs (v - t)) by (apply Rabs_pos_lt; lra).
    simpl. set (p := (1 - alpha) ^ n) in *. set (e := Rabs (v - t)) in *.
    clearbody p e.
    assert (0 < alpha * (p * e))
      by (apply Rmult_lt_0_compat; [lra | apply Rmult_lt_0_compat; lra]).
    lra. }
  split.
  { intros eps He.
    destruct (pow_lt_1_zero (1 - alpha)) with (y := eps / (Rabs (v - t) + 1))
      as [N HN].
    - rewrite Rabs_pos_eq; lra.
    - apply Rdiv_lt_0_compat; [exact He | ]. pose proof (Rabs_pos (v - t)). lra.
    - exists N. intros n Hn. rewrite smooth_abs_error by exact Ha.
      specialize (HN n ltac:(lia)).
      rewrite Rabs_pos_eq in HN by (apply Rlt_le, P).
      pose proof (Rabs_pos (v - t)) as A.
      assert (D : eps / (Rabs (v - t) + 1) * (Rabs (v - t) + 1) = eps)
        by (field; lra).
      specialize (P n).
      set (p := (1 - alpha) ^ n) in *. set (e := Rabs (v - t)) in *.
      set (q := eps / (e + 1)) in *. clearbody p e q.
      apply Rle_lt_trans with (p * (e + 1)); [lra | ].
      rewrite <- D. apply Rmult_lt_compat_r; lra. }
  split.
  { intros n sel f w. split.
    - intros Hm Hs. destruct (update_pinch n sel f w Hm Hs) as (w' & eff & E & _).
      exists w', eff. exact E.
    - intros w' eff E. cbv zeta. exact (update_smoothed _ _ _ _ _ _ E). }
  split.
  { apply (scale_after_every (Binary64.rises_to Binary64.selected_scale)).
    vm_compute. reflexivity. }
  split.
  { intros n Hn.
    apply (binary64_every_step PrimFloat.ltb 313 Binary64.rest_scale
             Binary64.selected_scale Binary64.damping);
      [vm_compute; reflexivity | lia]. }
  split; [exact scale_after_stalls | ].
  split; [vm_compute; reflexivity | ].
  apply (scale_after_every
           (fun v _ => PrimFloat.ltb Binary64.epsilon (Binary64.gap v))).
  vm_compute. reflexivity.
Qed.

Lemma smoothing_contracts_error_witness :
  lerp 1 0 0.1 - 0 = (1 - 0.1) * (1 - 0)
  /\ (forall n, Rabs (smooth (S n) 1 0 0.1 - 0) < Rabs (smooth n 1 0 0.1 - 0))
  /\ (forall eps, 0 < eps ->
        exists N, forall n, (N <= n)%nat -> Rabs (smooth n 1 0 0.1 - 0) < eps).
Proof.
  destruct (smoothing_contracts_error 1 0 0.1) as (A & _ & _ & _ & B & C & _);
    [lra | ].
  split; [exact A | ]. split; [ | exact C].
  intros n. apply B. lra.
Defined.

(** C8 as the specification words it fails in the arithmetic the program
    runs in: with the target held at 1.3 and the factor 0.1, the scale of
    an item selected at rest stops moving at frame 314, where the error is
    5 times [Number.EPSILON]; at no frame is the error within
    [Number.EPSILON], and from frame 314 on a step no longer multiplies it
    by 0.9. *)
Lemma binary64_scale_stalls_short_of_target :
  Binary64.scale_after 0 = 1%float
  /\ PrimFloat.ltb 0%float Binary64.damping = true
  /\ PrimFloat.ltb Binary64.damping 1%float = true
  /\ (forall n, (314 <= n)%nat ->
        Binary64.scale_after (S n) = Binary64.scale_after n
        /\ Binary64.gap (Binary64.scale_after n)
           = PrimFloat.mul 5%float Binary64.epsilon)
  /\ (forall n,
        PrimFloat.ltb Binary64.epsilon (Binary64.gap (Binary64.scale_after n))
        = true).
Proof.
  split; [reflexivity | ].
  split; [vm_compute; reflexivity | ]. split; [vm_compute; reflexivity | ].
  split.
  - intros n Hn. rewrite (scale_after_stalls n), (scale_after_stalls (S n)) by lia.
    split; vm_compute; reflexivity.
  - apply (scale_after_every
             (fun v _ => PrimFloat.ltb Binary64.epsilon (Binary64.gap v))).
    vm_compute. reflexivity.
Qed.

(** ** Swipe to close *)

Lemma swipe_fires_spec c now s :
  App.swipe_fires c now s = true
  <-> (App.selectedItemIndex s <> None
       /\ HandCursor.isVisible c = true
       /\ 0.03 < HandCursor.y c - App.lastYRef s
       /\ (800 < now - App.swipeCooldownRef s)%Z).
Proof.
  unfold App.swipe_fires.
  destruct (App.selectedItemIndex s) as [i | ].
  - rewrite !andb_true_iff, Rgtb_spec, Z.gtb_lt.
    split; [intros (A & B & C) | intros (_ & A & B & C)]; repeat split; auto.
    discriminate.
  - split; [discriminate | ]. intros [N _]. contradiction N. reflexivity.
Qed.

Lemma swipe_no_delta c now s :
  HandCursor.y c = App.lastYRef s -> App.swipe_fires c now s = false.
Proof.
  intros E. destruct (App.swipe_fires c now s) eqn:F; [exfalso | reflexivity].
  apply swipe_fires_spec in F. lra.
Qed.

Lemma swipe_run_same_y y0 :
  forall samples s,
    Forall (fun cn => HandCursor.y (fst cn) = y0) samples ->
    App.lastYRef s = y0 ->
    snd (App.swipe_run samples s) = repeat false (length samples).
Proof.
  induction samples as [ | [c now] rest IH]; intros s HF Hy.
  - reflexivity.
  - apply Forall_cons_iff in HF. destruct HF as [Hc HF']. cbn [fst] in Hc.
    cbn [App.swipe_run]. unfold App.swipe_effect.
    rewrite swipe_no_delta by congruence.
    specialize (IH {| App.selectedItemIndex := App.selectedItemIndex s;
                      App.lastYRef := HandCursor.y c;
                      App.swipeCooldownRef := App.swipeCooldownRef s |} HF' Hc).
    destruct (App.swipe_run rest _) as [s'' bs]. cbn in *. rewrite IH. reflexivity.
Qed.

(** Over any session the log agrees with the cooldown rule, and the
    cooldown ref holds the time of the last close request. *)
Lemma swipe_session_consistent :
  forall steps s,
    SwipeSession.consistent (App.swipeCooldownRef s)
      (snd (SwipeSession.run steps s))
    /\ App.swipeCooldownRef (fst (SwipeSession.run steps s))
       = SwipeSession.last_close (App.swipeCooldownRef s)
           (snd (SwipeSession.run steps s)).
Proof.
  unfold SwipeSession.last_close.
  induction steps as [ | [c now | sel] rest IH]; intros s.
  - cbn. auto.
  - cbn [SwipeSession.run].
    specialize (IH (fst (App.swipe_effect c now s))).
    assert (F : snd (App.swipe_effect c now s)
                = SwipeSession.armed_at c s
                  && (now - App.swipeCooldownRef s >? 800)%Z).
    { unfold App.swipe_effect, App.swipe_fires, SwipeSession.armed_at. cbn [snd].
      destruct (App.selectedItemIndex s); cbn [isDetailOpen andb];
        [ | reflexivity].
      destruct (HandCursor.isVisible c); cbn [andb]; reflexivity. }
    assert (C : App.swipeCooldownRef (fst (App.swipe_effect c now s))
                = if snd (App.swipe_effect c now s) then now
                  else App.swipeCooldownRef s) by reflexivity.
    destruct (App.swipe_effect c now s) as [s' b]. cbn [fst snd] in *.
    destruct (SwipeSession.run rest s') as [s'' log]. cbn [fst snd] in *.
    cbn [SwipeSession.consistent SwipeSession.closed SwipeSession.armed
         SwipeSession.at_ms fold_left].
    rewrite <- C. destruct IH as [IH1 IH2]. auto.
  - cbn [SwipeSession.run]. apply (IH {| App.selectedItemIndex := sel;
                                         App.lastYRef := App.lastYRef s;
                                         App.swipeCooldownRef := App.swipeCooldownRef s |}).
Qed.

(** C10, as amended.  The swipe effect asks to close exactly when the
    detail view is open, the cursor is visible, [currentY - previousY > 0.03]
    and strictly more than 800 ms have passed since the last request.  A
    request closes the detail view and its time is stored as the time of
    the last request; without one both are left as they were.  So over any
    session of effect runs and selection changes every run asks to close
    exactly when it is armed more than 800 ms after the request before it,
    and a request made at [now] is followed by another exactly when the
    view is open again, the cursor visible and lower by more than 0.03, more
    than 800 ms after [now].  The effect stores the current Y on every run,
    fired or not, so while the cursor stays at the same height no further
    request is made: a jump seen over several frames asks once. *)
Theorem swipe_to_close_rule c now s held :
  Forall (fun cn => HandCursor.y (fst cn) = HandCursor.y c) held ->
  (snd (App.swipe_effect c now s) = true
   <-> (App.selectedItemIndex s <> None
        /\ HandCursor.isVisible c = true
        /\ 0.03 < HandCursor.y c - App.lastYRef s
        /\ (800 < now - App.swipeCooldownRef s)%Z))
  /\ App.lastYRef (fst (App.swipe_effect c now s)) = HandCursor.y c
  /\ snd (App.swipe_run ((c, now) :: held) s)
     = snd (App.swipe_effect c now s) :: repeat false (length held)
  /\ App.swipeCooldownRef (fst (App.swipe_effect c now s))
     = (if snd (App.swipe_effect c now s) then now else App.swipeCooldownRef s)
  /\ App.selectedItemIndex (fst (App.swipe_effect c now s))
     = (if snd (App.swipe_effect c now s) then None else App.selectedItemIndex s)
  /\ (snd (App.swipe_effect c now s) = true ->
      forall sel c2 now2,
        snd (App.swipe_effect c2 now2
               {| App.selectedItemIndex := sel;
                  App.lastYRef := App.lastYRef (fst (App.swipe_effect c now s));
                  App.swipeCooldownRef :=
                    App.swipeCooldownRef (fst (App.swipe_effect c now s)) |})
        = true
        <-> (sel <> None
             /\ HandCursor.isVisible c2 = true
             /\ 0.03 < HandCursor.y c2 - HandCursor.y c
             /\ (800 < now2 - now)%Z))
  /\ (forall steps s0,
        SwipeSession.consistent (App.swipeCooldownRef s0)
          (snd (SwipeSession.run steps s0))
        /\ App.swipeCooldownRef (fst (SwipeSession.run steps s0))
           = SwipeSession.last_close (App.swipeCooldownRef s0)
               (snd (SwipeSession.run steps s0))).
Proof.
  intros HF. split; [apply swipe_fires_spec | ]. split; [reflexivity | ].
  split.
  { cbn [App.swipe_run].
    pose proof (swipe_run_same_y (HandCursor.y c) held
                  (fst (App.swipe_effect c now s)) HF eq_refl) as R.
    destruct (App.swipe_effect c now s) as [s' b]. cbn [fst snd] in *.
    destruct (App.swipe_run held s') as [s'' bs]. cbn [fst snd] in *.
    rewrite R. reflexivity. }
  split; [reflexivity | ]. split; [reflexivity | ].
  split; [ | exact swipe_session_consistent].
  intros Fired sel c2 now2.
  assert (C : App.swipeCooldownRef (fst (App.swipe_effect c now s)) = now).
  { unfold App.swipe_effect in Fired |- *.
    cbn [fst snd App.swipeCooldownRef] in Fired |- *. rewrite Fired. reflexivity. }
  assert (L : App.lastYRef (fst (App.swipe_effect c now s)) = HandCursor.y c)
    by reflexivity.
  rewrite C, L.
  exact (swipe_fires_spec c2 now2
           {| App.selectedItemIndex := sel; App.lastYRef := HandCursor.y c;
              App.swipeCooldownRef := now |}).
Qed.

Lemma swipe_to_close_rule_witness :
  snd (App.swipe_run [(cursor_y 0.54, 5000%Z); (cursor_y 0.54, 5016%Z);
                      (cursor_y 0.54, 5033%Z)] detail_open)
  = [true; false; false].
Proof.
  destruct (swipe_to_close_rule (cursor_y 0.54) 5000 detail_open
              [(cursor_y 0.54, 5016%Z); (cursor_y 0.54, 5033%Z)])
    as (F & _ & R & _).
  - repeat constructor.
  - rewrite R. f_equal. apply F. cbn.
    repeat split; try discriminate; try lra; lia.
Defined.

(** A session: a swipe closes the detail view at 5000; the view is opened
    again; a second swipe 700 ms after the first is ignored, a third one
    801 ms after it closes the view. *)
Lemma swipe_session_two_closes :
  map SwipeSession.closed
    (snd (SwipeSession.run
            [SwipeSession.Render (cursor_y 0.54) 5000;
             SwipeSession.Select (Some 2%Z);
             SwipeSession.Render (cursor_y 0.5) 5400;
             SwipeSession.Render (cursor_y 0.54) 5700;
             SwipeSession.Render (cursor_y 0.5) 5750;
             SwipeSession.Render (cursor_y 0.54) 5801]
            detail_open))
  = [true; false; false; false; true].
Proof.
  assert (Up : (0.54 - 0.5 >? 0.03) = true) by (apply Rgtb_true; lra).
  assert (Down : (0.5 - 0.54 >? 0.03) = false) by (apply Rgtb_false; lra).
  cbn [SwipeSession.run].
  unfold App.swipe_effect, App.swipe_fires, detail_open, cursor_y.
  cbn [App.selectedItemIndex App.lastYRef App.swipeCooldownRef
       HandCursor.y HandCursor.isVisible andb].
  rewrite ?Up, ?Down.
  cbn [andb Z.sub Z.gtb Z.compare Z.add Z.opp Z.pos_sub Pos.compare
       Pos.compare_cont Z.succ_double Z.pred_double Z.double Pos.pred_double
       App.selectedItemIndex App.lastYRef App.swipeCooldownRef].
  rewrite ?Up, ?Down.
  reflexivity.
Qed.

(** C10 as the specification words it fails: with exactly 800 ms since the
    last request ("at least 800 ms") and every other condition met, no close
    request is made. *)
Lemma swipe_cooldown_exactly_800_does_not_fire :
  let s := {| App.selectedItemIndex := Some 2%Z; App.lastYRef := 0.5;
              App.swipeCooldownRef := 5000 |} in
  App.selectedItemIndex s <> None
  /\ HandCursor.isVisible (cursor_y 0.54) = true
  /\ 0.03 < HandCursor.y (cursor_y 0.54) - App.lastYRef s
  /\ (5800 - App.swipeCooldownRef s >= 800)%Z
  /\ snd (App.swipe_effect (cursor_y 0.54) 5800 s) = false.
Proof.
  cbn. repeat split; try discriminate; try lra; try lia.
Qed.

(** ** Angles: [Math.atan2 (sin a) (cos a)] wraps [a] into (-PI, PI] *)

Lemma tan_shift_PI x : cos x <> 0 -> sin (x + PI) / cos (x + PI) = tan x.
Proof.
  intros H. rewrite neg_sin, neg_cos. unfold tan. field. exact H.
Qed.

Lemma atan2_sin_cos theta :
  - PI < theta <= PI -> Math_atan2 (sin theta) (cos theta) = theta.
Proof.
  intros [Hlo Hhi]. pose proof PI_RGT_0 as Hpi. unfold Math_atan2.
  destruct (Rlt_dec theta (- (PI / 2))) as [A | A].
  { (* third quadrant *)
    assert (C : cos theta < 0).
    { rewrite <- cos_neg. apply cos_lt_0; lra. }
    assert (S : sin theta < 0) by (apply sin_lt_0_var; lra).
    destruct (Rlt_dec 0 (cos theta)); [lra | ].
    destruct (Rlt_dec (cos theta) 0); [ | lra].
    destruct (Rle_dec 0 (sin theta)); [lra | ].
    replace (sin theta / cos theta) with (tan (theta + PI)).
    - rewrite atan_tan by lra. ring.
    - unfold tan. rewrite neg_sin, neg_cos. field. lra. }
  destruct (Req_dec_T theta (- (PI / 2))) as [E | NE].
  { subst theta. rewrite cos_neg, sin_neg, cos_PI2, sin_PI2.
    repeat match goal with
           | |- context [Rlt_dec ?u ?v] => destruct (Rlt_dec u v); try lra
           end. }
  destruct (Rlt_dec theta (PI / 2)) as [B | B].
  { (* right half plane *)
    assert (C : 0 < cos theta) by (apply cos_gt_0; lra).
    destruct (Rlt_dec 0 (cos theta)); [ | lra].
    change (sin theta / cos theta) with (tan theta).
    apply atan_tan. lra. }
  destruct (Req_dec_T theta (PI / 2)) as [E | NE'].
  { subst theta. rewrite cos_PI2, sin_PI2.
    destruct (Rlt_dec 0 0); [lra | ].
    destruct (Rlt_dec 0 1); [reflexivity | lra]. }
  (* second quadrant *)
  assert (C : cos theta < 0) by (apply cos_lt_0; lra).
  assert (S : 0 <= sin theta) by (apply sin_ge_0; lra).
  destruct (Rlt_dec 0 (cos theta)); [lra | ].
  destruct (Rlt_dec (cos theta) 0); [ | lra].
  destruct (Rle_dec 0 (sin theta)); [ | lra].
  assert (C' : cos (theta - PI) <> 0).
  { intros Z. replace theta with (theta - PI + PI) in C by ring.
    rewrite neg_cos in C. lra. }
  replace (sin theta / cos theta) with (tan (theta - PI)).
  - rewrite atan_tan by lra. ring.
  - rewrite <- (tan_shift_PI (theta - PI) C').
    replace (theta - PI + PI) with theta by ring. reflexivity.
Qed.

Lemma sin_period_Z x (k : Z) : sin (x + 2 * IZR k * PI) = sin x.
Proof.
  destruct (Z_le_gt_dec 0 k) as [P | N].
  - rewrite <- (Z2Nat.id k P), <- INR_IZR_INZ. apply sin_period.
  - rewrite <- (sin_period (x + 2 * IZR k * PI) (Z.to_nat (- k))).
    rewrite INR_IZR_INZ, Z2Nat.id, opp_IZR by lia. f_equal. ring.
Qed.

Lemma cos_period_Z x (k : Z) : cos (x + 2 * IZR k * PI) = cos x.
Proof.
  destruct (Z_le_gt_dec 0 k) as [P | N].
  - rewrite <- (Z2Nat.id k P), <- INR_IZR_INZ. apply cos_period.
  - rewrite <- (cos_period (x + 2 * IZR k * PI) (Z.to_nat (- k))).
    rewrite INR_IZR_INZ, Z2Nat.id, opp_IZR by lia. f_equal. ring.
Qed.

(** An angle that differs from [theta] in (-PI, PI] by whole turns
    normalises to [theta]. *)
Lemma normalizedAngle_wrap a theta (k : Z) :
  a = theta + 2 * IZR k * PI -> - PI < theta <= PI -> normalizedAngle a = theta.
Proof.
  intros -> H. unfold normalizedAngle, Math_sin, Math_cos.
  rewrite sin_period_Z, cos_period_Z. apply atan2_sin_cos. exact H.
Qed.

(** Every angle is a whole number of turns away from one in (-PI, PI]. *)
Lemma wrap_exists a :
  exists theta (k : Z), a = theta + 2 * IZR k * PI /\ - PI < theta <= PI.
Proof.
  pose proof PI_RGT_0 as Hpi.
  set (r := (PI - a) / (2 * PI)).
  destruct (archimed r) as [U1 U2].
  set (m := (up r - 1)%Z).
  assert (M : IZR m = IZR (up r) - 1) by (unfold m; rewrite minus_IZR; reflexivity).
  assert (E : r * (2 * PI) = PI - a) by (unfold r; field; lra).
  exists (a + 2 * IZR m * PI), (- m)%Z.
  rewrite opp_IZR. split; [ring | ].
  assert (L : IZR m * (2 * PI) <= r * (2 * PI))
    by (apply Rmult_le_compat_r; lra).
  assert (G : r * (2 * PI) < (IZR m + 1) * (2 * PI))
    by (apply Rmult_lt_compat_r; lra).
  lra.
Qed.

Lemma normalizedAngle_spec a :
  exists k : Z,
    normalizedAngle a = a - 2 * IZR k * PI
    /\ - PI < normalizedAngle a <= PI.
Proof.
  destruct (wrap_exists a) as (theta & k & E & B).
  exists k. rewrite (normalizedAngle_wrap a theta k E B).
  split; [lra | exact B].
Qed.

(** ** The active index *)

Lemma place_active step sel hov sc i m st a :
  snd (place step sel hov sc i m st a)
  = if isDetailOpen sel then a else if hit step sc i then Z.of_nat i else a.
Proof. unfold place, hit, normalizedAngle. destruct sel; reflexivity. Qed.

Lemma forEach_active step sel hov sc :
  forall ms i0 sts a ms' sts' a',
    forEach (Finite step) sel hov sc i0 ms sts a = Some (ms', sts', a') ->
    a' = if isDetailOpen sel then a else scan step sc i0 (length ms) a.
Proof.
  induction ms as [ | m ms IH]; intros i0 sts a ms' sts' a' H.
  - simpl in H. injection H as _ _ <-. destruct (isDetailOpen sel); reflexivity.
  - destruct sts as [ | st sts]; [discriminate | ].
    cbn [forEach] in H.
    pose proof (place_active step sel hov sc i0 m st a) as PA.
    destruct (place step sel hov sc i0 m st a) as [[m1 st1] a1].
    destruct (forEach (Finite step) sel hov sc (S i0) ms sts a1) as [[[ms2 sts2] a2] | ] eqn:E;
      [ | discriminate].
    injection H as _ _ <-. apply IH in E. rewrite E. cbn [snd] in PA. rewrite PA.
    destruct (isDetailOpen sel); reflexivity.
Qed.

Lemma scan_none step sc :
  forall len i0 a,
    (forall i, (i0 <= i < i0 + len)%nat -> hit step sc i = false) ->
    scan step sc i0 len a = a.
Proof.
  induction len as [ | len IH]; intros i0 a H; simpl.
  - reflexivity.
  - rewrite (H i0) by lia. apply IH. intros i Hi. apply H. lia.
Qed.

Lemma scan_unique step sc i :
  forall len i0 a,
    (i0 <= i < i0 + len)%nat -> hit step sc i = true ->
    (forall j, (i0 <= j < i0 + len)%nat -> hit step sc j = true -> j = i) ->
    scan step sc i0 len a = Z.of_nat i.
Proof.
  induction len as [ | len IH]; intros i0 a Hi Hh Hu; simpl.
  - lia.
  - destruct (Nat.eq_dec i0 i) as [-> | Hne].
    + rewrite Hh. apply scan_none. intros j Hj.
      destruct (hit step sc j) eqn:Hj'; [ | reflexivity].
      apply Hu in Hj'; lia.
    + destruct (hit step sc i0) eqn:H0.
      * apply Hu in H0; [contradiction | lia].
      * apply IH; [lia | exact Hh | ]. intros j Hj. apply Hu. lia.
Qed.

Lemma scan_range step sc :
  forall len i0 a,
    scan step sc i0 len a = a
    \/ (Z.of_nat i0 <= scan step sc i0 len a < Z.of_nat (i0 + len))%Z.
Proof.
  induction len as [ | len IH]; intros i0 a; simpl.
  - left. reflexivity.
  - destruct (IH (S i0) (if hit step sc i0 then Z.of_nat i0 else a)) as [E | R].
    + rewrite E. destruct (hit step sc i0); [right; lia | left; reflexivity].
    + right. lia.
Qed.

(** Two items of an [N]-item ring have normalised angles a whole number of
    steps apart, and zero steps apart only when they are the same item. *)
Lemma normalizedAngle_steps_apart (N : nat) sc i j :
  (0 < N)%nat ->
  exists M : Z,
    normalizedAngle (INR j * (PI * 2 / INR N) - sc)
    - normalizedAngle (INR i * (PI * 2 / INR N) - sc)
    = IZR M * (PI * 2 / INR N)
    /\ ((i < N)%nat -> (j < N)%nat -> M = 0%Z -> i = j).
Proof.
  intros HN.
  assert (HN' : 0 < INR N) by (apply lt_0_INR; exact HN).
  destruct (normalizedAngle_spec (INR j * (PI * 2 / INR N) - sc)) as (kj & Ej & _).
  destruct (normalizedAngle_spec (INR i * (PI * 2 / INR N) - sc)) as (ki & Ei & _).
  exists (Z.of_nat j - Z.of_nat i - (kj - ki) * Z.of_nat N)%Z.
  split.
  - rewrite Ej, Ei, !minus_IZR, mult_IZR, minus_IZR, <- !INR_IZR_INZ.
    field. lra.
  - intros Hi Hj HM.
    assert (D : (kj - ki = 0)%Z).
    { destruct (Z.eq_dec (kj - ki) 0) as [D | D]; [exact D | exfalso].
      assert (C : (1 <= kj - ki \/ kj - ki <= -1)%Z) by lia.
      destruct C; nia. }
    rewrite D in HM. lia.
Qed.

Lemma hit_spec step sc i :
  hit step sc i = true
  <-> Rabs (normalizedAngle (INR i * step - sc)) < step / 2.
Proof. unfold hit, Math_abs. apply Rltb_spec. Qed.

Lemma step_pos (N : nat) : (0 < N)%nat -> 0 < PI * 2 / INR N.
Proof.
  intros HN. apply Rdiv_lt_0_compat; [pose proof PI_RGT_0; lra | ].
  apply lt_0_INR. exact HN.
Qed.

(** The item that passes the test is strictly closer to the front than
    every other item, and no other item passes. *)
Lemma hit_closest (N : nat) sc i j :
  (0 < N)%nat -> (i < N)%nat -> (j < N)%nat -> j <> i ->
  Rabs (normalizedAngle (INR i * (PI * 2 / INR N) - sc)) < PI * 2 / INR N / 2 ->
  Rabs (normalizedAngle (INR i * (PI * 2 / INR N) - sc))
  < Rabs (normalizedAngle (INR j * (PI * 2 / INR N) - sc))
  /\ PI * 2 / INR N / 2
     < Rabs (normalizedAngle (INR j * (PI * 2 / INR N) - sc)).
Proof.
  intros HN Hi Hj Hne Hh.
  pose proof (step_pos N HN) as Hs.
  destruct (normalizedAngle_steps_apart N sc i j HN) as (M & E & Z0).
  set (step := PI * 2 / INR N) in *.
  set (ni := normalizedAngle (INR i * step - sc)) in *.
  set (nj := normalizedAngle (INR j * step - sc)) in *.
  clearbody step ni nj.
  assert (HM : (1 <= M \/ M <= -1)%Z).
  { destruct (Z.eq_dec M 0) as [Z1 | Z1]; [ | lia].
    exfalso. apply Hne. symmetry. apply Z0; assumption. }
  assert (B : step <= IZR M * step \/ IZR M * step <= - step).
  { destruct HM as [P | P]; apply IZR_le in P.
    - left. assert (0 <= (IZR M - 1) * step) by (apply Rmult_le_pos; lra). lra.
    - right. assert (0 <= (-1 - IZR M) * step) by (apply Rmult_le_pos; lra). lra. }
  unfold Rabs in *.
  destruct (Rcase_abs ni), (Rcase_abs nj); destruct B; lra.
Qed.

(** When some item sits exactly half a step from the front, no item
    passes the strict test. *)
Lemma boundary_no_hit (N : nat) sc i j :
  (0 < N)%nat ->
  Rabs (normalizedAngle (INR i * (PI * 2 / INR N) - sc)) = PI * 2 / INR N / 2 ->
  hit (PI * 2 / INR N) sc j = false.
Proof.
  intros HN Hb.
  destruct (hit (PI * 2 / INR N) sc j) eqn:Hj; [exfalso | reflexivity].
  apply hit_spec in Hj.
  pose proof (step_pos N HN) as Hs.
  destruct (normalizedAngle_steps_apart N sc i j HN) as (M & E & _).
  set (step := PI * 2 / INR N) in *.
  set (ni := normalizedAngle (INR i * step - sc)) in *.
  set (nj := normalizedAngle (INR j * step - sc)) in *.
  clearbody step ni nj.
  assert (B : IZR M * step = 0 \/ step <= IZR M * step \/ IZR M * step <= - step).
  { destruct (Z.eq_dec M 0) as [-> | Z1]; [left; ring | right].
    assert (HM : (1 <= M \/ M <= -1)%Z) by lia.
    destruct HM as [P | P]; apply IZR_le in P.
    - left. assert (0 <= (IZR M - 1) * step) by (apply Rmult_le_pos; lra). lra.
    - right. assert (0 <= (-1 - IZR M) * step) by (apply Rmult_le_pos; lra). lra. }
  unfold Rabs in *.
  destruct (Rcase_abs ni), (Rcase_abs nj); destruct B as [B | [B | B]]; lra.
Qed.

(** The active index a frame leaves, for a ring of at least one item. *)
Lemma update_activeIndex (N : nat) sel f w :
  (0 < N)%nat -> length (meshes w) = N -> length (meshStates w) = N ->
  exists w' eff,
    update N sel f w = Some (w', eff)
    /\ GalleryState.activeIndex (galleryState w')
       = if isDetailOpen sel then GalleryState.activeIndex (galleryState w)
         else scan (PI * 2 / INR N)
                (GalleryState.scrollCurrent (galleryState w')) 0 N
                (GalleryState.activeIndex (galleryState w)).
Proof.
  intros HN Hm Hs. unfold update.
  destruct (pinch_logic _ _ _ _) as [[p l] o].
  rewrite angleStep_pos by exact HN.
  match goal with
  | |- context [forEach (Finite ?st) ?se ?ho ?sc ?i ?ms ?sts ?a] =>
    destruct (forEach_total st se ho sc ms i sts a) as (ms' & sts' & a' & E & _);
      [congruence | ];
    rewrite E; apply forEach_active in E
  end.
  rewrite Hm in E.
  eexists; eexists. split; [reflexivity | ]. cbn. exact E.
Qed.

Lemma normalizedAngle_small a : - PI < a <= PI -> normalizedAngle a = a.
Proof.
  intros H. apply (normalizedAngle_wrap a a 0); [simpl; ring | exact H].
Qed.

(** The last item that passes the test is the one a scan leaves. *)
Lemma scan_last step sc i :
  forall len i0 a,
    (i0 <= i < i0 + len)%nat -> hit step sc i = true ->
    (forall j, (i < j < i0 + len)%nat -> hit step sc j = false) ->
    scan step sc i0 len a = Z.of_nat i.
Proof.
  induction len as [ | len IH]; intros i0 a Hi Hh Hl; simpl.
  - lia.
  - destruct (Nat.eq_dec i0 i) as [-> | Hne].
    + rewrite Hh. apply scan_none. intros j Hj. apply Hl. lia.
    + apply IH; [lia | exact Hh | ]. intros j Hj. apply Hl. lia.
Qed.

(** Two different items are at least a step apart, so an item at distance
    [d] from the front leaves every other item at distance [step - d] or
    more. *)
Lemma other_items_beyond (N : nat) sc i j :
  (0 < N)%nat -> (i < N)%nat -> (j < N)%nat -> j <> i ->
  PI * 2 / INR N - Rabs (normalizedAngle (INR i * (PI * 2 / INR N) - sc))
  <= Rabs (normalizedAngle (INR j * (PI * 2 / INR N) - sc)).
Proof.
  intros HN Hi Hj Hne.
  pose proof (step_pos N HN) as Hs.
  destruct (normalizedAngle_steps_apart N sc i j HN) as (M & E & Z0).
  set (step := PI * 2 / INR N) in *.
  set (ni := normalizedAngle (INR i * step - sc)) in *.
  set (nj := normalizedAngle (INR j * step - sc)) in *.
  clearbody step ni nj.
  assert (HM : (1 <= M \/ M <= -1)%Z).
  { destruct (Z.eq_dec M 0) as [Z1 | Z1]; [ | lia].
    exfalso. apply Hne. symmetry. apply Z0; assumption. }
  assert (B : step <= IZR M * step \/ IZR M * step <= - step).
  { destruct HM as [P | P]; apply IZR_le in P.
    - left. assert (0 <= (IZR M - 1) * step) by (apply Rmult_le_pos; lra). lra.
    - right. assert (0 <= (-1 - IZR M) * step) by (apply Rmult_le_pos; lra). lra. }
  unfold Rabs in *.
  destruct (Rcase_abs ni), (Rcase_abs nj); destruct B; lra.
Qed.

(** C6, as amended.  For a ring of [N >= 1] items and no detail view open,
    a frame completes and leaves as active index the last item, in index
    order, whose angle wrapped into (-PI, PI] is less than half a step from
    the front in absolute value, and the index it found when no item passes
    that test.  In exact arithmetic two items are a step or more apart, so
    an item that passes the test is the only one that does and is strictly
    closer to the front than every other one, which fails the test by the
    margin the item passes it with.  An angle exactly at a boundary does not
    pick one fixed neighbour: with eight items and the scroll position at
    half a step, items 0 and 1 sit at minus and plus half a step, neither
    passes and the active index keeps the value it had.  With ten items,
    scroll position 0 makes item 0 active and scroll position one step makes
    item 1 active. *)
Theorem active_index_is_front_item (N : nat) f w :
  (1 <= N)%nat -> length (meshes w) = N -> length (meshStates w) = N ->
  exists w' eff,
    update N None f w = Some (w', eff)
    /\ let step := PI * 2 / INR N in
       let sc := GalleryState.scrollCurrent (galleryState w') in
       let norm := fun i : nat => normalizedAngle (INR i * step - sc) in
       let before := GalleryState.activeIndex (galleryState w) in
       let after := GalleryState.activeIndex (galleryState w') in
       (forall i, - PI < norm i <= PI)
       /\ (forall i, (i < N)%nat -> Rabs (norm i) < step / 2 ->
             (forall j, (i < j < N)%nat -> ~ Rabs (norm j) < step / 2) ->
             after = Z.of_nat i)
       /\ ((forall i, (i < N)%nat -> ~ Rabs (norm i) < step / 2) -> after = before)
       /\ (forall i j, (i < N)%nat -> (j < N)%nat -> j <> i ->
             step - Rabs (norm i) <= Rabs (norm j))
       /\ (forall i, (i < N)%nat -> Rabs (norm i) < step / 2 ->
             after = Z.of_nat i
             /\ forall j, (j < N)%nat -> j <> i ->
                  Rabs (norm i) < Rabs (norm j) /\ step / 2 < Rabs (norm j))
       /\ (N = 8%nat -> sc = step / 2 ->
             norm 0%nat = - (step / 2) /\ norm 1%nat = step / 2 /\ after = before)
       /\ (N = 10%nat -> sc = 0 -> after = 0%Z)
       /\ (N = 10%nat -> sc = step -> after = 1%Z).
Proof.
  intros HN Hm Hs.
  destruct (update_activeIndex N None f w HN Hm Hs) as (w' & eff & E & A).
  exists w', eff. split; [exact E | ]. cbn [isDetailOpen] in A.
  pose proof (step_pos N HN) as Hstep.
  set (step := PI * 2 / INR N) in *.
  set (sc := GalleryState.scrollCurrent (galleryState w')) in *.
  cbv zeta.
  assert (Front : forall i, (i < N)%nat ->
            Rabs (normalizedAngle (INR i * step - sc)) < step / 2 ->
            GalleryState.activeIndex (galleryState w') = Z.of_nat i).
  { intros i Hi Hh. rewrite A. apply scan_unique.
    - lia.
    - apply hit_spec. exact Hh.
    - intros j Hj Hj'. apply hit_spec in Hj'.
      destruct (Nat.eq_dec j i) as [ | Hne]; [assumption | exfalso].
      destruct (hit_closest N sc i j) as [_ C]; try assumption; try lia.
      fold step in C. lra. }
  split.
  { intros i. destruct (normalizedAngle_spec (INR i * step - sc)) as (k & _ & B).
    exact B. }
  split.
  { intros i Hi Hh Hl. rewrite A. apply scan_last.
    - lia.
    - apply hit_spec. exact Hh.
    - intros j Hj. destruct (hit step sc j) eqn:Hj'; [exfalso | reflexivity].
      apply hit_spec in Hj'. apply (Hl j); [lia | exact Hj']. }
  split.
  { intros Hno. rewrite A. apply scan_none. intros j Hj.
    destruct (hit step sc j) eqn:Hh; [exfalso | reflexivity].
    apply hit_spec in Hh. apply (Hno j); [lia | exact Hh]. }
  split.
  { intros i j Hi Hj Hne. apply (other_items_beyond N sc i j); assumption || lia. }
  split.
  { intros i Hi Hh. split; [apply Front; assumption | ].
    intros j Hj Hne.
    pose proof (other_items_beyond N sc i j ltac:(lia) Hi Hj Hne) as B.
    fold step in B. lra. }
  assert (Zero : Rabs (normalizedAngle 0) < step / 2).
  { rewrite normalizedAngle_small by (pose proof PI_RGT_0; lra).
    rewrite Rabs_R0. lra. }
  split.
  { intros HN8 Hsc. pose proof PI_RGT_0 as Hpi.
    assert (S8 : step = PI / 4).
    { unfold step. rewrite HN8. simpl INR. lra. }
    assert (N0 : normalizedAngle (INR 0 * step - sc) = - (step / 2)).
    { rewrite Hsc. replace (INR 0 * step - step / 2) with (- (step / 2))
        by (simpl; ring).
      apply normalizedAngle_small. lra. }
    split; [exact N0 | ]. split.
    - rewrite Hsc. replace (INR 1 * step - step / 2) with (step / 2)
        by (simpl; lra).
      apply normalizedAngle_small. lra.
    - rewrite A. apply scan_none. intros j _.
      apply (boundary_no_hit N sc 0 j); [lia | ].
      fold step. rewrite N0, Rabs_Ropp. apply Rabs_pos_eq. lra. }
  split.
  - intros HN10 Hsc. apply (Front 0%nat); [lia | ].
    replace (INR 0 * step - sc) with 0 by (rewrite Hsc; simpl; ring). exact Zero.
  - intros HN10 Hsc. apply (Front 1%nat); [lia | ].
    replace (INR 1 * step - sc) with 0 by (rewrite Hsc; simpl; ring). exact Zero.
Qed.

Lemma update_hidden_scroll n f w w' eff :
  HandCursor.isVisible (cursor f) = false ->
  GalleryState.scrollCurrent (galleryState w)
  = GalleryState.scrollTarget (galleryState w) ->
  update n None f w = Some (w', eff) ->
  GalleryState.scrollCurrent (galleryState w')
  = GalleryState.scrollCurrent (galleryState w).
Proof.
  intros V Eq E. apply update_scrollTarget in E. destruct E as (T & C & _).
  rewrite C, T. unfold scroll_logic, lerp. rewrite V, andb_false_r, Eq. ring.
Qed.

Lemma active_index_is_front_item_witness :
  exists w' eff,
    update 10 None (frame_at hidden_cursor 5000) (world (mount 10 None))
    = Some (w', eff)
    /\ GalleryState.activeIndex (galleryState w') = 0%Z.
Proof.
  destruct (active_index_is_front_item 10 (frame_at hidden_cursor 5000)
              (world (mount 10 None)))
    as (w' & eff & E & _ & _ & _ & _ & _ & _ & Rest & _);
    [lia | reflexivity | reflexivity | ].
  exists w', eff. split; [exact E | ].
  apply Rest; [reflexivity | ].
  rewrite (update_hidden_scroll 10 (frame_at hidden_cursor 5000)
             (world (mount 10 None)) w' eff eq_refl eq_refl E).
  reflexivity.
Defined.

(** On the boundary world a frame leaves the active index as it found
    it. *)
Lemma boundary_frame (a : Z) :
  exists w' eff,
    update 8 None (frame_at hidden_cursor 5000) (world_on_boundary a)
    = Some (w', eff)
    /\ GalleryState.scrollCurrent (galleryState w') = PI / 8
    /\ normalizedAngle (INR 0 * (PI * 2 / INR 8) - PI / 8) = - (PI * 2 / INR 8 / 2)
    /\ normalizedAngle (INR 1 * (PI * 2 / INR 8) - PI / 8) = PI * 2 / INR 8 / 2
    /\ GalleryState.activeIndex (galleryState w') = a.
Proof.
  pose proof PI_RGT_0 as Hpi.
  assert (I8 : INR 8 = 8) by (simpl; lra).
  destruct (update_activeIndex 8 None (frame_at hidden_cursor 5000)
              (world_on_boundary a))
    as (w' & eff & E & A); [lia | reflexivity | reflexivity | ].
  pose proof (update_hidden_scroll 8 (frame_at hidden_cursor 5000)
                (world_on_boundary a) w' eff eq_refl eq_refl E) as SC.
  cbn in SC.
  assert (N0 : normalizedAngle (INR 0 * (PI * 2 / INR 8) - PI / 8)
               = - (PI * 2 / INR 8 / 2)).
  { rewrite I8. replace (INR 0 * (PI * 2 / 8) - PI / 8) with (- (PI / 8))
      by (simpl; lra).
    rewrite normalizedAngle_small by lra. lra. }
  exists w', eff. split; [exact E | ]. split; [exact SC | ].
  split; [exact N0 | ]. split.
  - rewrite I8. replace (INR 1 * (PI * 2 / 8) - PI / 8) with (PI / 8)
      by (simpl; lra).
    rewrite normalizedAngle_small by lra. lra.
  - rewrite A. cbn [isDetailOpen]. rewrite SC. apply scan_none. intros j _.
    apply (boundary_no_hit 8 (PI / 8) 0 j); [lia | ].
    rewrite N0. rewrite Rabs_Ropp. apply Rabs_pos_eq. rewrite I8. lra.
Qed.

(** C6 as the specification words it fails at a boundary: with eight items
    and items 0 and 1 at exactly minus and plus half a step, the frame does
    not pick one fixed adjacent index.  The active index stays whatever it
    was: 5 in one run and 2 in another, at the same scroll position. *)
Lemma boundary_keeps_previous_active_index :
  (exists w' eff,
     update 8 None (frame_at hidden_cursor 5000) (world_on_boundary 5)
     = Some (w', eff)
     /\ GalleryState.scrollCurrent (galleryState w') = PI / 8
     /\ normalizedAngle (INR 0 * (PI * 2 / INR 8) - PI / 8) = - (PI * 2 / INR 8 / 2)
     /\ normalizedAngle (INR 1 * (PI * 2 / INR 8) - PI / 8) = PI * 2 / INR 8 / 2
     /\ GalleryState.activeIndex (galleryState w') = 5%Z)
  /\ (exists w' eff,
        update 8 None (frame_at hidden_cursor 5000) (world_on_boundary 2)
        = Some (w', eff)
        /\ GalleryState.scrollCurrent (galleryState w') = PI / 8
        /\ GalleryState.activeIndex (galleryState w') = 2%Z).
Proof.
  split.
  - exact (boundary_frame 5).
  - destruct (boundary_frame 2) as (w' & eff & E & S & _ & _ & A).
    exists w', eff. auto.
Qed.

(** ** Layout on the ring *)

Lemma forEach_placed step sel hov sc :
  forall ms i0 sts a ms' sts' a',
    forEach (Finite step) sel hov sc i0 ms sts a = Some (ms', sts', a') ->
    forall k m', nth_error ms' k = Some m' ->
      exists m st st' ak,
        nth_error ms k = Some m /\ nth_error sts k = Some st
        /\ nth_error sts' k = Some st'
        /\ fst (place step sel hov sc (i0 + k) m st ak) = (m', st').
Proof.
  induction ms as [ | m ms IH]; intros i0 sts a ms' sts' a' H k m' Hk.
  - simpl in H. injection H as <- _ _. destruct k; discriminate.
  - destruct sts as [ | st sts]; [discriminate | ].
    cbn [forEach] in H.
    destruct (place step sel hov sc i0 m st a) as [[m1 st1] a1] eqn:P.
    destruct (forEach (Finite step) sel hov sc (S i0) ms sts a1) as [[[ms2 sts2] a2] | ] eqn:E;
      [ | discriminate].
    injection H as <- <- _.
    destruct k as [ | k].
    + simpl in Hk. injection Hk as <-.
      exists m, st, st1, a. rewrite Nat.add_0_r, P. simpl. auto.
    + simpl in Hk. destruct (IH _ _ _ _ _ _ E k m' Hk) as (m0 & st0 & st' & ak & A & B & C & D).
      exists m0, st0, st', ak. simpl. rewrite Nat.add_succ_r. auto.
Qed.

Lemma update_forEach (N : nat) sel f w :
  (0 < N)%nat -> length (meshes w) = N -> length (meshStates w) = N ->
  exists w' eff a',
    update N sel f w = Some (w', eff)
    /\ length (meshes w') = N /\ length (meshStates w') = N
    /\ forEach (Finite (PI * 2 / INR N)) sel
         (hoveredIndex sel (cursor f) (length (meshes w)) (hits f))
         (GalleryState.scrollCurrent (galleryState w')) 0
         (meshes w) (meshStates w) (GalleryState.activeIndex (galleryState w))
       = Some (meshes w', meshStates w', a').
Proof.
  intros HN Hm Hs. unfold update.
  destruct (pinch_logic _ _ _ _) as [[p l] o].
  rewrite angleStep_pos by exact HN.
  match goal with
  | |- context [forEach (Finite ?st) ?se ?ho ?sc ?i ?ms ?sts ?a] =>
    destruct (forEach_total st se ho sc ms i sts a) as (ms' & sts' & a' & E & L1 & L2);
      [congruence | ];
    rewrite E
  end.
  eexists; eexists; exists a'. split; [reflexivity | ]. cbn.
  repeat split; congruence.
Qed.

(** C7.  For a ring of [N >= 1] items a frame completes and places every
    item [i] at [angle = i * (2 PI / N) - scrollCurrent] (the smoothed scroll
    position of this frame): [x = R sin angle],
    [z = R cos angle - R + zOffset] with the item's smoothed [zOffset], and
    facing rotation [angle], on the radius [R = 6]; an item at angle 0 is at
    [x = 0], [z = zOffset]. *)
Theorem ring_layout (N : nat) sel f w :
  (1 <= N)%nat -> length (meshes w) = N -> length (meshStates w) = N ->
  exists w' eff,
    update N sel f w = Some (w', eff)
    /\ length (meshes w') = N /\ length (meshStates w') = N
    /\ forall i mesh', nth_error (meshes w') i = Some mesh' ->
         exists mState',
           nth_error (meshStates w') i = Some mState'
           /\ let angle :=
                INR i * (2 * PI / INR N)
                - GalleryState.scrollCurrent (galleryState w') in
              let R := 6 in
              position_x mesh' = R * sin angle
              /\ position_z mesh' = R * cos angle - R + zOffset mState'
              /\ rotation_y mesh' = angle
              /\ mesh_scale mesh' = scale mState'
              /\ (angle = 0 -> position_x mesh' = 0
                               /\ position_z mesh' = zOffset mState').
Proof.
  intros HN Hm Hs.
  destruct (update_forEach N sel f w HN Hm Hs) as (w' & eff & a' & E & L1 & L2 & F).
  exists w', eff. split; [exact E | ]. split; [exact L1 | ]. split; [exact L2 | ].
  intros i mesh' Hi.
  destruct (forEach_placed _ _ _ _ _ _ _ _ _ _ _ F i mesh' Hi)
    as (m & st & st' & ak & _ & _ & Hst & P).
  exists st'. split; [exact Hst | ].
  unfold place in P. cbn in P. injection P as <- <-. cbn.
  unfold Math_sin, Math_cos.
  replace (PI * 2 / INR N) with (2 * PI / INR N) by (unfold Rdiv; ring).
  set (angle := INR i * (2 * PI / INR N)
                - GalleryState.scrollCurrent (galleryState w')).
  clearbody angle.
  split; [ring | ]. split; [ring | ]. split; [reflexivity | ].
  split; [reflexivity | ].
  intros ->. rewrite sin_0, cos_0. split; ring.
Qed.

Lemma ring_layout_witness :
  exists w' eff,
    update 10 None (frame_at hidden_cursor 5000) (world (mount 10 None))
    = Some (w', eff)
    /\ length (meshes w') = 10%nat /\ length (meshStates w') = 10%nat
    /\ forall i mesh', nth_error (meshes w') i = Some mesh' ->
         exists mState',
           nth_error (meshStates w') i = Some mState'
           /\ let angle :=
                INR i * (2 * PI / INR 10)
                - GalleryState.scrollCurrent (galleryState w') in
              let R := 6 in
              position_x mesh' = R * sin angle
              /\ position_z mesh' = R * cos angle - R + zOffset mState'
              /\ rotation_y mesh' = angle
              /\ mesh_scale mesh' = scale mState'
              /\ (angle = 0 -> position_x mesh' = 0
                               /\ position_z mesh' = zOffset mState').
Proof.
  apply (ring_layout 10 None (frame_at hidden_cursor 5000) (world (mount 10 None)));
    [lia | reflexivity | reflexivity].
Defined.

(** ** The empty gallery *)

(** C9, as amended.  With no items the angle step is still computed, as
    [2 PI / 0], which is [Infinity]; no frame reads it.  A frame completes,
    places nothing, leaves [meshStates] and the active index as they were,
    and finds no hover candidate: [hoveredIndex] is -1 whatever the raycast
    reports. *)
Theorem empty_gallery_frame sel f w :
  meshes w = [] ->
  angleStep 0 = Infinity
  /\ exists w' eff,
       update 0 sel f w = Some (w', eff)
       /\ meshes w' = []
       /\ meshStates w' = meshStates w
       /\ GalleryState.activeIndex (galleryState w')
          = GalleryState.activeIndex (galleryState w)
       /\ hoveredIndex sel (cursor f) (length (meshes w)) (hits f) = (-1)%Z.
Proof.
  intros Hm. split; [exact angleStep_zero | ].
  unfold update. destruct (pinch_logic _ _ _ _) as [[p l] o].
  rewrite Hm.
  eexists; eexists. split; [reflexivity | ]. cbn.
  repeat split.
  unfold hoveredIndex.
  destruct (HandCursor.isVisible (cursor f) && negb (isDetailOpen sel)
            && negb (HandCursor.isPinching (cursor f))); [ | reflexivity].
  destruct (hits f); reflexivity.
Qed.

Lemma empty_gallery_frame_witness :
  angleStep 0 = Infinity
  /\ exists w' eff,
       update 0 None
         {| t := 0; cursor := open_at_centre; now := 5000; hits := [0%nat] |}
         (world (mount 0 None)) = Some (w', eff)
       /\ meshes w' = []
       /\ meshStates w' = []
       /\ GalleryState.activeIndex (galleryState w') = 0%Z
       /\ hoveredIndex None open_at_centre 0 [0%nat] = (-1)%Z.
Proof.
  apply (empty_gallery_frame None
           {| t := 0; cursor := open_at_centre; now := 5000; hits := [0%nat] |}
           (world (mount 0 None))).
  reflexivity.
Defined.

(** C9 as the specification words it fails on the division: with no
    items the divisor of [angleStep] is 0 and the result is not a finite
    number. *)
Lemma angleStep_divides_by_zero :
  INR 0 = 0
  /\ angleStep 0 = js_div (Math_PI * 2) (INR 0)
  /\ angleStep 0 = Infinity
  /\ forall r, angleStep 0 <> Finite r.
Proof.
  split; [reflexivity | ]. split; [reflexivity | ].
  split; [exact angleStep_zero | ].
  intros r. rewrite angleStep_zero. discriminate.
Qed.

(** ** The active index across a change of the item set *)

Lemma scan_front (N : nat) sc i a :
  (0 < N)%nat -> (i < N)%nat -> hit (PI * 2 / INR N) sc i = true ->
  scan (PI * 2 / INR N) sc 0 N a = Z.of_nat i.
Proof.
  intros HN Hi Hh. apply scan_unique; [lia | exact Hh | ].
  intros j Hj Hj'. apply hit_spec in Hj', Hh.
  destruct (Nat.eq_dec j i) as [ | Hne]; [assumption | exfalso].
  destruct (hit_closest N sc i j) as [_ C]; try assumption; try lia.
  lra.
Qed.

(** Everything a frame does to the gallery state of a non-empty ring. *)
Lemma step_tick_full f s :
  wf s -> (0 < count s)%nat ->
  exists s' eff,
    step (Tick f) s = Some (s', Some eff)
    /\ wf s' /\ count s' = count s /\ selectedIndex s' = selectedIndex s
    /\ GalleryState.scrollTarget (galleryState (world s'))
       = scroll_logic (selectedIndex s) (cursor f)
           (GalleryState.scrollTarget (galleryState (world s)))
    /\ GalleryState.scrollCurrent (galleryState (world s'))
       = lerp (GalleryState.scrollCurrent (galleryState (world s)))
           (GalleryState.scrollTarget (galleryState (world s'))) 0.1
    /\ GalleryState.activeIndex (galleryState (world s'))
       = (if isDetailOpen (selectedIndex s)
          then GalleryState.activeIndex (galleryState (world s))
          else scan (PI * 2 / INR (count s))
                 (GalleryState.scrollCurrent (galleryState (world s'))) 0 (count s)
                 (GalleryState.activeIndex (galleryState (world s))))
    /\ GalleryState.isPinching (galleryState (world s')) = actionable (cursor f)
    /\ GalleryState.lastPinchTime (galleryState (world s'))
       = (if fire_cond (cursor f) (now f) (galleryState (world s))
          then now f else GalleryState.lastPinchTime (galleryState (world s)))
    /\ onItemSelect eff
       = (if fire_cond (cursor f) (now f) (galleryState (world s))
          then Some (targetIndex
                       (hoveredIndex (selectedIndex s) (cursor f) (count s) (hits f))
                       (GalleryState.activeIndex (galleryState (world s))))
          else None).
Proof.
  intros Hwf HN.
  destruct (step_tick f s Hwf) as (s' & eff & E & W & C & S & P & L & O).
  exists s', eff. repeat (split; [assumption | ]).
  destruct Hwf as [Hm Hs].
  destruct (update_activeIndex (count s) (selectedIndex s) f (world s) HN Hm Hs)
    as (w' & eff' & E' & A).
  unfold step in E. rewrite E' in E. injection E as <- <-. cbn [world].
  destruct (update_scrollTarget _ _ _ _ _ _ E') as (T & Cu & _).
  repeat split; assumption.
Qed.

(** A frame and a change of the selection keep a valid active index
    valid; mounting a non-empty gallery starts with one. *)
Lemma valid_activeIndex_kept e s :
  wf s -> (0 < count s)%nat -> valid_activeIndex s ->
  (forall n, e <> SetItems n) ->
  exists s' eff, step e s = Some (s', eff) /\ valid_activeIndex s'.
Proof.
  intros Hwf HN V Hne. destruct e as [f | sel | n].
  - destruct (step_tick_full f s Hwf HN) as (s' & eff & E & _ & C & _ & _ & _ & A & _).
    exists s', (Some eff). split; [exact E | ].
    unfold valid_activeIndex in *. rewrite A, C.
    destruct (isDetailOpen (selectedIndex s)); [exact V | ].
    destruct (scan_range (PI * 2 / INR (count s))
                (GalleryState.scrollCurrent (galleryState (world s')))
                (count s) 0 (GalleryState.activeIndex (galleryState (world s))))
      as [R | R]; [rewrite R; exact V | lia].
  - eexists; eexists. split; [reflexivity | exact V].
  - contradiction (Hne n). reflexivity.
Qed.

Lemma valid_activeIndex_mount n sel : (0 < n)%nat -> valid_activeIndex (mount n sel).
Proof. intros Hn. unfold valid_activeIndex. cbn. lia. Qed.

Lemma run_app l1 :
  forall l2 s,
    run (l1 ++ l2) s
    = match run l1 s with
      | Some (s1, log1) =>
        match run l2 s1 with
        | Some (s2, log2) => Some (s2, log1 ++ log2)
        | None => None
        end
      | None => None
      end.
Proof.
  induction l1 as [ | e l1 IH]; intros l2 s.
  - simpl. destruct (run l2 s) as [[s2 log2] | ]; reflexivity.
  - cbn [run app]. destruct (step e s) as [[s1 eff] | ]; [ | reflexivity].
    rewrite IH. destruct (run l1 s1) as [[s1' log1] | ]; [ | reflexivity].
    destruct (run l2 s1') as [[s2 log2] | ]; [ | reflexivity].
    rewrite app_assoc. reflexivity.
Qed.

Lemma Rpower_base_1 e : Rpower 1 e = 1.
Proof. unfold Rpower. rewrite ln_1, Rmult_0_r. apply exp_0. Qed.

Lemma targetSpeed_left_edge : targetSpeed None cursor_left_edge = -0.2.
Proof.
  rewrite targetSpeed_left by (cbn; auto; lra). cbn [cursor_left_edge HandCursor.x].
  replace ((0.35 - 0) / 0.35) with 1 by lra. rewrite Rpower_base_1. lra.
Qed.

Lemma run_scroll_left ms :
  forall n s,
    wf s -> (0 < count s)%nat -> selectedIndex s = None ->
    exists s' log,
      run (repeat (Tick (frame_at cursor_left_edge ms)) n) s = Some (s', log)
      /\ wf s' /\ count s' = count s /\ selectedIndex s' = None
      /\ (GalleryState.scrollCurrent (galleryState (world s')),
          GalleryState.scrollTarget (galleryState (world s')))
         = scroll_left n (GalleryState.scrollCurrent (galleryState (world s)))
             (GalleryState.scrollTarget (galleryState (world s)))
      /\ GalleryState.lastPinchTime (galleryState (world s'))
         = GalleryState.lastPinchTime (galleryState (world s))
      /\ ((0 < n)%nat ->
          GalleryState.isPinching (galleryState (world s')) = false
          /\ exists a,
               GalleryState.activeIndex (galleryState (world s'))
               = scan (PI * 2 / INR (count s))
                   (GalleryState.scrollCurrent (galleryState (world s'))) 0
                   (count s) a).
Proof.
  induction n as [ | n IH]; intros s Hwf HN Hsel.
  - exists s, []. simpl.
    split; [reflexivity | ]. split; [exact Hwf | ]. split; [reflexivity | ].
    split; [exact Hsel | ]. split; [reflexivity | ]. split; [reflexivity | ].
    intros H. lia.
  - destruct (step_tick_full (frame_at cursor_left_edge ms) s Hwf HN)
      as (s1 & eff & E & W1 & C1 & S1 & T1 & Cu1 & A1 & P1 & L1 & _).
    rewrite Hsel in *. cbn [frame_at cursor now isDetailOpen] in *.
    assert (Act : actionable cursor_left_edge = false) by apply andb_false_r.
    assert (F : fire_cond cursor_left_edge ms (galleryState (world s)) = false)
      by (unfold fire_cond, rising_edge; rewrite Act; reflexivity).
    rewrite F in L1. rewrite Act in P1.
    destruct (IH s1 W1 ltac:(lia) S1) as (s' & log & R & W' & C' & S' & Sc & L' & Last).
    cbn [repeat run]. rewrite E, R.
    eexists; eexists. split; [reflexivity | ].
    split; [exact W' | ]. split; [congruence | ]. split; [exact S' | ].
    split.
    { rewrite Sc. cbn [scroll_left]. rewrite Cu1, T1.
      unfold scroll_logic.
      change (HandCursor.isVisible cursor_left_edge) with true.
      cbn [isDetailOpen negb andb]. rewrite targetSpeed_left_edge. reflexivity. }
    split; [congruence | ].
    intros _. destruct n as [ | n].
    + cbn in R. injection R as <- _. split; [exact P1 | ].
      eexists. exact A1.
    + rewrite <- C1. apply Last. lia.
Qed.

Lemma scroll_left_7 : scroll_left 7 0 0 = (-0.46093442, -1.4).
Proof. cbn [scroll_left]. unfold lerp. f_equal; lra. Qed.

Lemma PI_bounds : 3 < PI <= 4.
Proof. split; [pose proof PI2_3_2; lra | exact PI_4]. Qed.

(** After seven frames at full speed to the left, item 9 of ten is in
    front. *)
Lemma hit_9_after_scroll_left :
  hit (PI * 2 / INR 10) (-0.46093442) 9 = true.
Proof.
  pose proof PI_bounds as Hpi.
  assert (I10 : INR 10 = 10) by (simpl; lra).
  assert (I9 : INR 9 = 9) by (simpl; lra).
  apply hit_spec. rewrite I10, I9.
  rewrite (normalizedAngle_wrap _ (0.46093442 - PI * 2 / 10) 1)
    by (simpl; lra).
  unfold Rabs. destruct (Rcase_abs (0.46093442 - PI * 2 / 10)); lra.
Qed.

(** C5 on the code: the effect that resets the scroll position when the
    items change leaves [activeIndex] alone.  From a fresh ten-item
    gallery, seven frames at full speed to the left make item 9 active;
    replacing the items by three then leaves a state whose active index, 9,
    is not an index into the three items, and a pinch in the next frame
    passes 9 to [onItemSelect], which [handleItemSelect] stores as the
    selected item. *)
Theorem stale_activeIndex_after_items_change :
  exists s log,
    run (repeat (Tick (frame_at cursor_left_edge 5000)) 7 ++ [SetItems 3])
      (mount 10 None) = Some (s, log)
    /\ wf s /\ count s = 3%nat
    /\ GalleryState.activeIndex (galleryState (world s)) = 9%Z
    /\ ~ valid_activeIndex s
    /\ exists s2 eff,
         step (Tick (frame_at pinch_at_centre 9000)) s = Some (s2, Some eff)
         /\ onItemSelect eff = Some 9%Z
         /\ App.handleItemSelect 9 None = Some 9%Z.
Proof.
  destruct (run_scroll_left 5000 7 (mount 10 None) (wf_mount 10 None))
    as (s7 & log7 & R & W7 & C7 & S7 & Sc & L7 & Last); [cbn; lia | reflexivity | ].
  destruct (Last ltac:(lia)) as [P7 [a A7]].
  cbn [mount world setup galleryState GalleryState.scrollCurrent
       GalleryState.scrollTarget GalleryState.lastPinchTime count] in Sc, L7, A7.
  rewrite scroll_left_7 in Sc. injection Sc as Sc _.
  rewrite Sc in A7. rewrite (scan_front 10 _ 9) in A7;
    [ | lia | lia | exact hit_9_after_scroll_left].
  rewrite run_app, R. cbn [run step].
  set (s := {| count := 3; selectedIndex := selectedIndex s7;
               world := setup 3 (reset_items (galleryState (world s7)))
                          (repeat fresh_meshState 3) |}).
  assert (Ws : wf s) by (split; reflexivity).
  exists s, (log7 ++ observe (SetItems 3) s7 None ++ []).
  split; [reflexivity | ]. split; [exact Ws | ]. split; [reflexivity | ].
  split; [exact A7 | ]. split.
  { unfold valid_activeIndex. cbn. rewrite A7. lia. }
  destruct (step_tick (frame_at pinch_at_centre 9000) s Ws)
    as (s2 & eff & E & _ & _ & _ & _ & _ & O).
  exists s2, eff. split; [exact E | ]. rewrite O.
  cbn [frame_at cursor now].
  assert (F : fire_cond pinch_at_centre 9000 (galleryState (world s)) = true).
  { unfold fire_cond, rising_edge. rewrite actionable_pinch_at_centre.
    cbn. rewrite P7, L7. reflexivity. }
  rewrite F, hoveredIndex_pinching by reflexivity.
  cbn. rewrite A7. split; reflexivity.
Qed.

(** * Further properties of the code *)

(** ** The speed curve *)

Lemma targetSpeed_suspended sel c :
  isDetailOpen sel = true \/ HandCursor.isVisible c = false ->
  targetSpeed sel c = 0.
Proof.
  intros [H | H]; unfold targetSpeed; rewrite H; cbn [negb andb];
    [reflexivity | rewrite andb_false_r; reflexivity].
Qed.

Lemma targetSpeed_active sel c :
  isDetailOpen sel = false -> targetSpeed sel c = targetSpeed None c.
Proof. destruct sel; [discriminate | reflexivity]. Qed.

Lemma Rpower_unit b : 0 < b <= 1 -> 0 < Rpower b 0.6 <= 1.
Proof.
  intros Hb. split; [apply exp_pos | ].
  rewrite <- (Rpower_base_1 0.6). apply Rle_Rpower_l; lra.
Qed.

(** The speed of a visible cursor with no detail view open, by zone. *)
Lemma targetSpeed_zone c :
  HandCursor.isVisible c = true ->
  (0.65 < HandCursor.x c -> 0 < targetSpeed None c)
  /\ (HandCursor.x c < 0.35 -> targetSpeed None c < 0)
  /\ (0.35 <= HandCursor.x c <= 0.65 -> targetSpeed None c = 0).
Proof.
  intros V. split; [ | split].
  - intros H. rewrite targetSpeed_right by assumption.
    pose proof (exp_pos (0.6 * ln ((HandCursor.x c - 0.65) / 0.35))).
    unfold Rpower. lra.
  - intros H. rewrite targetSpeed_left by assumption.
    pose proof (exp_pos (0.6 * ln ((0.35 - HandCursor.x c) / 0.35))).
    unfold Rpower. lra.
  - apply targetSpeed_dead_zone. exact V.
Qed.

Lemma targetSpeed_range sel c :
  0 <= HandCursor.x c <= 1 -> -0.2 <= targetSpeed sel c <= 0.2.
Proof.
  intros Hx.
  destruct (isDetailOpen sel) eqn:D.
  { rewrite targetSpeed_suspended by auto. lra. }
  rewrite (targetSpeed_active _ _ D).
  destruct (HandCursor.isVisible c) eqn:V.
  2: { rewrite targetSpeed_suspended by auto. lra. }
  destruct (Rlt_dec 0.65 (HandCursor.x c)) as [R | R].
  - rewrite targetSpeed_right by assumption.
    destruct (Rpower_unit ((HandCursor.x c - 0.65) / 0.35)) as [A B]; [ | lra].
    split; [apply Rdiv_lt_0_compat; lra | ].
    apply Rmult_le_reg_r with 0.35; [lra | ].
    unfold Rdiv. rewrite Rmult_assoc, Rinv_l by lra. lra.
  - destruct (Rlt_dec (HandCursor.x c) 0.35) as [L | L].
    + rewrite targetSpeed_left by assumption.
      destruct (Rpower_unit ((0.35 - HandCursor.x c) / 0.35)) as [A B]; [ | lra].
      split; [apply Rdiv_lt_0_compat; lra | ].
      apply Rmult_le_reg_r with 0.35; [lra | ].
      unfold Rdiv. rewrite Rmult_assoc, Rinv_l by lra. lra.
    + rewrite targetSpeed_dead_zone by (auto; lra). lra.
Qed.

(** X1.  For a cursor with [x] in [0, 1] the scroll speed lies in
    [-0.2, 0.2], whatever the selection and the visibility; a visible cursor
    with no detail view open reaches -0.2 at the left border and 0.2 at the
    right border. *)
Theorem targetSpeed_bounded sel c :
  0 <= HandCursor.x c <= 1 ->
  -0.2 <= targetSpeed sel c <= 0.2
  /\ (HandCursor.isVisible c = true ->
      (HandCursor.x c = 0 -> targetSpeed None c = -0.2)
      /\ (HandCursor.x c = 1 -> targetSpeed None c = 0.2)).
Proof.
  intros Hx. split; [apply targetSpeed_range; exact Hx | ].
  intros V. split; intros E.
  - rewrite targetSpeed_left by (auto; lra). rewrite E.
    replace ((0.35 - 0) / 0.35) with 1 by lra. rewrite Rpower_base_1. lra.
  - rewrite targetSpeed_right by (auto; lra). rewrite E.
    replace ((1 - 0.65) / 0.35) with 1 by lra. rewrite Rpower_base_1. lra.
Qed.

Lemma targetSpeed_bounded_witness :
  -0.2 <= targetSpeed None cursor_09 <= 0.2.
Proof.
  apply (targetSpeed_bounded None cursor_09). cbn. lra.
Defined.

(** X2.  The speed curve is odd about the centre line: reflecting the
    cursor horizontally negates the speed. *)
Theorem targetSpeed_mirrored sel c :
  targetSpeed sel (mirrored c) = - targetSpeed sel c.
Proof.
  destruct (isDetailOpen sel) eqn:D.
  { rewrite !targetSpeed_suspended by auto. ring. }
  rewrite !(targetSpeed_active _ _ D).
  destruct (HandCursor.isVisible c) eqn:V.
  2: { rewrite !targetSpeed_suspended by auto. ring. }
  assert (V' : HandCursor.isVisible (mirrored c) = true) by exact V.
  assert (X' : HandCursor.x (mirrored c) = 1 - HandCursor.x c) by reflexivity.
  destruct (Rlt_dec 0.65 (HandCursor.x c)) as [R | R].
  - rewrite (targetSpeed_right c) by assumption.
    rewrite (targetSpeed_left (mirrored c)) by (auto; rewrite X'; lra).
    rewrite X'. replace ((0.35 - (1 - HandCursor.x c)) / 0.35)
      with ((HandCursor.x c - 0.65) / 0.35) by lra. ring.
  - destruct (Rlt_dec (HandCursor.x c) 0.35) as [L | L].
    + rewrite (targetSpeed_left c) by assumption.
      rewrite (targetSpeed_right (mirrored c)) by (auto; rewrite X'; lra).
      rewrite X'. replace ((1 - HandCursor.x c - 0.65) / 0.35)
        with ((0.35 - HandCursor.x c) / 0.35) by lra. ring.
    + rewrite (targetSpeed_dead_zone c) by (auto; lra).
      rewrite (targetSpeed_dead_zone (mirrored c)) by (auto; rewrite X'; lra).
      ring.
Qed.

(** X3.  The speed never decreases as the cursor moves right, and for a
    visible cursor with no detail view open it is positive exactly right of
    0.65 and negative exactly left of 0.35. *)
Theorem targetSpeed_monotone sel c x1 x2 :
  x1 <= x2 ->
  targetSpeed sel (at_x x1 c) <= targetSpeed sel (at_x x2 c)
  /\ (HandCursor.isVisible c = true ->
      (0 < targetSpeed None (at_x x1 c) <-> 0.65 < x1)
      /\ (targetSpeed None (at_x x1 c) < 0 <-> x1 < 0.35)).
Proof.
  intros Hle. split.
  - destruct (isDetailOpen sel) eqn:D.
    { rewrite !targetSpeed_suspended by auto. lra. }
    rewrite !(targetSpeed_active _ _ D).
    destruct (HandCursor.isVisible c) eqn:V.
    2: { rewrite !targetSpeed_suspended by auto. lra. }
    destruct (targetSpeed_zone (at_x x1 c) V) as (P1 & N1 & Z1).
    destruct (targetSpeed_zone (at_x x2 c) V) as (P2 & N2 & Z2).
    cbn [at_x HandCursor.x] in *.
    destruct (Rlt_dec x2 0.35) as [A | A].
    { rewrite (targetSpeed_left (at_x x1 c)), (targetSpeed_left (at_x x2 c))
        by (auto; cbn; lra). cbn [at_x HandCursor.x].
      assert (Rpower ((0.35 - x2) / 0.35) 0.6 <= Rpower ((0.35 - x1) / 0.35) 0.6).
      { apply Rle_Rpower_l; [lra | ]. split.
        - apply Rdiv_lt_0_compat; lra.
        - apply Rmult_le_compat_r; [ | lra].
          apply Rlt_le, Rinv_0_lt_compat. lra. }
      lra. }
    destruct (Rlt_dec 0.65 x1) as [B | B].
    { rewrite (targetSpeed_right (at_x x1 c)), (targetSpeed_right (at_x x2 c))
        by (auto; cbn; lra). cbn [at_x HandCursor.x].
      assert (Rpower ((x1 - 0.65) / 0.35) 0.6 <= Rpower ((x2 - 0.65) / 0.35) 0.6).
      { apply Rle_Rpower_l; [lra | ]. split.
        - apply Rdiv_lt_0_compat; lra.
        - apply Rmult_le_compat_r; [ | lra].
          apply Rlt_le, Rinv_0_lt_compat. lra. }
      lra. }
    assert (L1 : targetSpeed None (at_x x1 c) <= 0).
    { destruct (Rlt_dec x1 0.35); [apply Rlt_le, N1; assumption | ].
      rewrite Z1 by lra. lra. }
    assert (L2 : 0 <= targetSpeed None (at_x x2 c)).
    { destruct (Rlt_dec 0.65 x2); [apply Rlt_le, P2; assumption | ].
      rewrite Z2 by lra. lra. }
    lra.
  - intros V. destruct (targetSpeed_zone (at_x x1 c) V) as (P1 & N1 & Z1).
    cbn [at_x HandCursor.x] in *.
    split; split; intros H; auto.
    + destruct (Rlt_dec 0.65 x1); [assumption | exfalso].
      destruct (Rlt_dec x1 0.35) as [L | L]; [specialize (N1 L); lra | ].
      rewrite Z1 in H by lra. lra.
    + destruct (Rlt_dec x1 0.35); [assumption | exfalso].
      destruct (Rlt_dec 0.65 x1) as [L | L]; [specialize (P1 L); lra | ].
      rewrite Z1 in H by lra. lra.
Qed.

Lemma targetSpeed_monotone_witness :
  targetSpeed None (at_x 0.7 cursor_09) <= targetSpeed None (at_x 0.9 cursor_09).
Proof.
  apply (targetSpeed_monotone None cursor_09 0.7 0.9). lra.
Defined.

(** ** What a frame writes *)

Lemma update_fields n sel f w w' eff :
  update n sel f w = Some (w', eff) ->
  scene w' = tilt_logic (cursor f) (scene w)
  /\ ring w'
     = {| uTime := t f * 0.001;
          uSpeed := targetSpeed sel (cursor f);
          ring_rotation_z :=
            ring_rotation_z (ring w) - targetSpeed sel (cursor f) * 0.5 |}
  /\ updateDrone eff = targetSpeed sel (cursor f)
  /\ playSelectSound eff
     = match onItemSelect eff with Some _ => true | None => false end
  /\ forEach (angleStep n) sel
       (hoveredIndex sel (cursor f) (length (meshes w)) (hits f))
       (GalleryState.scrollCurrent (galleryState w')) 0
       (meshes w) (meshStates w) (GalleryState.activeIndex (galleryState w))
     = Some (meshes w', meshStates w',
             GalleryState.activeIndex (galleryState w')).
Proof.
  unfold update. destruct (pinch_logic _ _ _ _) as [[p l] o].
  match goal with
  | |- match ?P with _ => _ end = _ -> _ =>
    destruct P as [[[ms' sts'] a'] | ] eqn:F
  end; [ | discriminate].
  intros H. injection H as <- <-. cbn. auto.
Qed.

Lemma forEach_frozen stp sel hov sc :
  isDetailOpen sel = true ->
  forall ms i sts a ms' sts' a',
    forEach stp sel hov sc i ms sts a = Some (ms', sts', a') -> a' = a.
Proof.
  intros D. induction ms as [ | m ms IH]; intros i sts a ms' sts' a' H.
  - simpl in H. injection H as _ _ <-. reflexivity.
  - destruct sts as [ | st sts]; [discriminate | ].
    destruct stp as [step | | | ]; try discriminate.
    cbn [forEach] in H.
    pose proof (place_active step sel hov sc i m st a) as PA. rewrite D in PA.
    destruct (place step sel hov sc i m st a) as [[m1 st1] a1].
    destruct (forEach (Finite step) sel hov sc (S i) ms sts a1)
      as [[[ms2 sts2] a2] | ] eqn:E; [ | discriminate].
    injection H as _ _ <-. apply IH in E. cbn in PA. congruence.
Qed.

Lemma lerp_between lo hi v tg :
  lo <= v <= hi -> lo <= tg <= hi -> lo <= lerp v tg 0.1 <= hi.
Proof. unfold lerp. intros. lra. Qed.

Lemma place_bounded step sel hov sc i m st a :
  meshState_bounded st -> mesh_bounded m ->
  meshState_bounded (snd (fst (place step sel hov sc i m st a)))
  /\ mesh_bounded (fst (fst (place step sel hov sc i m st a))).
Proof.
  intros [S1 S2] [M1 M2]. unfold place, meshState_bounded, mesh_bounded. cbn.
  split; split;
    repeat match goal with
           | |- context [if ?b then _ else _] => destruct b
           end;
    apply lerp_between; lra.
Qed.

Lemma forEach_bounded stp sel hov sc :
  forall ms i sts a ms' sts' a',
    forEach stp sel hov sc i ms sts a = Some (ms', sts', a') ->
    Forall meshState_bounded sts -> Forall mesh_bounded ms ->
    Forall meshState_bounded sts' /\ Forall mesh_bounded ms'.
Proof.
  induction ms as [ | m ms IH]; intros i sts a ms' sts' a' H HS HM.
  - simpl in H. injection H as <- <- _. auto.
  - destruct sts as [ | st sts]; [discriminate | ].
    destruct stp as [step | | | ]; try discriminate.
    cbn [forEach] in H.
    apply Forall_cons_iff in HS, HM. destruct HS as [S0 HS], HM as [M0 HM].
    pose proof (place_bounded step sel hov sc i m st a S0 M0) as [PB1 PB2].
    destruct (place step sel hov sc i m st a) as [[m1 st1] a1].
    destruct (forEach (Finite step) sel hov sc (S i) ms sts a1)
      as [[[ms2 sts2] a2] | ] eqn:E; [ | discriminate].
    injection H as <- <- _.
    destruct (IH _ _ _ _ _ _ E HS HM) as [A B]. cbn in PB1, PB2.
    split; constructor; assumption.
Qed.

(** ** Invariants over sequences of events *)

Lemma step_props_kept sel s :
  wf s ->
  exists s',
    step (SetSelected sel) s = Some (s', None)
    /\ wf s' /\ count s' = count s /\ selectedIndex s' = sel
    /\ galleryState (world s') = galleryState (world s)
    /\ meshStates (world s') = meshStates (world s)
    /\ meshes (world s') = repeat fresh_mesh (count s)
    /\ scene (world s') = {| rotation_x := 0; rotation_z := 0 |}.
Proof.
  intros [_ Hs]. eexists. split; [reflexivity | ].
  split; [split; cbn; [apply repeat_length | exact Hs] | ].
  cbn. auto 10.
Qed.

Lemma step_items_reset n s :
  exists s',
    step (SetItems n) s = Some (s', None)
    /\ wf s' /\ count s' = n /\ selectedIndex s' = selectedIndex s
    /\ galleryState (world s') = reset_items (galleryState (world s))
    /\ meshStates (world s') = repeat fresh_meshState n
    /\ meshes (world s') = repeat fresh_mesh n
    /\ scene (world s') = {| rotation_x := 0; rotation_z := 0 |}.
Proof.
  eexists. split; [reflexivity | ].
  split; [split; cbn; apply repeat_length | ].
  cbn. auto 10.
Qed.

Lemma run_invariant (P : Gallery -> Prop) (Q : Event -> Prop) (R : Obs -> Prop) :
  (forall e s, Q e -> wf s -> P s ->
     exists s' eff,
       step e s = Some (s', eff) /\ wf s' /\ P s'
       /\ Forall R (observe e s eff)) ->
  forall evs s, Forall Q evs -> wf s -> P s ->
    exists s' log,
      run evs s = Some (s', log) /\ wf s' /\ P s' /\ Forall R log.
Proof.
  intros Hstep. induction evs as [ | e evs IH]; intros s HQ Hwf HP.
  - exists s, []. simpl. auto.
  - apply Forall_cons_iff in HQ. destruct HQ as [Qe HQ].
    destruct (Hstep e s Qe Hwf HP) as (s1 & eff & E & W1 & P1 & R1).
    destruct (IH s1 HQ W1 P1) as (s' & log & E' & W' & P' & R').
    cbn [run]. rewrite E, E'. eexists; eexists. split; [reflexivity | ].
    split; [exact W' | ]. split; [exact P' | ].
    apply Forall_app. auto.
Qed.

(** A frame on a well-formed gallery, with the world it leaves. *)
Lemma step_tick_world f s :
  wf s ->
  exists w' eff,
    update (count s) (selectedIndex s) f (world s) = Some (w', eff)
    /\ step (Tick f) s
       = Some ({| count := count s; selectedIndex := selectedIndex s;
                  world := w' |}, Some eff)
    /\ wf {| count := count s; selectedIndex := selectedIndex s; world := w' |}.
Proof.
  intros [Hm Hs].
  destruct (update_pinch (count s) (selectedIndex s) f (world s) Hm Hs)
    as (w' & eff & E & L1 & L2 & _).
  exists w', eff. split; [exact E | ]. unfold step. rewrite E.
  split; [reflexivity | ]. split; assumption.
Qed.

Lemma Rabs_le_iff a b : Rabs a <= b <-> - b <= a <= b.
Proof. unfold Rabs. destruct (Rcase_abs a); split; intros; lra. Qed.

Lemma scroll_logic_increment sel c tg :
  0 <= HandCursor.x c <= 1 -> -0.2 <= scroll_logic sel c tg - tg <= 0.2.
Proof.
  intros Hx. unfold scroll_logic.
  destruct (negb (isDetailOpen sel) && HandCursor.isVisible c).
  - pose proof (targetSpeed_range sel c Hx). lra.
  - lra.
Qed.

Lemma scroll_logic_suspended sel c tg :
  isDetailOpen sel = true \/ HandCursor.isVisible c = false ->
  scroll_logic sel c tg = tg.
Proof.
  intros [H | H]; unfold scroll_logic; rewrite H; cbn [negb andb];
    [reflexivity | rewrite andb_false_r; reflexivity].
Qed.

Lemma hoveredIndex_suspended sel c n hs :
  isDetailOpen sel = true \/ HandCursor.isVisible c = false ->
  hoveredIndex sel c n hs = (-1)%Z.
Proof.
  intros [H | H]; unfold hoveredIndex; rewrite H; cbn [negb andb];
    [rewrite andb_false_r | ]; reflexivity.
Qed.

Lemma actionable_hidden c : HandCursor.isVisible c = false -> actionable c = false.
Proof. intros H. unfold actionable. rewrite H. reflexivity. Qed.

(** X4.  While a detail view is open or the cursor is hidden, a frame
    leaves the scroll target and the ring rotation alone, sends speed 0 to
    the ring and the drone, and finds no hover; the scroll position still
    eases on, closing a tenth of its distance to the target.  With a detail
    view open the active index is not recomputed; with the cursor hidden
    nothing is selected and the pinch-held flag is cleared. *)
Theorem scroll_suspended n sel f w :
  length (meshes w) = n -> length (meshStates w) = n ->
  isDetailOpen sel = true \/ HandCursor.isVisible (cursor f) = false ->
  exists w' eff,
    update n sel f w = Some (w', eff)
    /\ GalleryState.scrollTarget (galleryState w')
       = GalleryState.scrollTarget (galleryState w)
    /\ GalleryState.scrollTarget (galleryState w')
       - GalleryState.scrollCurrent (galleryState w')
       = 0.9 * (GalleryState.scrollTarget (galleryState w)
                - GalleryState.scrollCurrent (galleryState w))
    /\ updateDrone eff = 0 /\ uSpeed (ring w') = 0
    /\ ring_rotation_z (ring w') = ring_rotation_z (ring w)
    /\ hoveredIndex sel (cursor f) (length (meshes w)) (hits f) = (-1)%Z
    /\ (isDetailOpen sel = true ->
        GalleryState.activeIndex (galleryState w')
        = GalleryState.activeIndex (galleryState w))
    /\ (HandCursor.isVisible (cursor f) = false ->
        onItemSelect eff = None /\ playSelectSound eff = false
        /\ GalleryState.isPinching (galleryState w') = false).
Proof.
  intros Hm Hs Hsus.
  destruct (update_pinch n sel f w Hm Hs) as (w' & eff & E & _ & _ & P).
  exists w', eff. split; [exact E | ].
  destruct (update_scrollTarget _ _ _ _ _ _ E) as (T & C & _).
  destruct (update_fields _ _ _ _ _ _ E) as (_ & Rg & Dr & Ps & F).
  rewrite (scroll_logic_suspended _ _ _ Hsus) in T.
  rewrite (targetSpeed_suspended _ _ Hsus) in Rg, Dr.
  split; [exact T | ]. split; [rewrite C, T; unfold lerp; lra | ].
  split; [exact Dr | ]. rewrite Rg. cbn [uSpeed ring_rotation_z].
  split; [reflexivity | ]. split; [lra | ].
  split; [apply hoveredIndex_suspended; exact Hsus | ].
  split.
  - intros D. exact (forEach_frozen _ _ _ _ D _ _ _ _ _ _ _ F).
  - intros V. rewrite pinch_logic_spec in P. injection P as P1 _ P3.
    assert (A : actionable (cursor f) = false) by (apply actionable_hidden; exact V).
    assert (Fc : fire_cond (cursor f) (now f) (galleryState w) = false)
      by (unfold fire_cond, rising_edge; rewrite A; reflexivity).
    rewrite Fc in P3. rewrite Ps, P3, P1, A. auto.
Qed.

Lemma scroll_suspended_witness :
  exists w' eff,
    update 10 None (frame_at hidden_cursor 5000) world_active_3 = Some (w', eff)
    /\ GalleryState.scrollTarget (galleryState w')
       = GalleryState.scrollTarget (galleryState world_active_3)
    /\ onItemSelect eff = None.
Proof.
  destruct (scroll_suspended 10 None (frame_at hidden_cursor 5000) world_active_3
              eq_refl eq_refl (or_intror eq_refl))
    as (w' & eff & E & T & _ & _ & _ & _ & _ & _ & H).
  exists w', eff. split; [exact E | ]. split; [exact T | ].
  apply H. reflexivity.
Defined.

(** ** The scroll position trails its target by a bounded distance *)

Lemma tick_lag f s :
  wf s -> 0 <= HandCursor.x (cursor f) <= 1 ->
  exists s' eff,
    step (Tick f) s = Some (s', Some eff) /\ wf s'
    /\ (exists v, -0.2 <= v <= 0.2
                  /\ lag s' = 0.9 * (lag s + v)
                  /\ GalleryState.scrollCurrent (galleryState (world s'))
                     - GalleryState.scrollCurrent (galleryState (world s))
                     = 0.1 * (lag s + v)).
Proof.
  intros Hwf Hx.
  destruct (step_tick_world f s Hwf) as (w' & eff & E & St & W').
  eexists; exists eff. split; [exact St | ]. split; [exact W' | ].
  destruct (update_scrollTarget _ _ _ _ _ _ E) as (T & C & _).
  exists (scroll_logic (selectedIndex s) (cursor f)
            (GalleryState.scrollTarget (galleryState (world s)))
          - GalleryState.scrollTarget (galleryState (world s))).
  split; [apply scroll_logic_increment; exact Hx | ].
  unfold lag. cbn [world]. rewrite C, T. unfold lerp. split; lra.
Qed.

(** X5.  Over any sequence of frames with the cursor's [x] in [0, 1],
    selection changes and item changes, the scroll target stays within 1.8
    rad of the scroll position once it is (as at mount), and from such a
    state no frame moves the scroll position by more than 0.2 rad. *)
Theorem scroll_lag_bounded evs s :
  wf s -> Rabs (lag s) <= 1.8 -> Forall tracked evs ->
  exists s' log,
    run evs s = Some (s', log)
    /\ Rabs (lag s') <= 1.8
    /\ forall f, in_view (cursor f) ->
         exists s2 eff,
           step (Tick f) s' = Some (s2, Some eff)
           /\ Rabs (GalleryState.scrollCurrent (galleryState (world s2))
                    - GalleryState.scrollCurrent (galleryState (world s')))
              <= 0.2.
Proof.
  intros Hwf Hlag Htr.
  destruct (run_invariant (fun s => Rabs (lag s) <= 1.8) tracked (fun _ => True))
    with (evs := evs) (s := s) as (s' & log & R & W' & L' & _); auto.
  { intros e s0 Qe W0 P0. destruct e as [f | sel | n].
    - destruct Qe as [Hx _].
      destruct (tick_lag f s0 W0 Hx) as (s1 & eff & E & W1 & v & Hv & Lg & _).
      exists s1, (Some eff). split; [exact E | ]. split; [exact W1 | ].
      split; [ | repeat constructor].
      apply Rabs_le_iff in P0. apply Rabs_le_iff. rewrite Lg. lra.
    - destruct (step_props_kept sel s0 W0) as (s1 & E & W1 & _ & _ & G & _).
      exists s1, None. split; [exact E | ]. split; [exact W1 | ].
      split; [ | constructor]. unfold lag in *. rewrite G. exact P0.
    - destruct (step_items_reset n s0) as (s1 & E & W1 & _ & _ & G & _).
      exists s1, None. split; [exact E | ]. split; [exact W1 | ].
      split; [ | constructor]. unfold lag. rewrite G. cbn.
      rewrite Rminus_diag, Rabs_R0. lra. }
  exists s', log. split; [exact R | ]. split; [exact L' | ].
  intros f [Hx _].
  destruct (tick_lag f s' W' Hx) as (s2 & eff & E & _ & v & Hv & _ & Mv).
  exists s2, eff. split; [exact E | ].
  apply Rabs_le_iff in L'. apply Rabs_le_iff. rewrite Mv. lra.
Qed.

Lemma scroll_lag_bounded_witness :
  exists s' log,
    run [Tick (frame_at cursor_left_edge 5000); SetItems 3;
         Tick (frame_at cursor_09 5016)] (mount 10 None) = Some (s', log)
    /\ Rabs (lag s') <= 1.8.
Proof.
  destruct (scroll_lag_bounded
              [Tick (frame_at cursor_left_edge 5000); SetItems 3;
               Tick (frame_at cursor_09 5016)] (mount 10 None))
    as (s' & log & R & L & _).
  - apply wf_mount.
  - unfold lag. cbn. rewrite Rminus_diag, Rabs_R0. lra.
  - repeat constructor; cbn; lra.
  - exists s', log. auto.
Defined.

(** ** Tilt and roll stay in range *)

Lemma tilt_logic_bounded c sc :
  (HandCursor.isVisible c = true -> in_view c) ->
  Rabs (rotation_x sc) <= 0.75 -> Rabs (rotation_z sc) <= 0.25 ->
  Rabs (rotation_x (tilt_logic c sc)) <= 0.75
  /\ Rabs (rotation_z (tilt_logic c sc)) <= 0.25.
Proof.
  intros Hv Hx Hz. apply Rabs_le_iff in Hx, Hz. unfold tilt_logic.
  destruct (HandCursor.isVisible c).
  - destruct (Hv eq_refl) as [X Y]. cbn. unfold lerp.
    split; apply Rabs_le_iff; lra.
  - cbn. unfold lerp. split; apply Rabs_le_iff; lra.
Qed.

(** X6.  Over any sequence of frames with cursor coordinates in [0, 1],
    selection changes and item changes, the scene's tilt stays within
    0.75 rad and its roll within 0.25 rad once they are (as at mount). *)
Theorem tilt_roll_bounded evs s :
  wf s -> tilt_bounded s -> Forall tracked evs ->
  exists s' log, run evs s = Some (s', log) /\ tilt_bounded s'.
Proof.
  intros Hwf Hb Htr.
  assert (Zero : Rabs 0 <= 0.75 /\ Rabs 0 <= 0.25) by (rewrite Rabs_R0; lra).
  destruct (run_invariant tilt_bounded tracked (fun _ => True))
    with (evs := evs) (s := s) as (s' & log & R & _ & B & _); auto.
  { intros e s0 Qe W0 [Bx Bz]. destruct e as [f | sel | n].
    - destruct (step_tick_world f s0 W0) as (w' & eff & E & St & W').
      eexists; exists (Some eff). split; [exact St | ]. split; [exact W' | ].
      split; [ | repeat constructor].
      unfold tilt_bounded. cbn [world]. rewrite (update_scene _ _ _ _ _ _ E).
      apply tilt_logic_bounded; auto.
    - destruct (step_props_kept sel s0 W0) as (s1 & E & W1 & _ & _ & _ & _ & _ & Sc).
      exists s1, None. split; [exact E | ]. split; [exact W1 | ].
      split; [ | constructor]. unfold tilt_bounded. rewrite Sc. exact Zero.
    - destruct (step_items_reset n s0) as (s1 & E & W1 & _ & _ & _ & _ & _ & Sc).
      exists s1, None. split; [exact E | ]. split; [exact W1 | ].
      split; [ | constructor]. unfold tilt_bounded. rewrite Sc. exact Zero. }
  exists s', log. auto.
Qed.

Lemma tilt_roll_bounded_witness :
  exists s' log,
    run [Tick (frame_at cursor_09 5000); Tick (frame_at hidden_cursor 5016)]
      (mount 10 None) = Some (s', log)
    /\ tilt_bounded s'.
Proof.
  apply (tilt_roll_bounded
           [Tick (frame_at cursor_09 5000); Tick (frame_at hidden_cursor 5016)]
           (mount 10 None)).
  - apply wf_mount.
  - unfold tilt_bounded. cbn. rewrite Rabs_R0. lra.
  - repeat constructor; cbn; lra.
Defined.

(** ** Item scale, depth offset and glow stay in range *)

Lemma repeat_Forall {A : Type} (P : A -> Prop) (a : A) n :
  P a -> Forall P (repeat a n).
Proof. intros H. induction n; simpl; constructor; assumption. Qed.

Lemma fresh_bounded :
  meshState_bounded fresh_meshState /\ mesh_bounded fresh_mesh.
Proof. unfold meshState_bounded, mesh_bounded. cbn. lra. Qed.

Lemma items_bounded_mount n sel : items_bounded (mount n sel).
Proof.
  destruct fresh_bounded. split; cbn; apply repeat_Forall; assumption.
Qed.

(** X7.  Over any sequence of frames, selection changes and item changes,
    every item's smoothed scale stays in [0.8, 1.3], its depth offset in
    [-1, 2.5] and its hover glow in [0, 1], once they are (as at mount). *)
Theorem item_animation_bounded evs s :
  wf s -> items_bounded s ->
  exists s' log, run evs s = Some (s', log) /\ items_bounded s'.
Proof.
  intros Hwf Hb. destruct fresh_bounded as [FS FM].
  destruct (run_invariant items_bounded (fun _ => True) (fun _ => True))
    with (evs := evs) (s := s) as (s' & log & R & _ & B & _); auto.
  { intros e s0 _ W0 [BS BM]. destruct e as [f | sel | n].
    - destruct (step_tick_world f s0 W0) as (w' & eff & E & St & W').
      eexists; exists (Some eff). split; [exact St | ]. split; [exact W' | ].
      split; [ | repeat constructor].
      destruct (update_fields _ _ _ _ _ _ E) as (_ & _ & _ & _ & F).
      exact (forEach_bounded _ _ _ _ _ _ _ _ _ _ _ F BS BM).
    - destruct (step_props_kept sel s0 W0) as (s1 & E & W1 & _ & _ & _ & Ms & Mh & _).
      exists s1, None. split; [exact E | ]. split; [exact W1 | ].
      split; [ | constructor]. split; [rewrite Ms; exact BS | ].
      rewrite Mh. apply repeat_Forall. exact FM.
    - destruct (step_items_reset n s0) as (s1 & E & W1 & _ & _ & _ & Ms & Mh & _).
      exists s1, None. split; [exact E | ]. split; [exact W1 | ].
      split; [ | constructor].
      split; [rewrite Ms | rewrite Mh]; apply repeat_Forall; assumption. }
  { apply Forall_forall. intros. exact I. }
  exists s', log. auto.
Qed.

Lemma item_animation_bounded_witness :
  exists s' log,
    run [Tick (frame_at cursor_09 5000); SetSelected (Some 2%Z);
         Tick (frame_at hidden_cursor 5016)] (mount 10 None) = Some (s', log)
    /\ items_bounded s'.
Proof.
  apply (item_animation_bounded
           [Tick (frame_at cursor_09 5000); SetSelected (Some 2%Z);
            Tick (frame_at hidden_cursor 5016)] (mount 10 None)).
  - apply wf_mount.
  - apply items_bounded_mount.
Defined.

(** ** Every item sits on the ring *)

(** X8.  For a ring of [N >= 1] items, every item a frame places lies on
    the circle of radius 6 through the front position: with [d] its depth
    without the smoothed offset, [x^2 + (d + 6)^2 = 36], so
    [-6 <= x <= 6] and [-12 <= d <= 0]: no item comes nearer than the
    front. *)
Theorem items_on_circle (N : nat) sel f w :
  (1 <= N)%nat -> length (meshes w) = N -> length (meshStates w) = N ->
  exists w' eff,
    update N sel f w = Some (w', eff)
    /\ forall i mesh' mState',
         nth_error (meshes w') i = Some mesh' ->
         nth_error (meshStates w') i = Some mState' ->
         let d := position_z mesh' - zOffset mState' in
         position_x mesh' * position_x mesh' + (d + 6) * (d + 6) = 36
         /\ -6 <= position_x mesh' <= 6
         /\ -12 <= d <= 0.
Proof.
  intros HN Hm Hs.
  destruct (update_forEach N sel f w HN Hm Hs) as (w' & eff & a' & E & _ & _ & F).
  exists w', eff. split; [exact E | ].
  intros i mesh' mState' Hi Hst.
  destruct (forEach_placed _ _ _ _ _ _ _ _ _ _ _ F i mesh' Hi)
    as (m & st & st' & ak & _ & _ & Hst' & P).
  rewrite Hst in Hst'. injection Hst' as <-.
  unfold place in P. cbn in P. injection P as <- <-. cbn.
  unfold Math_sin, Math_cos.
  set (angle := INR i * (PI * 2 / INR N)
                - GalleryState.scrollCurrent (galleryState w')).
  pose proof (sin2_cos2 angle) as SC. unfold Rsqr in SC.
  pose proof (SIN_bound angle) as SB. pose proof (COS_bound angle) as CB.
  set (sn := sin angle) in *. set (cs := cos angle) in *. clearbody sn cs.
  match goal with
  | |- context [lerp (zOffset st) ?tg 0.1] =>
    generalize (lerp (zOffset st) tg 0.1)
  end.
  intros zo. split; [ | split; lra].
  replace (sn * 6 * (sn * 6) + (cs * 6 - 6 + zo - zo + 6) * (cs * 6 - 6 + zo - zo + 6))
    with (36 * (sn * sn + cs * cs)) by ring.
  rewrite SC. ring.
Qed.

Lemma items_on_circle_witness :
  exists w' eff,
    update 10 None (frame_at cursor_09 5000) (world (mount 10 None))
    = Some (w', eff)
    /\ forall i mesh' mState',
         nth_error (meshes w') i = Some mesh' ->
         nth_error (meshStates w') i = Some mState' ->
         let d := position_z mesh' - zOffset mState' in
         position_x mesh' * position_x mesh' + (d + 6) * (d + 6) = 36
         /\ -6 <= position_x mesh' <= 6
         /\ -12 <= d <= 0.
Proof.
  apply (items_on_circle 10 None (frame_at cursor_09 5000) (world (mount 10 None)));
    [lia | reflexivity | reflexivity].
Defined.

(** ** Hover yields a mesh index or -1 *)

Lemma indexOf_from_seq v :
  forall n a i,
    indexOf_from i (seq a n) v
    = if (a <=? v)%nat && (v <? a + n)%nat
      then (i + Z.of_nat (v - a))%Z else (-1)%Z.
Proof.
  induction n as [ | n IH]; intros a i; simpl.
  - destruct (Nat.leb_spec a v), (Nat.ltb_spec v (a + 0)); cbn; try reflexivity; lia.
  - destruct (Nat.eqb_spec a v) as [-> | Hne].
    + rewrite Nat.leb_refl. destruct (Nat.ltb_spec v (v + S n)); [ | lia].
      cbn. rewrite Nat.sub_diag. lia.
    + rewrite IH.
      destruct (Nat.leb_spec (S a) v), (Nat.leb_spec a v),
        (Nat.ltb_spec v (S a + n)), (Nat.ltb_spec v (a + S n));
        cbn; try reflexivity; lia.
Qed.

(** X9.  The hover test yields the first reported mesh when hovering is
    enabled (cursor visible, no detail view, no pinch) and that mesh is one
    of the [n] carousel meshes, and -1 in every other case; so the result is
    -1 or a valid item index. *)
Theorem hoveredIndex_valid sel c n hs :
  hoveredIndex sel c n hs
  = match hs with
    | k :: _ =>
      if HandCursor.isVisible c && negb (isDetailOpen sel)
         && negb (HandCursor.isPinching c) && (k <? n)%nat
      then Z.of_nat k else (-1)%Z
    | [] => (-1)%Z
    end
  /\ (hoveredIndex sel c n hs = (-1)%Z
      \/ (0 <= hoveredIndex sel c n hs < Z.of_nat n)%Z).
Proof.
  assert (E : hoveredIndex sel c n hs
              = match hs with
                | k :: _ =>
                  if HandCursor.isVisible c && negb (isDetailOpen sel)
                     && negb (HandCursor.isPinching c) && (k <? n)%nat
                  then Z.of_nat k else (-1)%Z
                | [] => (-1)%Z
                end).
  { unfold hoveredIndex.
    destruct (HandCursor.isVisible c && negb (isDetailOpen sel)
              && negb (HandCursor.isPinching c)); destruct hs as [ | k hs];
      try reflexivity.
    unfold indexOf. rewrite indexOf_from_seq. cbn [Nat.leb andb Nat.add].
    rewrite Nat.sub_0_r. destruct (k <? n)%nat; reflexivity. }
  split; [exact E | ]. rewrite E.
  destruct hs as [ | k hs]; [left; reflexivity | ].
  destruct (HandCursor.isVisible c && negb (isDetailOpen sel)
            && negb (HandCursor.isPinching c)); cbn [andb]; [ | left; reflexivity].
  destruct (Nat.ltb_spec k n); [right; lia | left; reflexivity].
Qed.

(** ** A pinch re-arms whenever it stops being actionable *)

(** X10.  Over two consecutive frames: if the pinch was actionable in the
    first, the second calls nothing (a held pinch never repeats); if it was
    not (hand hidden, outside the central rectangle, or fingers open) and is
    in the second, the second frame calls [onItemSelect] exactly when more
    than 1000 ms have passed since the last call. *)
Theorem pinch_rearms f1 f2 s :
  wf s ->
  exists s1 e1 s2 e2,
    step (Tick f1) s = Some (s1, Some e1)
    /\ step (Tick f2) s1 = Some (s2, Some e2)
    /\ (actionable (cursor f1) = true -> onItemSelect e2 = None)
    /\ (actionable (cursor f1) = false -> actionable (cursor f2) = true ->
        (onItemSelect e2 <> None
         <-> (now f2 - GalleryState.lastPinchTime (galleryState (world s))
              > 1000)%Z)).
Proof.
  intros Hwf.
  destruct (step_tick f1 s Hwf) as (s1 & e1 & E1 & W1 & _ & _ & P1 & L1 & O1).
  destruct (step_tick f2 s1 W1) as (s2 & e2 & E2 & _ & _ & _ & _ & _ & O2).
  exists s1, e1, s2, e2. split; [exact E1 | ]. split; [exact E2 | ].
  unfold fire_cond, rising_edge in *. rewrite P1 in O2.
  split.
  - intros A1. rewrite A1 in O2. cbn [negb] in O2.
    rewrite andb_false_r in O2. exact O2.
  - intros A1 A2. rewrite A1, A2 in *. cbn [negb andb] in *. rewrite L1 in O2.
    rewrite O2.
    destruct (Z.gtb_spec (now f2 - GalleryState.lastPinchTime (galleryState (world s)))
                1000) as [G | G]; split; intros Hyp; try lia; try discriminate.
    contradiction Hyp. reflexivity.
Qed.

Lemma pinch_rearms_witness :
  exists s1 e1 s2 e2,
    step (Tick (frame_at hidden_cursor 4000)) (mount 10 None) = Some (s1, Some e1)
    /\ step (Tick (frame_at pinch_at_centre 5000)) s1 = Some (s2, Some e2)
    /\ onItemSelect e2 <> None.
Proof.
  destruct (pinch_rearms (frame_at hidden_cursor 4000)
              (frame_at pinch_at_centre 5000) (mount 10 None) (wf_mount 10 None))
    as (s1 & e1 & s2 & e2 & E1 & E2 & _ & H).
  exists s1, e1, s2, e2. split; [exact E1 | ]. split; [exact E2 | ].
  apply H.
  - reflexivity.
  - exact actionable_pinch_at_centre.
  - cbn. lia.
Defined.

(** ** Without an item change the callback gets a valid index *)

(** X11.  From a gallery whose active index is valid, over any sequence
    of frames and selection changes (no change of the item set), the active
    index stays a valid item index and every index passed to [onItemSelect]
    is one. *)
Theorem callback_index_valid evs s :
  wf s -> (0 < count s)%nat -> valid_activeIndex s -> Forall keeps_items evs ->
  exists s' log,
    run evs s = Some (s', log)
    /\ count s' = count s
    /\ valid_activeIndex s'
    /\ Forall (fun o => forall k, fired o = Some k ->
                 (0 <= k < Z.of_nat (count s))%Z) log.
Proof.
  intros Hwf HN HV Hk.
  destruct (run_invariant
              (fun s0 => count s0 = count s /\ valid_activeIndex s0)
              keeps_items
              (fun o => forall k, fired o = Some k ->
                 (0 <= k < Z.of_nat (count s))%Z))
    with (evs := evs) (s := s) as (s' & log & R & _ & [C V] & L); auto.
  { intros e s0 Qe W0 [C0 V0]. destruct e as [f | sel | n]; [ | | contradiction].
    - destruct (step_tick_full f s0 W0 ltac:(lia))
        as (s1 & eff & E & W1 & C1 & _ & _ & _ & A & _ & _ & O).
      exists s1, (Some eff). split; [exact E | ]. split; [exact W1 | ].
      split; [split; [congruence | ] | ].
      + unfold valid_activeIndex in *. rewrite A, C1.
        destruct (isDetailOpen (selectedIndex s0)); [exact V0 | ].
        destruct (scan_range (PI * 2 / INR (count s0))
                    (GalleryState.scrollCurrent (galleryState (world s1)))
                    (count s0) 0 (GalleryState.activeIndex (galleryState (world s0))))
          as [Rg | Rg]; [rewrite Rg; exact V0 | lia].
      + cbn [observe]. constructor; [ | constructor].
        cbn [fired]. intros k Hk'. rewrite O in Hk'.
        destruct (fire_cond (cursor f) (now f) (galleryState (world s0))) eqn:Fc;
          [ | discriminate].
        rewrite (hoveredIndex_pinching _ _ _ _ (fire_cond_pinching _ _ _ Fc)) in Hk'.
        cbn in Hk'. injection Hk' as <-. unfold valid_activeIndex in V0. lia.
    - destruct (step_props_kept sel s0 W0) as (s1 & E & W1 & C1 & _ & G & _).
      exists s1, None. split; [exact E | ]. split; [exact W1 | ].
      split; [ | constructor]. split; [congruence | ].
      unfold valid_activeIndex in *. rewrite G, C1. exact V0. }
  exists s', log. auto.
Qed.

Lemma callback_index_valid_witness :
  exists s' log,
    run [Tick (frame_at cursor_09 4000); Tick (frame_at pinch_at_centre 5000);
         SetSelected (Some 0%Z)] (mount 10 None) = Some (s', log)
    /\ count s' = 10%nat
    /\ valid_activeIndex s'
    /\ Forall (fun o => forall k, fired o = Some k -> (0 <= k < 10)%Z) log.
Proof.
  apply (callback_index_valid
           [Tick (frame_at cursor_09 4000); Tick (frame_at pinch_at_centre 5000);
            SetSelected (Some 0%Z)] (mount 10 None)).
  - apply wf_mount.
  - cbn. lia.
  - apply valid_activeIndex_mount. lia.
  - repeat constructor.
Defined.

(** ** The layout depends on the scroll position modulo a full turn *)

Lemma place_full_turn step sel hov sc i m st a (k : Z) :
  place step sel hov (sc + 2 * IZR k * PI) i m st a
  = (turned (2 * IZR k * PI) (fst (fst (place step sel hov sc i m st a))),
     snd (fst (place step sel hov sc i m st a)),
     snd (place step sel hov sc i m st a)).
Proof.
  unfold place, turned. cbn.
  replace (INR i * step - (sc + 2 * IZR k * PI))
    with (INR i * step - sc + 2 * IZR (- k) * PI) by (rewrite opp_IZR; ring).
  unfold Math_sin, Math_cos. rewrite sin_period_Z, cos_period_Z.
  f_equal. f_equal. f_equal. rewrite opp_IZR. ring.
Qed.

Lemma forEach_full_turn stp sel hov sc (k : Z) :
  forall ms i sts a,
    forEach stp sel hov (sc + 2 * IZR k * PI) i ms sts a
    = match forEach stp sel hov sc i ms sts a with
      | Some (ms', sts', a') => Some (map (turned (2 * IZR k * PI)) ms', sts', a')
      | None => None
      end.
Proof.
  induction ms as [ | m ms IH]; intros i sts a.
  - reflexivity.
  - destruct sts as [ | st sts]; [reflexivity | ].
    destruct stp as [step | | | ]; try reflexivity.
    cbn [forEach]. rewrite place_full_turn.
    destruct (place step sel hov sc i m st a) as [[m1 st1] a1]. cbn [fst snd].
    rewrite IH.
    destruct (forEach (Finite step) sel hov sc (S i) ms sts a1)
      as [[[ms2 sts2] a2] | ]; reflexivity.
Qed.

(** X12.  Scrolling a world on by whole turns changes nothing a frame
    shows: it completes exactly when the frame on the original world does,
    with the same effects, item states and active index, every mesh at the
    same position, and only the facing angles less by those turns. *)
Theorem full_turn_same_frame n sel f w (k : Z) :
  update n sel f (scrolled (2 * IZR k * PI) w)
  = match update n sel f w with
    | Some (w', eff) => Some (turn_world (2 * IZR k * PI) w', eff)
    | None => None
    end.
Proof.
  unfold update. cbn [scrolled galleryState meshes meshStates scene ring
                      GalleryState.scrollCurrent GalleryState.scrollTarget
                      GalleryState.activeIndex].
  assert (P : forall hov,
             pinch_logic (cursor f) (now f) hov (galleryState (scrolled (2 * IZR k * PI) w))
             = pinch_logic (cursor f) (now f) hov (galleryState w)) by reflexivity.
  cbn [scrolled galleryState] in P. rewrite P. clear P.
  destruct (pinch_logic _ _ _ _) as [[p l] o].
  assert (L : lerp (GalleryState.scrollCurrent (galleryState w) + 2 * IZR k * PI)
                (scroll_logic sel (cursor f)
                   (GalleryState.scrollTarget (galleryState w) + 2 * IZR k * PI)) 0.1
              = lerp (GalleryState.scrollCurrent (galleryState w))
                  (scroll_logic sel (cursor f)
                     (GalleryState.scrollTarget (galleryState w))) 0.1
                + 2 * IZR k * PI).
  { unfold lerp, scroll_logic.
    destruct (negb (isDetailOpen sel) && HandCursor.isVisible (cursor f)); ring. }
  rewrite L, forEach_full_turn.
  match goal with
  | |- context [forEach ?a ?b ?c ?d ?e ?g ?h ?j] =>
    destruct (forEach a b c d e g h j) as [[[ms' sts'] a'] | ]
  end; [ | reflexivity].
  assert (S : scroll_logic sel (cursor f)
                (GalleryState.scrollTarget (galleryState w) + 2 * IZR k * PI)
              = scroll_logic sel (cursor f)
                  (GalleryState.scrollTarget (galleryState w))
                + 2 * IZR k * PI).
  { unfold scroll_logic.
    destruct (negb (isDetailOpen sel) && HandCursor.isVisible (cursor f)); ring. }
  unfold turn_world, scrolled. cbn. rewrite S. reflexivity.
Qed.

(** ** One angle step on, the next item is in front *)

Lemma normalizedAngle_period a (k : Z) :
  normalizedAngle (a + 2 * IZR k * PI) = normalizedAngle a.
Proof.
  unfold normalizedAngle, Math_sin, Math_cos.
  rewrite sin_period_Z, cos_period_Z. reflexivity.
Qed.

Lemma hit_next (N : nat) sc i :
  (0 < N)%nat -> (i < N)%nat ->
  hit (PI * 2 / INR N) (sc + PI * 2 / INR N) (S i mod N) = hit (PI * 2 / INR N) sc i.
Proof.
  intros HN Hi. unfold hit. f_equal. f_equal.
  assert (HN' : 0 < INR N) by (apply lt_0_INR; exact HN).
  destruct (Nat.eq_dec (S i) N) as [E | E].
  - rewrite E, Nat.Div0.mod_same.
    rewrite <- (normalizedAngle_period _ 1). f_equal.
    assert (I : INR i = INR N - 1) by (rewrite <- E, S_INR; ring).
    rewrite I. simpl INR. field. lra.
  - rewrite Nat.mod_small by lia. f_equal. rewrite S_INR. ring.
Qed.

(** X13.  For a ring of [N >= 1] items with no detail view open: when a
    frame at one scroll position leaves item [i] in front, a frame at the
    scroll position one angle step further leaves the next item,
    [(i + 1) mod N], in front. *)
Theorem one_step_advances (N : nat) f1 w1 f2 w2 i :
  (1 <= N)%nat ->
  length (meshes w1) = N -> length (meshStates w1) = N ->
  length (meshes w2) = N -> length (meshStates w2) = N ->
  (i < N)%nat ->
  exists w1' e1 w2' e2,
    update N None f1 w1 = Some (w1', e1)
    /\ update N None f2 w2 = Some (w2', e2)
    /\ (GalleryState.scrollCurrent (galleryState w2')
        = GalleryState.scrollCurrent (galleryState w1') + PI * 2 / INR N ->
        Rabs (normalizedAngle
                (INR i * (PI * 2 / INR N)
                 - GalleryState.scrollCurrent (galleryState w1')))
        < PI * 2 / INR N / 2 ->
        GalleryState.activeIndex (galleryState w1') = Z.of_nat i
        /\ GalleryState.activeIndex (galleryState w2') = Z.of_nat (S i mod N)).
Proof.
  intros HN Hm1 Hs1 Hm2 Hs2 Hi.
  destruct (update_activeIndex N None f1 w1 HN Hm1 Hs1) as (w1' & e1 & E1 & A1).
  destruct (update_activeIndex N None f2 w2 HN Hm2 Hs2) as (w2' & e2 & E2 & A2).
  exists w1', e1, w2', e2. split; [exact E1 | ]. split; [exact E2 | ].
  intros Sc Hh. apply hit_spec in Hh. cbn [isDetailOpen] in A1, A2.
  split.
  - rewrite A1. apply scan_front; assumption || lia.
  - rewrite A2, Sc. apply scan_front; [lia | apply Nat.mod_upper_bound; lia | ].
    rewrite hit_next by (assumption || lia). exact Hh.
Qed.

Lemma one_step_advances_witness :
  exists w1' e1 w2' e2,
    update 10 None (frame_at hidden_cursor 5000) (world (mount 10 None))
    = Some (w1', e1)
    /\ update 10 None (frame_at hidden_cursor 5000) world_one_step = Some (w2', e2)
    /\ GalleryState.activeIndex (galleryState w1') = 0%Z
    /\ GalleryState.activeIndex (galleryState w2') = 1%Z.
Proof.
  destruct (one_step_advances 10 (frame_at hidden_cursor 5000) (world (mount 10 None))
              (frame_at hidden_cursor 5000) world_one_step 0)
    as (w1' & e1 & w2' & e2 & E1 & E2 & H); try reflexivity; try lia.
  exists w1', e1, w2', e2. split; [exact E1 | ]. split; [exact E2 | ].
  pose proof (update_hidden_scroll 10 (frame_at hidden_cursor 5000)
                (world (mount 10 None)) w1' e1 eq_refl eq_refl E1) as S1.
  pose proof (update_hidden_scroll 10 (frame_at hidden_cursor 5000)
                world_one_step w2' e2 eq_refl eq_refl E2) as S2.
  cbn in S1, S2. apply H.
  - rewrite S1, S2. simpl. lra.
  - rewrite S1. replace (INR 0 * (PI * 2 / INR 10) - 0) with 0 by (simpl; ring).
    rewrite normalizedAngle_small by (pose proof PI_RGT_0; lra).
    rewrite Rabs_R0. pose proof (step_pos 10 ltac:(lia)). lra.
Defined.

(** ** The audio drone *)

(** X14.  For a frame whose cursor has [x] in [0, 1]: when the context,
    the oscillator or the gain node is missing, [updateDrone] returns early
    and sets nothing, and only then; with all three present it sets the
    frequency [60 + 2000 |v|] and the gain [0.02 + 0.15 |v|] for the
    frame's speed [v], a frequency in [60, 460] Hz and a gain in
    [0.02, 0.05], exactly 60 Hz and 0.02 while scrolling is suspended. *)
Theorem drone_targets_bounded n sel f w am :
  length (meshes w) = n -> length (meshStates w) = n ->
  0 <= HandCursor.x (cursor f) <= 1 ->
  exists w' eff,
    update n sel f w = Some (w', eff)
    /\ updateDrone eff = targetSpeed sel (cursor f)
    /\ (AudioManager.updateDrone (updateDrone eff) am = None
        <-> (AudioManager.ctx am = false \/ AudioManager.osc am = false
             \/ AudioManager.gain am = false))
    /\ (AudioManager.ctx am = true -> AudioManager.osc am = true ->
        AudioManager.gain am = true ->
        AudioManager.updateDrone (updateDrone eff) am
        = Some (60 + Rabs (targetSpeed sel (cursor f)) * 2000,
                0.02 + Rabs (targetSpeed sel (cursor f)) * 0.15))
    /\ match AudioManager.updateDrone (updateDrone eff) am with
       | Some (freq, gain) =>
         60 <= freq <= 460 /\ 0.02 <= gain <= 0.05
         /\ freq = 60 + 2000 * Rabs (targetSpeed sel (cursor f))
         /\ gain = 0.02 + 0.15 * Rabs (targetSpeed sel (cursor f))
         /\ (isDetailOpen sel = true \/ HandCursor.isVisible (cursor f) = false ->
             freq = 60 /\ gain = 0.02)
       | None =>
         AudioManager.ctx am = false \/ AudioManager.osc am = false
         \/ AudioManager.gain am = false
       end.
Proof.
  intros Hm Hs Hx.
  destruct (update_pinch n sel f w Hm Hs) as (w' & eff & E & _).
  exists w', eff. split; [exact E | ].
  destruct (update_fields _ _ _ _ _ _ E) as (_ & _ & Dr & _).
  split; [exact Dr | ].
  rewrite Dr. unfold AudioManager.updateDrone, Math_abs.
  split.
  { destruct (AudioManager.ctx am), (AudioManager.osc am), (AudioManager.gain am);
      cbn [negb orb]; split; intros H; auto; try discriminate;
      destruct H as [H | [H | H]]; discriminate. }
  split.
  { intros -> -> ->. reflexivity. }
  destruct (AudioManager.ctx am); [ | cbn; auto].
  destruct (AudioManager.osc am); [ | cbn; auto].
  destruct (AudioManager.gain am); [ | cbn; auto].
  cbn [negb orb].
  pose proof (targetSpeed_range sel (cursor f) Hx) as B0.
  assert (B : Rabs (targetSpeed sel (cursor f)) <= 0.2) by (apply Rabs_le; lra).
  pose proof (Rabs_pos (targetSpeed sel (cursor f))) as P.
  split; [lra | ]. split; [lra | ]. split; [ring | ]. split; [ring | ].
  intros Sus. rewrite (targetSpeed_suspended _ _ Sus), Rabs_R0. lra.
Qed.

Lemma drone_targets_bounded_witness :
  exists w' eff,
    update 10 None (frame_at cursor_09 5000) world_active_3 = Some (w', eff)
    /\ (exists freq gain,
          AudioManager.updateDrone (updateDrone eff)
            (AudioManager.init AudioManager.Nowhere AudioManager.fresh)
          = Some (freq, gain)
          /\ 60 <= freq <= 460 /\ 0.02 <= gain <= 0.05)
    /\ AudioManager.updateDrone (updateDrone eff) AudioManager.fresh = None.
Proof.
  destruct (drone_targets_bounded 10 None (frame_at cursor_09 5000) world_active_3
              (AudioManager.init AudioManager.Nowhere AudioManager.fresh)
              eq_refl eq_refl) as (w' & eff & E & _ & _ & _ & H).
  - cbn. lra.
  - exists w', eff. split; [exact E | ]. split.
    + cbn in H |- *. eexists; eexists. split; [reflexivity | ]. tauto.
    + destruct (drone_targets_bounded 10 None (frame_at cursor_09 5000)
                  world_active_3 AudioManager.fresh eq_refl eq_refl)
        as (w2 & eff2 & E2 & _ & G & _).
      * cbn. lra.
      * rewrite E in E2. injection E2 as <- <-. apply G. left. reflexivity.
Defined.

Lemma audio_init_chain ths :
  forall a,
    (AudioManager.osc a = true -> AudioManager.ctx a = true) ->
    (AudioManager.gain a = true -> AudioManager.osc a = true) ->
    (AudioManager.isInitialized a = true -> AudioManager.gain a = true) ->
    let a' := fold_left (fun a th => AudioManager.init th a) ths a in
    (AudioManager.osc a' = true -> AudioManager.ctx a' = true)
    /\ (AudioManager.gain a' = true -> AudioManager.osc a' = true)
    /\ (AudioManager.isInitialized a' = true -> AudioManager.gain a' = true).
Proof.
  induction ths as [ | th ths IH]; intros a H1 H2 H3.
  - cbn. auto.
  - cbn [fold_left]. apply IH;
      unfold AudioManager.init; destruct (AudioManager.isInitialized a) eqn:I;
      try assumption; destruct th; cbn; intros; auto; try discriminate;
      try congruence.
Qed.

(** X15.  After any sequence of [init] attempts on a new [AudioManager],
    whatever they throw: [isInitialized] implies a gain node, a gain node an
    oscillator and an oscillator a context; once initialised a further
    [init] changes nothing; [updateDrone] does nothing exactly when there is
    no gain node, and the select sound plays exactly when there is a
    context. *)
Theorem audio_init_invariant ths :
  let a := fold_left (fun a th => AudioManager.init th a) ths AudioManager.fresh in
  (AudioManager.osc a = true -> AudioManager.ctx a = true)
  /\ (AudioManager.gain a = true -> AudioManager.osc a = true)
  /\ (AudioManager.isInitialized a = true -> AudioManager.gain a = true)
  /\ (AudioManager.isInitialized a = true ->
      forall th, AudioManager.init th a = a)
  /\ (forall v, AudioManager.updateDrone v a = None
                <-> AudioManager.gain a = false)
  /\ AudioManager.playSelectSound a = AudioManager.ctx a.
Proof.
  intros a.
  destruct (audio_init_chain ths AudioManager.fresh) as (C1 & C2 & C3);
    try (cbn; discriminate).
  fold a in C1, C2, C3.
  split; [exact C1 | ]. split; [exact C2 | ]. split; [exact C3 | ].
  split.
  { intros I th. unfold AudioManager.init. rewrite I. reflexivity. }
  split; [ | reflexivity].
  intros v. unfold AudioManager.updateDrone.
  destruct (AudioManager.gain a) eqn:G.
  - rewrite (C1 (C2 eq_refl)), (C2 eq_refl). cbn. split; discriminate.
  - rewrite !orb_true_r. split; reflexivity.
Qed.

Lemma audio_init_invariant_witness :
  let a := fold_left (fun a th => AudioManager.init th a)
             [AudioManager.InCreateGain; AudioManager.InConstructor;
              AudioManager.Nowhere] AudioManager.fresh in
  AudioManager.isInitialized a = true
  /\ forall th, AudioManager.init th a = a.
Proof.
  destruct (audio_init_invariant
              [AudioManager.InCreateGain; AudioManager.InConstructor;
               AudioManager.Nowhere]) as (_ & _ & _ & H & _).
  split; [reflexivity | ]. apply H. reflexivity.
Defined.

(** ** From landmarks to the cursor *)

Lemma hypot_lt a b : Tracker.Math_hypot a b < 0.08 <-> a * a + b * b < 0.0064.
Proof.
  unfold Tracker.Math_hypot.
  assert (S : 0 <= a * a + b * b) by nra.
  assert (E : sqrt 0.0064 = 0.08).
  { replace 0.0064 with (0.08 * 0.08) by lra. apply sqrt_square. lra. }
  rewrite <- E. split; intros H.
  - apply sqrt_lt_0; [exact S | lra | exact H].
  - apply sqrt_lt_1; [exact S | lra | exact H].
Qed.

Lemma predictWebcam_hand hand rest prev indexTip thumbTip :
  nth_error hand 8 = Some indexTip -> nth_error hand 4 = Some thumbTip ->
  Tracker.predictWebcam (hand :: rest) prev
  = Some {| HandCursor.x := 1.0 - Tracker.x indexTip;
            HandCursor.y := Tracker.y indexTip;
            HandCursor.isPinching :=
              Tracker.Math_hypot (Tracker.x indexTip - Tracker.x thumbTip)
                (Tracker.y indexTip - Tracker.y thumbTip) <? 0.08;
            HandCursor.isVisible := true |}.
Proof. intros H8 H4. unfold Tracker.predictWebcam. rewrite H8, H4. reflexivity. Qed.

(** X16.  For a detected hand with landmarks 8 and 4, the published
    cursor is visible, at the index tip mirrored horizontally, and pinching
    exactly when the squared distance between index tip and thumb tip is
    below 0.0064; the gallery treats its pinch as actionable exactly when, in
    addition, the index tip lies strictly inside the square from 0.2 to 0.8
    of the camera image. *)
Theorem tracked_hand_cursor hand rest prev indexTip thumbTip :
  nth_error hand 8 = Some indexTip -> nth_error hand 4 = Some thumbTip ->
  exists c,
    Tracker.predictWebcam (hand :: rest) prev = Some c
    /\ HandCursor.isVisible c = true
    /\ HandCursor.x c = 1 - Tracker.x indexTip
    /\ HandCursor.y c = Tracker.y indexTip
    /\ let dx := Tracker.x indexTip - Tracker.x thumbTip in
       let dy := Tracker.y indexTip - Tracker.y thumbTip in
       (HandCursor.isPinching c = true <-> dx * dx + dy * dy < 0.0064)
       /\ (actionable c = true
           <-> (dx * dx + dy * dy < 0.0064
                /\ 0.2 < Tracker.x indexTip < 0.8
                /\ 0.2 < Tracker.y indexTip < 0.8)).
Proof.
  intros H8 H4. eexists. split; [apply predictWebcam_hand; eassumption | ].
  cbn [HandCursor.isVisible HandCursor.x HandCursor.y HandCursor.isPinching].
  split; [reflexivity | ]. split; [lra | ]. split; [reflexivity | ].
  cbv zeta.
  assert (P : (Tracker.Math_hypot (Tracker.x indexTip - Tracker.x thumbTip)
                 (Tracker.y indexTip - Tracker.y thumbTip) <? 0.08) = true
              <-> (Tracker.x indexTip - Tracker.x thumbTip)
                  * (Tracker.x indexTip - Tracker.x thumbTip)
                  + (Tracker.y indexTip - Tracker.y thumbTip)
                    * (Tracker.y indexTip - Tracker.y thumbTip) < 0.0064).
  { rewrite Rltb_spec. apply hypot_lt. }
  split; [exact P | ].
  unfold actionable, isInPinchableArea.
  cbn [HandCursor.isVisible HandCursor.x HandCursor.y HandCursor.isPinching].
  rewrite !andb_true_iff, P, !Rgtb_spec, !Rltb_spec.
  split; intros H; repeat split; try tauto; lra.
Qed.

Lemma tracked_hand_cursor_witness :
  exists c,
    Tracker.predictWebcam
      [hand_with {| Tracker.x := 0.5; Tracker.y := 0.5 |}
         {| Tracker.x := 0.52; Tracker.y := 0.5 |}] Tracker.initial = Some c
    /\ actionable c = true.
Proof.
  destruct (tracked_hand_cursor
              (hand_with {| Tracker.x := 0.5; Tracker.y := 0.5 |}
                 {| Tracker.x := 0.52; Tracker.y := 0.5 |}) [] Tracker.initial
              {| Tracker.x := 0.5; Tracker.y := 0.5 |}
              {| Tracker.x := 0.52; Tracker.y := 0.5 |} eq_refl eq_refl)
    as (c & E & _ & _ & _ & _ & A).
  exists c. split; [exact E | ]. apply A. cbn. lra.
Defined.

(** X17.  When no hand is detected the published cursor keeps the last
    position and pinch flag but is hidden, and a gallery frame reading it
    selects nothing, clears the pinch-held flag and leaves the scroll target
    alone, even if the hand was lost in the middle of a pinch. *)
Theorem lost_hand_releases_pinch prev n sel f w :
  length (meshes w) = n -> length (meshStates w) = n ->
  Tracker.predictWebcam [] prev = Some (cursor f) ->
  HandCursor.isPinching (cursor f) = HandCursor.isPinching prev
  /\ HandCursor.x (cursor f) = HandCursor.x prev
  /\ HandCursor.y (cursor f) = HandCursor.y prev
  /\ exists w' eff,
       update n sel f w = Some (w', eff)
       /\ onItemSelect eff = None
       /\ GalleryState.isPinching (galleryState w') = false
       /\ GalleryState.scrollTarget (galleryState w')
          = GalleryState.scrollTarget (galleryState w).
Proof.
  intros Hm Hs Hc. cbn in Hc. injection Hc as Hc.
  assert (V : HandCursor.isVisible (cursor f) = false) by (rewrite <- Hc; reflexivity).
  split; [rewrite <- Hc; reflexivity | ].
  split; [rewrite <- Hc; reflexivity | ].
  split; [rewrite <- Hc; reflexivity | ].
  destruct (update_pinch n sel f w Hm Hs) as (w' & eff & E & _ & _ & P).
  exists w', eff. split; [exact E | ].
  rewrite pinch_logic_spec in P. injection P as P1 _ P3.
  assert (A : actionable (cursor f) = false) by (apply actionable_hidden; exact V).
  assert (Fc : fire_cond (cursor f) (now f) (galleryState w) = false)
    by (unfold fire_cond, rising_edge; rewrite A; reflexivity).
  rewrite Fc in P3. split; [exact P3 | ]. split; [congruence | ].
  destruct (update_scrollTarget _ _ _ _ _ _ E) as (T & _).
  rewrite T. apply scroll_logic_suspended. auto.
Qed.

Lemma lost_hand_releases_pinch_witness :
  exists w' eff,
    update 10 None
      {| t := 0;
         cursor := {| HandCursor.x := 0.5; HandCursor.y := 0.5;
                      HandCursor.isPinching := true;
                      HandCursor.isVisible := false |};
         now := 5000; hits := [] |} world_active_3 = Some (w', eff)
    /\ onItemSelect eff = None
    /\ GalleryState.isPinching (galleryState w') = false.
Proof.
  destruct (lost_hand_releases_pinch pinch_at_centre 10 None
              {| t := 0;
                 cursor := {| HandCursor.x := 0.5; HandCursor.y := 0.5;
                              HandCursor.isPinching := true;
                              HandCursor.isVisible := false |};
                 now := 5000; hits := [] |} world_active_3
              eq_refl eq_refl eq_refl)
    as (_ & _ & _ & w' & eff & E & O & P & _).
  exists w', eff. auto.
Defined.

(** X18.  The view is mirrored: with no detail view open, a detected hand
    scrolls in the positive direction exactly when its index tip is left of
    0.35 in the camera image, and in the negative direction exactly when it
    is right of 0.65. *)
Theorem tracked_hand_scroll_direction hand rest prev indexTip thumbTip :
  nth_error hand 8 = Some indexTip -> nth_error hand 4 = Some thumbTip ->
  exists c,
    Tracker.predictWebcam (hand :: rest) prev = Some c
    /\ (0 < targetSpeed None c <-> Tracker.x indexTip < 0.35)
    /\ (targetSpeed None c < 0 <-> 0.65 < Tracker.x indexTip)
    /\ (0 <= Tracker.x indexTip <= 1 -> -0.2 <= targetSpeed None c <= 0.2).
Proof.
  intros H8 H4. eexists. split; [apply predictWebcam_hand; eassumption | ].
  match goal with |- context [targetSpeed None ?c] => set (c0 := c) end.
  destruct (targetSpeed_zone c0 eq_refl) as (P & N & Z).
  cbn [c0 HandCursor.x] in P, N, Z.
  split; [ | split].
  - split; intros H; [ | apply P; lra].
    destruct (Rlt_dec (Tracker.x indexTip) 0.35); [assumption | exfalso].
    destruct (Rlt_dec 0.65 (Tracker.x indexTip)) as [L | L].
    + specialize (N ltac:(lra)). lra.
    + rewrite Z in H by lra. lra.
  - split; intros H; [ | apply N; lra].
    destruct (Rlt_dec 0.65 (Tracker.x indexTip)); [assumption | exfalso].
    destruct (Rlt_dec (Tracker.x indexTip) 0.35) as [L | L].
    + specialize (P ltac:(lra)). lra.
    + rewrite Z in H by lra. lra.
  - intros Hx. apply targetSpeed_range. cbn. lra.
Qed.

Lemma tracked_hand_scroll_direction_witness :
  exists c,
    Tracker.predictWebcam
      [hand_with {| Tracker.x := 0.1; Tracker.y := 0.5 |}
         {| Tracker.x := 0.3; Tracker.y := 0.5 |}] Tracker.initial = Some c
    /\ 0 < targetSpeed None c.
Proof.
  destruct (tracked_hand_scroll_direction
              (hand_with {| Tracker.x := 0.1; Tracker.y := 0.5 |}
                 {| Tracker.x := 0.3; Tracker.y := 0.5 |}) [] Tracker.initial
              {| Tracker.x := 0.1; Tracker.y := 0.5 |}
              {| Tracker.x := 0.3; Tracker.y := 0.5 |} eq_refl eq_refl)
    as (c & E & P & _).
  exists c. split; [exact E | ]. apply P. cbn. lra.
Defined.

(** ** The cursor overlay *)

(** X19.  The cursor overlay renders nothing for a hidden cursor.  For a
    visible one it never shows both scroll labels; whenever the gallery
    would scroll left (right) the left (right) label is shown; and in the
    bands [0.35, 0.4) and (0.6, 0.65] a label is shown although the speed is
    0. *)
Theorem overlay_labels c w h :
  (HandCursor.isVisible c = false -> CursorOverlay.render c w h = None)
  /\ (HandCursor.isVisible c = true ->
      exists v,
        CursorOverlay.render c w h = Some v
        /\ CursorOverlay.pinched v = HandCursor.isPinching c
        /\ CursorOverlay.scrollLeftLabel v && CursorOverlay.scrollRightLabel v
           = false
        /\ (targetSpeed None c < 0 -> CursorOverlay.scrollLeftLabel v = true)
        /\ (0 < targetSpeed None c -> CursorOverlay.scrollRightLabel v = true)
        /\ (0.35 <= HandCursor.x c < 0.4 ->
            CursorOverlay.scrollLeftLabel v = true /\ targetSpeed None c = 0)
        /\ (0.6 < HandCursor.x c <= 0.65 ->
            CursorOverlay.scrollRightLabel v = true /\ targetSpeed None c = 0)).
Proof.
  split; intros V; unfold CursorOverlay.render; rewrite V; cbn [negb];
    [reflexivity | ].
  eexists. split; [reflexivity | ].
  cbn [CursorOverlay.pinched CursorOverlay.scrollLeftLabel
       CursorOverlay.scrollRightLabel].
  destruct (targetSpeed_zone c V) as (P & N & Z).
  split; [reflexivity | ]. split.
  { destruct (Rlt_dec (HandCursor.x c) 0.4).
    - rewrite (Rgtb_false (HandCursor.x c) 0.6) by lra. apply andb_false_r.
    - rewrite (Rltb_false (HandCursor.x c) 0.4) by lra. reflexivity. }
  split.
  { intros H. apply Rltb_true.
    destruct (Rlt_dec (HandCursor.x c) 0.35); [lra | exfalso].
    destruct (Rlt_dec 0.65 (HandCursor.x c)) as [L | L].
    - specialize (P L). lra.
    - rewrite Z in H by lra. lra. }
  split.
  { intros H. apply Rgtb_true.
    destruct (Rlt_dec 0.65 (HandCursor.x c)); [lra | exfalso].
    destruct (Rlt_dec (HandCursor.x c) 0.35) as [L | L].
    - specialize (N L). lra.
    - rewrite Z in H by lra. lra. }
  split; intros H.
  - split; [apply Rltb_true; lra | apply Z; lra].
  - split; [apply Rgtb_true; lra | apply Z; lra].
Qed.

Lemma overlay_labels_witness :
  exists v,
    CursorOverlay.render (at_x 0.37 cursor_09) 1920 1080 = Some v
    /\ CursorOverlay.scrollLeftLabel v = true
    /\ targetSpeed None (at_x 0.37 cursor_09) = 0.
Proof.
  destruct (overlay_labels (at_x 0.37 cursor_09) 1920 1080) as [_ H].
  destruct (H eq_refl) as (v & E & _ & _ & _ & _ & B & _).
  exists v. split; [exact E | ]. apply B. cbn. lra.
Defined.

(** ** The application as wired *)

Lemma shell_ok_build n c u g :
  (1 <= n)%nat -> count g = n -> selectedIndex g = App.selectedItemIndex u ->
  wf g -> App.lastYRef u = HandCursor.y c ->
  shell_ok {| Shell.items := n; Shell.cursorState := c; Shell.ui := u;
              Shell.gallery := g |}.
Proof. unfold shell_ok, shell_selection. cbn. auto. Qed.

Lemma same_selection_eq a b : Shell.same_selection a b = true -> a = b.
Proof.
  destruct a as [i | ], b as [j | ]; cbn; intros H; try discriminate;
    [apply Z.eqb_eq in H; congruence | reflexivity].
Qed.

Lemma set_selected_props sel g :
  wf g ->
  wf (Shell.set_selected sel g)
  /\ count (Shell.set_selected sel g) = count g
  /\ selectedIndex (Shell.set_selected sel g) = sel
  /\ galleryState (world (Shell.set_selected sel g)) = galleryState (world g).
Proof.
  intros W. destruct (step_props_kept sel g W) as (g' & E & W' & C & S & G & _).
  unfold Shell.set_selected. rewrite E. auto.
Qed.

(** Under the invariant, a change of the selection goes through as asked:
    the swipe effect that runs again sees no movement. *)
Lemma select_props sel later s :
  shell_ok s ->
  shell_ok (Shell.select sel later s)
  /\ shell_selection (Shell.select sel later s) = sel
  /\ Shell.items (Shell.select sel later s) = Shell.items s
  /\ galleryState (world (Shell.gallery (Shell.select sel later s)))
     = galleryState (world (Shell.gallery s)).
Proof.
  intros (I & C & S & W & Y). unfold Shell.select.
  destruct (Shell.same_selection sel (App.selectedItemIndex (Shell.ui s))) eqn:Same.
  - apply same_selection_eq in Same. unfold shell_ok, shell_selection. auto 10.
  - unfold App.swipe_effect.
    rewrite swipe_no_delta by (cbn; congruence). cbn [fst snd].
    destruct (set_selected_props sel (Shell.gallery s) W) as (W' & C' & S' & G').
    split; [apply shell_ok_build; cbn; congruence || assumption | ].
    unfold shell_selection. cbn. auto.
Qed.

Lemma react_props i s :
  shell_ok s ->
  exists s',
    Shell.react i s = Some s' /\ shell_ok s'
    /\ (keeps_files i ->
        valid_activeIndex (Shell.gallery s) -> valid_selection s ->
        valid_activeIndex (Shell.gallery s') /\ valid_selection s'
        /\ Shell.items s' = Shell.items s).
Proof.
  intros Ok. pose proof Ok as (I & C & S & W & Y).
  destruct i as [f later | c now later | files later].
  - (* an animation frame *)
    destruct (step_tick_full f (Shell.gallery s) W ltac:(lia))
      as (g' & eff & E & W' & C' & S' & _ & _ & A & _ & _ & O).
    set (s1 := {| Shell.items := Shell.items s;
                  Shell.cursorState := Shell.cursorState s;
                  Shell.ui := Shell.ui s; Shell.gallery := g' |}).
    assert (Ok1 : shell_ok s1).
    { apply shell_ok_build; unfold shell_selection in S; congruence || assumption. }
    assert (V1 : valid_activeIndex (Shell.gallery s) -> valid_activeIndex g').
    { intros V. unfold valid_activeIndex in *. rewrite A, C'.
      destruct (isDetailOpen (selectedIndex (Shell.gallery s))); [exact V | ].
      destruct (scan_range (PI * 2 / INR (count (Shell.gallery s)))
                  (GalleryState.scrollCurrent (galleryState (world g')))
                  (count (Shell.gallery s)) 0
                  (GalleryState.activeIndex (galleryState (world (Shell.gallery s)))))
        as [Rg | Rg]; [rewrite Rg; exact V | lia]. }
    cbn [Shell.react]. rewrite E. destruct eff as [sel' snd' dr']. cbn [onItemSelect] in O.
    destruct sel' as [k | ].
    + fold s1.
      destruct (select_props
                  (App.handleItemSelect k (App.selectedItemIndex (Shell.ui s)))
                  later s1 Ok1) as (Ok2 & Sel2 & It2 & G2).
      eexists. split; [reflexivity | ]. split; [exact Ok2 | ].
      intros _ V VS. split; [ | split; [ | exact It2]].
      * unfold valid_activeIndex in *. destruct Ok2 as (_ & C2 & _).
        rewrite G2, C2, It2. cbn [s1 Shell.gallery Shell.items].
        specialize (V1 V). unfold valid_activeIndex in V1. rewrite <- C, <- C'. exact V1.
      * unfold valid_selection. rewrite Sel2, It2. cbn [s1 Shell.items].
        unfold App.handleItemSelect.
        destruct (App.selectedItemIndex (Shell.ui s)); [constructor | ].
        destruct (fire_cond (cursor f) (now f) (galleryState (world (Shell.gallery s))))
          eqn:Fc; [ | discriminate].
        rewrite (hoveredIndex_pinching _ _ _ _ (fire_cond_pinching _ _ _ Fc)) in O.
        cbn in O. injection O as ->. unfold valid_activeIndex in V. lia.
    + fold s1. exists s1. split; [reflexivity | ]. split; [exact Ok1 | ].
      intros _ V VS. split; [exact (V1 V) | ]. split; [exact VS | reflexivity].
  - (* a new cursor state *)
    cbn [Shell.react]. unfold App.swipe_effect at 1.
    destruct (App.swipe_fires c now (Shell.ui s)) eqn:Fire.
    + destruct (set_selected_props None (Shell.gallery s) W) as (W' & C' & S' & G').
      eexists. split; [reflexivity | ].
      split; [apply shell_ok_build; cbn; congruence || assumption | ].
      intros _ V VS.
      unfold valid_selection, valid_activeIndex, shell_selection in *.
      cbn [Shell.gallery Shell.items Shell.ui].
      rewrite G', C'. split; [exact V | ]. split; [cbn; constructor | reflexivity].
    + eexists. split; [reflexivity | ].
      unfold shell_selection in S.
      split; [apply shell_ok_build; cbn; congruence || assumption | ].
      intros _ V VS. auto.
  - (* a file upload *)
    cbn [Shell.react]. destruct (Nat.ltb_spec 0 files) as [Pos | Zero].
    + destruct (step_items_reset files (Shell.gallery s))
        as (g' & E & W' & C' & S' & _).
      rewrite E.
      destruct (select_props None later
                  {| Shell.items := files; Shell.cursorState := Shell.cursorState s;
                     Shell.ui := Shell.ui s; Shell.gallery := g' |})
        as (Ok2 & _).
      { unfold shell_selection in S.
        apply shell_ok_build; congruence || assumption || lia. }
      eexists. split; [reflexivity | ]. split; [exact Ok2 | ].
      intros K. contradiction.
    + exists s. split; [reflexivity | ]. split; [exact Ok | ].
      intros K. contradiction.
Qed.

Lemma shell_ok_init : shell_ok Shell.init.
Proof.
  apply shell_ok_build; try reflexivity; [lia | apply wf_mount].
Qed.

(** X20.  In every state the wired application reaches from its first
    render, whatever frames, cursor updates and uploads arrive (an upload
    of no files changes nothing): the item list is not empty, so the angle
    step is a finite number and no frame fails; the gallery's
    [selectedIndex] is the application's [selectedItemIndex]; and the stored
    previous Y is the current cursor's. *)
Theorem application_invariant ins :
  exists s',
    Shell.run ins Shell.init = Some s'
    /\ shell_ok s'
    /\ exists step, angleStep (count (Shell.gallery s')) = Finite step.
Proof.
  assert (G : forall ins s, shell_ok s ->
            exists s', Shell.run ins s = Some s' /\ shell_ok s').
  { clear ins. induction ins as [ | i ins IH]; intros s Ok.
    - exists s. auto.
    - destruct (react_props i s Ok) as (s1 & E & Ok1 & _).
      destruct (IH s1 Ok1) as (s' & R & Ok').
      exists s'. cbn [Shell.run]. rewrite E. auto. }
  destruct (G ins Shell.init shell_ok_init) as (s' & R & Ok').
  exists s'. split; [exact R | ]. split; [exact Ok' | ].
  destruct Ok' as (I & C & _). eexists. apply angleStep_pos. lia.
Qed.

(** X21.  As long as no files are uploaded, the selected item index is
    always an index into the item list, so [DetailCard] shows a card exactly
    when a selection is held. *)
Theorem selection_valid_without_upload ins :
  Forall keeps_files ins ->
  exists s',
    Shell.run ins Shell.init = Some s'
    /\ valid_selection s'
    /\ Shell.detail_visible s' = isDetailOpen (shell_selection s').
Proof.
  intros K.
  assert (G : forall ins s, Forall keeps_files ins -> shell_ok s ->
            valid_activeIndex (Shell.gallery s) -> valid_selection s ->
            exists s', Shell.run ins s = Some s' /\ valid_selection s').
  { clear ins K. induction ins as [ | i ins IH]; intros s K Ok V VS.
    - exists s. auto.
    - apply Forall_cons_iff in K. destruct K as [Ki K].
      destruct (react_props i s Ok) as (s1 & E & Ok1 & H).
      destruct (H Ki V VS) as (V1 & VS1 & _).
      destruct (IH s1 K Ok1 V1 VS1) as (s' & R & VS').
      exists s'. cbn [Shell.run]. rewrite E. auto. }
  destruct (G ins Shell.init K shell_ok_init) as (s' & R & VS').
  { apply valid_activeIndex_mount. lia. }
  { constructor. }
  exists s'. split; [exact R | ]. split; [exact VS' | ].
  unfold Shell.detail_visible, DetailCard_shown, Shell.item_of.
  unfold valid_selection, shell_selection in *.
  destruct (App.selectedItemIndex (Shell.ui s')) as [i | ]; [ | reflexivity].
  cbn [isDetailOpen andb].
  destruct (Z.leb_spec 0 i), (Z.ltb_spec i (Z.of_nat (Shell.items s')));
    try lia; reflexivity.
Qed.

Lemma selection_valid_without_upload_witness :
  exists s',
    Shell.run [Shell.CursorChange cursor_09 4000 4001;
               Shell.AnimationFrame (frame_at pinch_at_centre 5000) 5001]
      Shell.init = Some s'
    /\ valid_selection s'
    /\ Shell.detail_visible s' = isDetailOpen (shell_selection s').
Proof.
  apply (selection_valid_without_upload
           [Shell.CursorChange cursor_09 4000 4001;
            Shell.AnimationFrame (frame_at pinch_at_centre 5000) 5001]).
  repeat constructor.
Defined.

(** X22.  In the wired application a frame whose pinch fires toggles the
    detail view: with none open it opens the item that was in front, with
    one open it closes it whatever item is in front; a frame that does not
    fire leaves the selection alone. *)
Theorem pinch_toggles_detail f later s :
  shell_ok s ->
  exists g' eff s',
    step (Tick f) (Shell.gallery s) = Some (g', Some eff)
    /\ Shell.react (Shell.AnimationFrame f later) s = Some s'
    /\ shell_selection s'
       = match onItemSelect eff, shell_selection s with
         | None, sel => sel
         | Some _, Some _ => None
         | Some _, None =>
           Some (GalleryState.activeIndex
                   (galleryState (world (Shell.gallery s))))
         end.
Proof.
  intros Ok. pose proof Ok as (I & C & S & W & Y).
  destruct (step_tick_full f (Shell.gallery s) W ltac:(lia))
    as (g' & eff & E & W' & C' & S' & _ & _ & _ & _ & _ & O).
  exists g', eff. cbn [Shell.react]. rewrite E.
  destruct eff as [sel' snd' dr']. cbn [onItemSelect] in *.
  destruct sel' as [k | ].
  - eexists. split; [reflexivity | ]. split; [reflexivity | ].
    match goal with
    | |- shell_selection (Shell.select ?a ?b ?c) = _ =>
      destruct (select_props a b c) as (_ & Sel & _)
    end.
    { unfold shell_selection in S.
      apply shell_ok_build; congruence || assumption. }
    rewrite Sel. unfold shell_selection, App.handleItemSelect.
    destruct (App.selectedItemIndex (Shell.ui s)); [reflexivity | ].
    destruct (fire_cond (cursor f) (now f) (galleryState (world (Shell.gallery s))))
      eqn:Fc; [ | discriminate].
    rewrite (hoveredIndex_pinching _ _ _ _ (fire_cond_pinching _ _ _ Fc)) in O.
    cbn in O. injection O as ->. reflexivity.
  - eexists. split; [reflexivity | ]. split; reflexivity.
Qed.

Lemma pinch_toggles_detail_witness :
  exists g' eff s',
    step (Tick (frame_at pinch_at_centre 5000)) (Shell.gallery Shell.init)
    = Some (g', Some eff)
    /\ Shell.react (Shell.AnimationFrame (frame_at pinch_at_centre 5000) 5001)
         Shell.init = Some s'
    /\ shell_selection s'
       = match onItemSelect eff, shell_selection Shell.init with
         | None, sel => sel
         | Some _, Some _ => None
         | Some _, None =>
           Some (GalleryState.activeIndex
                   (galleryState (world (Shell.gallery Shell.init))))
         end.
Proof.
  apply (pinch_toggles_detail (frame_at pinch_at_centre 5000) 5001 Shell.init).
  exact shell_ok_init.
Defined.

(** ** The ring counter-rotates with the scroll target *)

Lemma scroll_logic_speed sel c tg :
  scroll_logic sel c tg = tg + targetSpeed sel c.
Proof.
  unfold scroll_logic.
  destruct (negb (isDetailOpen sel) && HandCursor.isVisible c) eqn:B;
    [reflexivity | ].
  rewrite targetSpeed_suspended; [ring | ].
  apply andb_false_iff in B. destruct B as [B | B]; [left | right; exact B].
  destruct (isDetailOpen sel); [reflexivity | discriminate].
Qed.

(** X23.  Over any run of animation frames between two re-runs of the
    effect, the HUD ring turns by minus half of what the scroll target
    gains: [ring.rotation.z + 0.5 * scrollTarget] is the same after every
    frame. *)
Theorem ring_follows_scroll frames s :
  wf s ->
  exists s' log,
    run (map Tick frames) s = Some (s', log)
    /\ ring_rotation_z (ring (world s')) - ring_rotation_z (ring (world s))
       = -0.5 * (GalleryState.scrollTarget (galleryState (world s'))
                 - GalleryState.scrollTarget (galleryState (world s))).
Proof.
  intros Hwf.
  destruct (run_invariant
              (fun s0 =>
                 ring_rotation_z (ring (world s0))
                 + 0.5 * GalleryState.scrollTarget (galleryState (world s0))
                 = ring_rotation_z (ring (world s))
                   + 0.5 * GalleryState.scrollTarget (galleryState (world s)))
              (fun e => match e with Tick _ => True | _ => False end)
              (fun _ => True))
    with (evs := map Tick frames) (s := s) as (s' & log & R & _ & P & _); auto.
  { intros e s0 Qe W0 P0. destruct e as [f | sel | n]; try contradiction.
    destruct (step_tick_world f s0 W0) as (w' & eff & E & St & W').
    eexists; exists (Some eff). split; [exact St | ]. split; [exact W' | ].
    split; [ | repeat constructor]. cbn [world].
    destruct (update_fields _ _ _ _ _ _ E) as (_ & Rg & _).
    destruct (update_scrollTarget _ _ _ _ _ _ E) as (T & _).
    rewrite Rg, T, scroll_logic_speed. cbn [ring_rotation_z]. lra. }
  { apply Forall_forall. intros e He. apply in_map_iff in He.
    destruct He as (f & <- & _). exact Logic.I. }
  exists s', log. split; [exact R | ]. lra.
Qed.

Lemma ring_follows_scroll_witness :
  exists s' log,
    run (map Tick [frame_at cursor_09 5000; frame_at cursor_left_edge 5016])
      (mount 10 None) = Some (s', log)
    /\ ring_rotation_z (ring (world s'))
       - ring_rotation_z (ring (world (mount 10 None)))
       = -0.5 * (GalleryState.scrollTarget (galleryState (world s'))
                 - GalleryState.scrollTarget (galleryState (world (mount 10 None)))).
Proof.
  apply (ring_follows_scroll [frame_at cursor_09 5000; frame_at cursor_left_edge 5016]
           (mount 10 None)).
  apply wf_mount.
Defined.
